(** * playerroutes-web: the map canvas and the live-sync hook

    A shallow embedding of [src/components/MapCanvas.tsx] and
    [src/hooks/useWebSocket.ts], and the properties of the specification
    that concern them.

    JavaScript numbers are IEEE-754 binary64 values.  The arithmetic of the
    two source files is written once, over the interface [JsNumber], and
    read at two instances:
    - [float_number]: Rocq's primitive floats, which are binary64 with
      round-to-nearest-even, i.e. the numbers the program computes with.
      Everything evaluates at this instance.
    - [real_number]: the real numbers, i.e. the same code with rounding
      removed.  The exact laws of the geometry are proved at this
      instance.

    The tolerance of the zoom is proved at [float_number]: the error of
    each subtraction, multiplication and division is derived from the
    definitions of [SpecFloat] that specify the primitive floats, and
    carried through the evaluation. *)

From Stdlib Require Import ZArith Lia List Bool.
From Stdlib Require Import Floats.
From Stdlib Require Import Reals Lra.
From stdpp Require Import gmap strings list.

Set Default Proof Using "Type".
Set Warnings "-inexact-float".

(** ** Numbers *)

Class JsNumber (num : Type) := {
  js_lit : Z -> num;                (* an integer literal *)
  js_add : num -> num -> num;
  js_sub : num -> num -> num;
  js_mul : num -> num -> num;
  js_div : num -> num -> num;
  js_neg : num -> num;
  Math_sqrt : num -> num;
  Math_min : num -> num -> num;
  Math_max : num -> num -> num;
  js_lt : num -> num -> bool;       (* a < b *)
  js_le : num -> num -> bool;       (* a <= b *)
}.

Declare Scope js_scope.
Delimit Scope js_scope with js.
Infix "+" := js_add : js_scope.
Infix "-" := js_sub : js_scope.
Infix "*" := js_mul : js_scope.
Infix "/" := js_div : js_scope.
Notation "- x" := (js_neg x) : js_scope.
Infix "<?" := js_lt : js_scope.
Infix "<=?" := js_le : js_scope.
Notation "a >? b" := (js_lt b a) : js_scope.
Notation "a >=? b" := (js_le b a) : js_scope.

(** A decimal literal [p/q], for [0.9], [1.1] and [0.01]: the correctly
    rounded quotient of two exactly representable integers is the binary64
    value the literal denotes (see [float_decimal_literals]). *)
Definition js_dec {num : Type} `{JsNumber num} (p q : Z) : num := (js_lit p / js_lit q)%js.

(** *** binary64 *)

Definition float_of_Z (z : Z) : float :=
  match z with
  | Z0 => 0%float
  | Zpos _ => PrimFloat.of_uint63 (Uint63.of_Z z)
  | Zneg p => (- PrimFloat.of_uint63 (Uint63.of_Z (Zpos p)))%float
  end.

(** [Math.max]: NaN if an argument is NaN, and [+0] is larger than [-0]. *)
Definition float_max (a b : float) : float :=
  if is_nan a || is_nan b then nan
  else if (a <? b)%float then b
  else if (b <? a)%float then a
  else if get_sign a then b else a.

(** [Math.min]: NaN if an argument is NaN, and [-0] is smaller than [+0]. *)
Definition float_min (a b : float) : float :=
  if is_nan a || is_nan b then nan
  else if (a <? b)%float then a
  else if (b <? a)%float then b
  else if get_sign a then a else b.

#[export] Instance float_number : JsNumber float := {
  js_lit := float_of_Z;
  js_add := PrimFloat.add;
  js_sub := PrimFloat.sub;
  js_mul := PrimFloat.mul;
  js_div := PrimFloat.div;
  js_neg := PrimFloat.opp;
  Math_sqrt := PrimFloat.sqrt;
  Math_min := float_min;
  Math_max := float_max;
  js_lt := PrimFloat.ltb;
  js_le := PrimFloat.leb;
}.

(** *** The value of a binary64 number

    [Prim2SF] gives the sign, the mantissa and the exponent of a
    primitive float.  [fval] is the real number they denote, and
    [rnd v r] says that [r] is no further from [v] than a rounding to
    nearest of binary64 takes it. *)

Section Values.
Local Open Scope R_scope.

Definition pow2 (e : Z) : R := powerRZ 2 e.

(** Where a real number lies from an integer [m], as the [location] that
    [SpecFloat] rounds with says it. *)
Definition located (m : Z) (x : R) (l : location) : Prop :=
  match l with
  | loc_Exact => x = IZR m
  | loc_Inexact Lt => IZR m < x < IZR m + 1 / 2
  | loc_Inexact Eq => x = IZR m + 1 / 2
  | loc_Inexact Gt => IZR m + 1 / 2 < x < IZR m + 1
  end.

Definition mag (f : spec_float) : R :=
  match f with
  | S754_finite _ m e => IZR (Zpos m) * pow2 e
  | _ => 0
  end.

Definition signed (s : bool) (v : R) : R := if s then - v else v.

Definition sval (f : spec_float) : R :=
  match f with
  | S754_finite s m e => signed s (IZR (Zpos m) * pow2 e)
  | _ => 0
  end.

Definition sfinite (f : spec_float) : bool :=
  match f with
  | S754_zero _ | S754_finite _ _ _ => true
  | _ => false
  end.

Definition fval (x : float) : R := sval (Prim2SF x).

Definition ffinite (x : float) : bool := sfinite (Prim2SF x).

(** [r] is [v] rounded: off by at most the relative error [2 ^ -53] and
    the absolute error [2 ^ -1075] of the subnormal numbers. *)
Definition rnd (v r : R) : Prop :=
  Rabs (r - v) <= pow2 (-53) * Rabs v + pow2 (-1075).
End Values.

(** *** Real numbers *)

Definition Rltb (a b : R) : bool := if Rlt_dec a b then true else false.
Definition Rleb (a b : R) : bool := if Rle_dec a b then true else false.

#[export] Instance real_number : JsNumber R := {
  js_lit := IZR;
  js_add := Rplus;
  js_sub := Rminus;
  js_mul := Rmult;
  js_div := Rdiv;
  js_neg := Ropp;
  Math_sqrt := R_sqrt.sqrt;
  Math_min := Rmin;
  Math_max := Rmax;
  js_lt := Rltb;
  js_le := Rleb;
}.

(** ** The engine *)

(** The engine the code runs on, as far as the code depends on it: the
    number of arguments it accepts in one call (at least one).  A call
    with more, as [Math.min(...xs)] makes for a long array, throws a
    [RangeError]. *)
Class JsEngine := {
  maxArguments : positive;
}.

(** Whether a call with [n] arguments returns. *)
Definition withinArguments `{JsEngine} (n : nat) : bool :=
  (N.of_nat n <=? N.pos maxArguments)%N.

(** ** Shared types ([src/types]) *)

Section Types.
Context (num : Type).

Record RoutePoint := {
  t : num;
  x : num;
  y : num;
  z : num;
  dim : string;
}.

Record SessionStats := {
  samples : num;
  distanceXZ : num;
}.

Record PlayerSession := {
  _id : string;
  playerUuid : string;
  playerName : string;
  startedAt : num;
  endedAt : option num;
  active : bool;
  lastSeenAt : num;
  stats : SessionStats;
  path : list RoutePoint;
}.
End Types.

Arguments t {num}. Arguments x {num}. Arguments y {num}. Arguments z {num}.
Arguments dim {num}.
Arguments samples {num}. Arguments distanceXZ {num}.
Arguments _id {num}. Arguments playerUuid {num}. Arguments playerName {num}.
Arguments startedAt {num}. Arguments endedAt {num}. Arguments active {num}.
Arguments lastSeenAt {num}. Arguments stats {num}. Arguments path {num}.
Arguments Build_RoutePoint {num}.
Arguments Build_SessionStats {num}.
Arguments Build_PlayerSession {num}.

(** ** [MapCanvas.tsx] *)

Module MapCanvas.
Section Canvas.
Context {num : Type} `{JsNumber num} `{JsEngine}.
Local Open Scope js_scope.

Record Transform := {
  offsetX : num;
  offsetY : num;
  scale : num;
}.

(** The [dimensions] state: the size of the canvas in pixels. *)
Record Dimensions := {
  width : num;
  height : num;
}.

Definition CHUNK_SIZE : num := js_lit 16.

(** [centerOnPosition] (lines 87-94): the transform it sets. *)
Definition centerOnPosition (transform : Transform) (x z : num) : Transform :=
  let scale := Math_max (scale transform) (js_lit 4) in
  {| offsetX := (- x) * scale;
     offsetY := (- z) * scale;
     scale := scale |}.

(** [worldToScreen] (lines 218-225). *)
Definition worldToScreen (transform : Transform) (dimensions : Dimensions)
    (x z : num) : num * num :=
  let screenX := (x * scale transform) + offsetX transform + width dimensions / js_lit 2 in
  let screenY := (z * scale transform) + offsetY transform + height dimensions / js_lit 2 in
  (screenX, screenY).

(** [screenToWorld] (lines 228-235). *)
Definition screenToWorld (transform : Transform) (dimensions : Dimensions)
    (screenX screenY : num) : num * num :=
  let x := (screenX - width dimensions / js_lit 2 - offsetX transform) / scale transform in
  let z := (screenY - height dimensions / js_lit 2 - offsetY transform) / scale transform in
  (x, z).

(** *** Wheel zoom *)

Record WheelEvent := {
  deltaY : num;
  clientX : num;
  clientY : num;
}.

(** What [getBoundingClientRect] returns, as far as it is read. *)
Record DOMRect := {
  left : num;
  top : num;
}.

(** [handleWheel] (lines 738-755).  [transform] is the state of the render
    the handler belongs to, from which [newScale] is computed; [prev] is
    the state React passes to the updater, and the result is the state it
    returns.  Without a canvas ([rect] absent) no update is queued. *)
Definition handleWheel (transform : Transform) (dimensions : Dimensions)
    (e : WheelEvent) (rect : option DOMRect) (prev : Transform) : Transform :=
  let delta := if deltaY e >? js_lit 0 then js_dec 9 10 else js_dec 11 10 in
  let newScale :=
    Math_min (Math_max (scale transform * delta) (js_dec 1 100)) (js_lit 50) in
  match rect with
  | None => prev
  | Some rect =>
      let mouseX := clientX e - left rect - width dimensions / js_lit 2 in
      let mouseY := clientY e - top rect - height dimensions / js_lit 2 in
      {| offsetX := mouseX - (mouseX - offsetX prev) * (newScale / scale prev);
         offsetY := mouseY - (mouseY - offsetY prev) * (newScale / scale prev);
         scale := newScale |}
  end.

(** The position of the cursor on the canvas, as [handleMouseMove] and
    [handleDoubleClick] compute it before calling [screenToWorld]. *)
Definition cursorOnCanvas (e : WheelEvent) (rect : DOMRect) : num * num :=
  (clientX e - left rect, clientY e - top rect).

(** *** World bounds *)

Record WorldBounds := {
  minX : num;
  maxX : num;
  minZ : num;
  maxZ : num;
  initialized : bool;
}.

(** The initial value of [worldBounds], which the dimension switch
    (line 154) and [refreshTiles] (line 861) assign again. *)
Definition noBounds : WorldBounds :=
  {| minX := js_lit 0; maxX := js_lit 0; minZ := js_lit 0; maxZ := js_lit 0;
     initialized := false |}.

(** [img.onload] of [loadTile] (lines 258-277), on [worldBounds]: an image
    of at most one pixel in a direction is the placeholder of a missing
    tile and leaves the bounds alone. *)
Definition tile_onload (worldBounds : WorldBounds) (chunkX chunkZ : num)
    (naturalWidth naturalHeight : Z) : WorldBounds :=
  if (naturalWidth <=? 1)%Z || (naturalHeight <=? 1)%Z then worldBounds
  else
    let worldX := chunkX * CHUNK_SIZE in
    let worldZ := chunkZ * CHUNK_SIZE in
    if negb (initialized worldBounds) then
      {| minX := worldX; maxX := worldX + CHUNK_SIZE;
         minZ := worldZ; maxZ := worldZ + CHUNK_SIZE;
         initialized := true |}
    else
      {| minX := Math_min (minX worldBounds) worldX;
         maxX := Math_max (maxX worldBounds) (worldX + CHUNK_SIZE);
         minZ := Math_min (minZ worldBounds) worldZ;
         maxZ := Math_max (maxZ worldBounds) (worldZ + CHUNK_SIZE);
         initialized := true |}.

(** [DIMENSION_FULL_IDS[currentDimension] || 'minecraft:overworld']. *)
Definition fullDimId (currentDimension : string) : string :=
  if String.eqb currentDimension "overworld" then "minecraft:overworld"
  else if String.eqb currentDimension "the_nether" then "minecraft:the_nether"
  else if String.eqb currentDimension "the_end" then "minecraft:the_end"
  else "minecraft:overworld".

Definition inDim (d : string) (p : RoutePoint num) : bool := String.eqb (dim p) d.

(** What [Math.min(...xs)] and [Math.max(...xs)] return for a non-empty
    array, when they return. *)
Definition Math_min_of (x0 : num) (xs : list num) : num := fold_left Math_min xs x0.
Definition Math_max_of (x0 : num) (xs : list num) : num := fold_left Math_max xs x0.

(** [Math.min(...xs)] and [Math.max(...xs)] of the non-empty array
    [x0 :: xs]: every element is an argument of the call, and [None] is
    the [RangeError] of a call with more arguments than the engine
    accepts. *)
Definition Math_min_spread (x0 : num) (xs : list num) : option num :=
  if withinArguments (S (length xs)) then Some (Math_min_of x0 xs) else None.

Definition Math_max_spread (x0 : num) (xs : list num) : option num :=
  if withinArguments (S (length xs)) then Some (Math_max_of x0 xs) else None.

(** What the effects of the canvas read and write besides their inputs:
    the [transform] state and the refs [hasInitializedView], [worldBounds]
    and [prevDimensionRef]; [thrown] tells that an effect has thrown.
    React then takes the component away: the state update the effect
    queued is not rendered and no effect of the component runs again. *)
Record ViewState := {
  transform : Transform;
  hasInitializedView : bool;
  worldBounds : WorldBounds;
  prevDimensionRef : string;
  thrown : bool;
}.

Definition centredAt (p : RoutePoint num) : Transform :=
  {| offsetX := (- x p) * js_lit 2;
     offsetY := (- z p) * js_lit 2;
     scale := js_lit 2 |}.

(** The bounds assigned at lines 197-210 from the points of every session
    that lie in the dimension; [None] when one of the four calls of
    lines 203-206 throws, which leaves [worldBounds] unassigned. *)
Definition seededBounds (sessions : list (PlayerSession num)) (d : string)
    (worldBounds : WorldBounds) : option WorldBounds :=
  let allPointsInDim := flat_map (fun s => List.filter (inDim d) (path s)) sessions in
  match allPointsInDim with
  | [] => Some worldBounds
  | p0 :: ps =>
      let xs := map x ps in
      let zs := map z ps in
      minX' ← Math_min_spread (x p0) xs;
      maxX' ← Math_max_spread (x p0) xs;
      minZ' ← Math_min_spread (z p0) zs;
      maxZ' ← Math_max_spread (z p0) zs;
      Some {| minX := minX' - js_lit 100;
              maxX := maxX' + js_lit 100;
              minZ := minZ' - js_lit 100;
              maxZ := maxZ' + js_lit 100;
              initialized := true |}
  end.

(** The effect of lines 161-215, run when [sessions] or [currentDimension]
    change.  [sessions] lists the values of the session map in the order
    the map iterates them. *)
Definition autoCenter (sessions : list (PlayerSession num))
    (currentDimension : string) (st : ViewState) : ViewState :=
  if hasInitializedView st then st
  else if Nat.eqb (length sessions) 0 then st
  else
    let d := fullDimId currentDimension in
    let activeHere (s : PlayerSession num) :=
      active s && match last (path s) with
                  | Some lastPoint => inDim d lastPoint
                  | None => false
                  end in
    match find activeHere sessions with
    | Some s =>
        match last (path s) with
        | Some lastPoint =>
            {| transform := centredAt lastPoint;
               hasInitializedView := true;
               worldBounds := worldBounds st;
               prevDimensionRef := prevDimensionRef st;
               thrown := thrown st |}
        | None => st
        end
    | None =>
        let pointIn (s : PlayerSession num) := find (inDim d) (path s) in
        match find (fun s => bool_decide (is_Some (pointIn s))) sessions with
        | Some s =>
            match pointIn s with
            | Some pointInDim =>
                match seededBounds sessions d (worldBounds st) with
                | Some bounds =>
                    {| transform := centredAt pointInDim;
                       hasInitializedView := true;
                       worldBounds := bounds;
                       prevDimensionRef := prevDimensionRef st;
                       thrown := thrown st |}
                | None =>
                    (* [setTransform] was called (line 189) and the flag
                       set (line 194) before the call of line 203 throws;
                       the update that [setTransform] queued goes with
                       the component *)
                    {| transform := transform st;
                       hasInitializedView := true;
                       worldBounds := worldBounds st;
                       prevDimensionRef := prevDimensionRef st;
                       thrown := true |}
                end
            | None => st
            end
        | None => st
        end
    end.

(** The effect of lines 150-158, run when [currentDimension] changes: the
    tile cache is emptied and the bounds are reset. *)
Definition dimensionEffect (currentDimension : string) (st : ViewState) : ViewState :=
  if negb (String.eqb (prevDimensionRef st) currentDimension) then
    {| transform := transform st;
       hasInitializedView := hasInitializedView st;
       worldBounds := noBounds;
       prevDimensionRef := currentDimension;
       thrown := thrown st |}
  else st.

(** *** Direction chevrons of the selected route *)

(** The display settings [drawRoute] reads for the route of a session.
    [showArrows] is read at line 497; its declaration is not part of the
    sources at hand. *)
Record MapDisplaySettings := {
  showInactivePaths : bool;
  showArrows : bool;
}.

Definition minPixelDistance : num := js_lit 60.

(** The loop of lines 501-537 from index [i] on: [prev] is
    [pointsInDimension[i-1]], [rest] the points from index [i], and the
    result the midpoints at which a chevron is stroked, in drawing order.
    [(x2 - x1) ** 2] is the square of the difference. *)
Fixpoint chevronsFrom (toScreen : num -> num -> num * num)
    (prev : RoutePoint num) (rest : list (RoutePoint num))
    (accumulatedDistance : num) : list (num * num) :=
  match rest with
  | [] => []
  | p :: rest' =>
      let '(x1, y1) := toScreen (x prev) (z prev) in
      let '(x2, y2) := toScreen (x p) (z p) in
      let segmentDistance :=
        Math_sqrt ((x2 - x1) * (x2 - x1) + (y2 - y1) * (y2 - y1)) in
      let accumulatedDistance := accumulatedDistance + segmentDistance in
      if accumulatedDistance >=? minPixelDistance then
        let midX := (x1 + x2) / js_lit 2 in
        let midY := (y1 + y2) / js_lit 2 in
        (midX, midY) :: chevronsFrom toScreen p rest' (js_lit 0)
      else chevronsFrom toScreen p rest' accumulatedDistance
  end.

(** The chevrons [drawRoute] (lines 452-538) strokes for one session. *)
Definition drawRoute_chevrons (session : PlayerSession num) (isSelected : bool)
    (toScreen : num -> num -> num * num) (dimensionFilter : string)
    (settings : MapDisplaySettings) : list (num * num) :=
  if Nat.eqb (length (path session)) 0 then []
  else if negb (active session) && negb (showInactivePaths settings) then []
  else
    let pointsInDimension := List.filter (inDim dimensionFilter) (path session) in
    match pointsInDimension with
    | p0 :: rest =>
        if isSelected && (2 <=? length pointsInDimension)%nat && showArrows settings
        then chevronsFrom toScreen p0 rest (js_lit 0)
        else []
    | [] => []
    end.

(** The screen length of the polyline from [prev] through [rest]: the sum
    of the segment lengths the loop measures. *)
Fixpoint screenLengthFrom (toScreen : num -> num -> num * num)
    (prev : RoutePoint num) (rest : list (RoutePoint num)) : num :=
  match rest with
  | [] => js_lit 0
  | p :: rest' =>
      let '(x1, y1) := toScreen (x prev) (z prev) in
      let '(x2, y2) := toScreen (x p) (z p) in
      Math_sqrt ((x2 - x1) * (x2 - x1) + (y2 - y1) * (y2 - y1))
      + screenLengthFrom toScreen p rest'
  end.

(** The segments of the polyline from [prev] through [rest], in the
    order of the loop. *)
Fixpoint segmentsFrom (prev : RoutePoint num) (rest : list (RoutePoint num))
    : list (RoutePoint num * RoutePoint num) :=
  match rest with
  | [] => []
  | p :: rest' => (prev, p) :: segmentsFrom p rest'
  end.

(** [segmentDistance] (line 505) and the midpoint (lines 513-514) of a
    segment. *)
Definition segmentDistance (toScreen : num -> num -> num * num)
    (segment : RoutePoint num * RoutePoint num) : num :=
  let '(x1, y1) := toScreen (x (fst segment)) (z (fst segment)) in
  let '(x2, y2) := toScreen (x (snd segment)) (z (snd segment)) in
  Math_sqrt ((x2 - x1) * (x2 - x1) + (y2 - y1) * (y2 - y1)).

Definition segmentMidpoint (toScreen : num -> num -> num * num)
    (segment : RoutePoint num * RoutePoint num) : num * num :=
  let '(x1, y1) := toScreen (x (fst segment)) (z (fst segment)) in
  let '(x2, y2) := toScreen (x (snd segment)) (z (snd segment)) in
  ((x1 + x2) / js_lit 2, (y1 + y2) / js_lit 2).

(** [accumulatedDistance] after the segments of a stretch, from the value
    [acc] on: the additions of line 506, in the order of the loop. *)
Definition accumulated (toScreen : num -> num -> num * num) (acc : num)
    (stretch : list (RoutePoint num * RoutePoint num)) : num :=
  fold_left (fun a segment => a + segmentDistance toScreen segment) stretch acc.

(** From the accumulated distance [acc] on, a stretch of segments earns
    its chevron at its last segment: there the test of line 509 holds,
    and at no segment before. *)
Definition earnsChevron (toScreen : num -> num -> num * num) (acc : num)
    (stretch : list (RoutePoint num * RoutePoint num)) : Prop :=
  stretch <> []
  /\ (accumulated toScreen acc stretch >=? minPixelDistance) = true
  /\ forall before after,
      stretch = before ++ after -> before <> [] -> after <> [] ->
      (accumulated toScreen acc before >=? minPixelDistance) = false.

(** From [acc] on, the test of line 509 holds at no segment of the
    stretch. *)
Definition earnsNone (toScreen : num -> num -> num * num) (acc : num)
    (stretch : list (RoutePoint num * RoutePoint num)) : Prop :=
  forall before after,
    stretch = before ++ after -> before <> [] ->
    (accumulated toScreen acc before >=? minPixelDistance) = false.

(** The chevron of a stretch: at the midpoint of its last segment. *)
Definition chevronAt (toScreen : num -> num -> num * num) (chevron : num * num)
    (stretch : list (RoutePoint num * RoutePoint num)) : Prop :=
  exists segment,
    last stretch = Some segment /\ chevron = segmentMidpoint toScreen segment.

(** *** What the bounds observe *)

(** The state of the component before anything was loaded (lines 65, 74,
    76 and 149); the page mounts the canvas in the overworld, which is
    also the default of the property (line 59). *)
Definition initialView : ViewState :=
  {| transform := {| offsetX := js_lit 0; offsetY := js_lit 0; scale := js_lit 2 |};
     hasInitializedView := false;
     worldBounds := noBounds;
     prevDimensionRef := "overworld";
     thrown := false |}.

(** A tile image finished loading, or the component was rendered with a
    changed session map or a changed dimension (the session map changes,
    for one, when the historical sessions are merged into it). *)
Inductive Observation :=
| TileLoaded (chunkX chunkZ : num) (naturalWidth naturalHeight : Z)
| SessionsChanged (sessions : list (PlayerSession num)) (currentDimension : string).

(** After such a render the effects run in the order of the source: the
    effect of the dimension (lines 150-158), then the auto-centring
    effect (lines 161-215).  The handler of an image writes the ref
    whether or not the component is still there. *)
Definition observe (st : ViewState) (o : Observation) : ViewState :=
  match o with
  | TileLoaded chunkX chunkZ naturalWidth naturalHeight =>
      {| transform := transform st;
         hasInitializedView := hasInitializedView st;
         worldBounds :=
           tile_onload (worldBounds st) chunkX chunkZ naturalWidth naturalHeight;
         prevDimensionRef := prevDimensionRef st;
         thrown := thrown st |}
  | SessionsChanged sessions currentDimension =>
      if thrown st then st
      else autoCenter sessions currentDimension (dimensionEffect currentDimension st)
  end.

Definition observeAll (st : ViewState) (os : list Observation) : ViewState :=
  fold_left observe os st.

(** The rectangle [outer] is a superset of the rectangle [inner];
    uninitialized bounds are the empty rectangle. *)
Definition includes (outer inner : WorldBounds) : bool :=
  negb (initialized inner)
  || (initialized outer
      && (minX outer <=? minX inner) && (maxX inner <=? maxX outer)
      && (minZ outer <=? minZ inner) && (maxZ inner <=? maxZ outer)).

(** *** Panning, recentring and fitting *)

(** [clampTransform] (lines 663-682), with [worldBounds.current] as
    argument. *)
Definition clampTransform (worldBounds : WorldBounds) (newTransform : Transform)
    : Transform :=
  if negb (initialized worldBounds) then newTransform
  else
    let padding := js_lit 100 in
    let centerX := (- offsetX newTransform) / scale newTransform in
    let centerZ := (- offsetY newTransform) / scale newTransform in
    let clampedX :=
      Math_max (minX worldBounds - padding)
               (Math_min (maxX worldBounds + padding) centerX) in
    let clampedZ :=
      Math_max (minZ worldBounds - padding)
               (Math_min (maxZ worldBounds + padding) centerZ) in
    {| offsetX := (- clampedX) * scale newTransform;
       offsetY := (- clampedZ) * scale newTransform;
       scale := scale newTransform |}.

(** The updater of a drag step in [handleMouseMove] (lines 685-694):
    [lastMouse] is the position of the previous event, [(eX, eY)] the
    [clientX] and [clientY] of this one. *)
Definition dragStep (worldBounds : WorldBounds) (lastMouse : num * num)
    (eX eY : num) (prev : Transform) : Transform :=
  let dx := eX - fst lastMouse in
  let dy := eY - snd lastMouse in
  clampTransform worldBounds
    {| offsetX := offsetX prev + dx;
       offsetY := offsetY prev + dy;
       scale := scale prev |}.

(** [handleDoubleClick] (lines 763-777): [transform] is the state of the
    render, which [screenToWorld] reads, and [prev] the state the updater
    receives. *)
Definition handleDoubleClick (transform : Transform) (dimensions : Dimensions)
    (eX eY : num) (rect : option DOMRect) (prev : Transform) : Transform :=
  match rect with
  | None => prev
  | Some rect =>
      let mouseX := eX - left rect in
      let mouseY := eY - top rect in
      let '(worldX, worldZ) := screenToWorld transform dimensions mouseX mouseY in
      {| offsetX := (- worldX) * scale prev;
         offsetY := (- worldZ) * scale prev;
         scale := scale prev |}
  end.

(** The transform both [resetView] functions set when the bounds are
    initialized (lines 101-116 and 782-801). *)
Definition fitBounds (bounds : WorldBounds) (dimensions : Dimensions) : Transform :=
  let worldWidth := maxX bounds - minX bounds in
  let worldHeight := maxZ bounds - minZ bounds in
  let centerX := (minX bounds + maxX bounds) / js_lit 2 in
  let centerZ := (minZ bounds + maxZ bounds) / js_lit 2 in
  let padding := js_lit 50 in
  let availableWidth := width dimensions - padding * js_lit 2 in
  let availableHeight := height dimensions - padding * js_lit 2 in
  let scaleX := availableWidth / worldWidth in
  let scaleY := availableHeight / worldHeight in
  let scale := Math_min (Math_min scaleX scaleY) (js_lit 2) in
  {| offsetX := (- centerX) * scale;
     offsetY := (- centerZ) * scale;
     scale := Math_max (js_dec 1 10) scale |}.

(** [resetView] of the button (lines 779-806). *)
Definition resetView (worldBounds : WorldBounds) (dimensions : Dimensions)
    (prev : Transform) : Transform :=
  if initialized worldBounds then fitBounds worldBounds dimensions
  else {| offsetX := js_lit 0; offsetY := js_lit 0; scale := scale prev |}.

(** [resetView] of the handle the component exposes (lines 99-118). *)
Definition resetView_exposed (worldBounds : WorldBounds) (dimensions : Dimensions)
    (prev : Transform) : Transform :=
  if initialized worldBounds then fitBounds worldBounds dimensions
  else prev.


(** *** Zoom buttons *)

(** The entries of the [sessions] map of the component, in the order the
    map iterates them, and its [get]. *)
Definition Map_get {V : Type} (entries : list (string * V)) (key : string) : option V :=
  snd <$> find (fun e => String.eqb (fst e) key) entries.

(** [getSelectedPlayerPosition] (lines 809-817); the empty string is as
    falsy as [null]. *)
Definition getSelectedPlayerPosition (selectedSessionId : option string)
    (sessions : list (string * PlayerSession num)) : option (num * num) :=
  match selectedSessionId with
  | None => None
  | Some id =>
      if String.eqb id "" then None
      else
        match Map_get sessions id with
        | Some session =>
            match last (path session) with
            | Some lastPoint => Some (x lastPoint, z lastPoint)
            | None => None
            end
        | None => None
        end
  end.

(** What [zoomIn] and [zoomOut] do with their new scale (lines 824-834 and
    841-851). *)
Definition zoomTo (newScale : num) (playerPos : option (num * num))
    (prev : Transform) : Transform :=
  match playerPos with
  | Some (px, pz) =>
      {| offsetX := (- px) * newScale;
         offsetY := (- pz) * newScale;
         scale := newScale |}
  | None =>
      {| offsetX := offsetX prev; offsetY := offsetY prev; scale := newScale |}
  end.

(** [zoomIn] (lines 820-835) and [zoomOut] (lines 837-852). *)
Definition zoomIn (transform : Transform) (selectedSessionId : option string)
    (sessions : list (string * PlayerSession num)) (prev : Transform) : Transform :=
  let playerPos := getSelectedPlayerPosition selectedSessionId sessions in
  let newScale := scale transform * js_dec 15 10 in
  zoomTo newScale playerPos prev.

Definition zoomOut (transform : Transform) (selectedSessionId : option string)
    (sessions : list (string * PlayerSession num)) (prev : Transform) : Transform :=
  let playerPos := getSelectedPlayerPosition selectedSessionId sessions in
  let newScale := scale transform / js_dec 15 10 in
  zoomTo newScale playerPos prev.

(** [centerOnPlayer] (lines 622-654); [sessions] lists the values of the
    map in iteration order. *)
Definition centerOnPlayer (sessions : list (PlayerSession num))
    (currentDimension : string) (transform : Transform) : Transform :=
  let d := fullDimId currentDimension in
  let centred (lastPoint : RoutePoint num) :=
    let targetScale := Math_max (scale transform) (js_lit 4) in
    {| offsetX := (- x lastPoint) * targetScale;
       offsetY := (- z lastPoint) * targetScale;
       scale := targetScale |} in
  let activeHere (s : PlayerSession num) :=
    active s && match last (path s) with
                | Some lastPoint => inDim d lastPoint
                | None => false
                end in
  let activeAnywhere (s : PlayerSession num) :=
    active s && bool_decide (is_Some (last (path s))) in
  match find activeHere sessions with
  | Some s =>
      match last (path s) with
      | Some lastPoint => centred lastPoint
      | None => transform
      end
  | None =>
      match find activeAnywhere sessions with
      | Some s =>
          match last (path s) with
          | Some lastPoint => centred lastPoint
          | None => transform
          end
      | None => transform
      end
  end.

(** *** Hovering *)

(** The search of [handleMouseMove] (lines 707-725) for the session to
    highlight: the state of the loop is the nearest session so far and its
    distance. *)
Definition hoverStep (worldX worldZ : num) (acc : option string * num)
    (entry : string * PlayerSession num) : option string * num :=
  let '(sessionId, session) := entry in
  if negb (active session) then acc
  else
    match last (path session) with
    | None => acc
    | Some lastPoint =>
        let dx := x lastPoint - worldX in
        let dz := z lastPoint - worldZ in
        let distance := Math_sqrt (dx * dx + dz * dz) in
        if distance <? snd acc then (Some sessionId, distance) else acc
    end.

Definition nearestSession (transform : Transform)
    (sessions : list (string * PlayerSession num)) (worldX worldZ : num)
    : option string :=
  let nearestDistance := js_lit 20 / scale transform in
  fst (fold_left (hoverStep worldX worldZ) sessions (None, nearestDistance)).

(** *** Player colours *)

Definition PLAYER_COLORS : list string :=
  ["#3b82f6"; "#ef4444"; "#22c55e"; "#f59e0b"; "#8b5cf6";
   "#ec4899"; "#06b6d4"; "#f97316"; "#6366f1"; "#14b8a6"].

(** [getPlayerColor] (lines 122-128): the colour, and the colour map
    after the call. *)
Definition getPlayerColor (playerColorMap : gmap string string) (playerUuid : string)
    : string * gmap string string :=
  match playerColorMap !! playerUuid with
  | Some color => (color, playerColorMap)
  | None =>
      let colorIndex := (size playerColorMap mod length PLAYER_COLORS)%nat in
      let color := default "" (PLAYER_COLORS !! colorIndex) in
      (color, <[playerUuid := color]> playerColorMap)
  end.

(** The colour map after [getPlayerColor] was called for the players of
    a list, in order. *)
Definition colorsAfter (playerColorMap : gmap string string)
    (playerUuids : list string) : gmap string string :=
  fold_left (fun m playerUuid => snd (getPlayerColor m playerUuid))
    playerUuids playerColorMap.

(** Whether an observation comes with the dimension [d]; a tile that
    loads comes with no dimension. *)
Definition sameDimension (d : string) (o : Observation) : bool :=
  match o with
  | TileLoaded _ _ _ _ => true
  | SessionsChanged _ currentDimension => String.eqb d currentDimension
  end.

(** The rectangle of world coordinates that the tile of a chunk covers. *)
Definition tileRect (chunkX chunkZ : num) : WorldBounds :=
  {| minX := chunkX * CHUNK_SIZE; maxX := chunkX * CHUNK_SIZE + CHUNK_SIZE;
     minZ := chunkZ * CHUNK_SIZE; maxZ := chunkZ * CHUNK_SIZE + CHUNK_SIZE;
     initialized := true |}.

End Canvas.
Arguments Observation : clear implicits.
Arguments Transform : clear implicits.
Arguments Dimensions : clear implicits.
Arguments WorldBounds : clear implicits.
Arguments ViewState : clear implicits.
Arguments WheelEvent : clear implicits.
Arguments DOMRect : clear implicits.
End MapCanvas.

(** ** [useWebSocket.ts]

    The hook of [src/hooks/useWebSocket.ts].  The sources hold a second
    copy of the hook, behind the settings modal in
    [src/components/SettingsModal.tsx], which adds a mounted flag, a
    connecting flag and a close code to the connection; the copy embedded
    here is the one of [src/hooks]. *)

Module UseWebSocket.

(** The [readyState] of a [WebSocket]. *)
Inductive ReadyState := CONNECTING | OPEN | CLOSING | CLOSED.

#[export] Instance ReadyState_eq_dec : EqDecision ReadyState.
Proof. solve_decision. Defined.

(** A timer of the host: the delay [setTimeout] was given, and whether the
    timer is still to fire (neither fired nor cleared). *)
Record Timer := {
  delay : Z;
  pending : bool;
}.

(** [Math.min(1000 * Math.pow(2, n), 30000)] of line 88.  For a counter [n]
    the binary64 product is the exact integer as long as it is finite, and
    infinite otherwise, so the minimum is the one of the integers. *)
Definition backoffDelay (n : nat) : Z := Z.min (1000 * 2 ^ Z.of_nat n) 30000.

Section Hook.
Context {num : Type} `{JsNumber num}.
Local Open Scope js_scope.

(** The messages of the server ([WebSocketMessage] of [src/types]), with
    the fields the hook reads.  An absent [worldTime] is what fails the
    test [typeof message.worldTime === 'number']. *)
Inductive WebSocketMessage :=
| init (activeSessions : list (PlayerSession num)) (worldTime : option num)
| session_start (session : PlayerSession num)
| session_end (sessionId : string) (endedAt : num) (stats : SessionStats num)
| route_point (sessionId : string) (point : RoutePoint num) (worldTime : option num)
| time_update (worldTime : option num)
| command_response (success : bool) (message : string).

(** The state of the hook (its refs and React state), followed by the
    part of the host it acts on: the sockets created so far, the timers
    set so far, and the number of historical fetches awaiting a response. *)
Record HookState := {
  wsRef : option nat;
  connected : bool;
  sessions : gmap string (PlayerSession num);
  worldTime : option num;
  reconnectTimeoutRef : option nat;
  reconnectAttemptsRef : nat;
  historicalLoadedRef : bool;
  sockets : list ReadyState;
  timers : list Timer;
  fetches : nat;
}.

Definition initialState : HookState :=
  {| wsRef := None; connected := false; sessions := ∅; worldTime := None;
     reconnectTimeoutRef := None; reconnectAttemptsRef := 0;
     historicalLoadedRef := false;
     sockets := []; timers := []; fetches := 0 |}.

Definition set_wsRef (v : option nat) (st : HookState) : HookState :=
  {| wsRef := v; connected := connected st; sessions := sessions st;
     worldTime := worldTime st; reconnectTimeoutRef := reconnectTimeoutRef st;
     reconnectAttemptsRef := reconnectAttemptsRef st;
     historicalLoadedRef := historicalLoadedRef st;
     sockets := sockets st; timers := timers st; fetches := fetches st |}.

Definition setConnected (v : bool) (st : HookState) : HookState :=
  {| wsRef := wsRef st; connected := v; sessions := sessions st;
     worldTime := worldTime st; reconnectTimeoutRef := reconnectTimeoutRef st;
     reconnectAttemptsRef := reconnectAttemptsRef st;
     historicalLoadedRef := historicalLoadedRef st;
     sockets := sockets st; timers := timers st; fetches := fetches st |}.

Definition setSessions (v : gmap string (PlayerSession num)) (st : HookState)
    : HookState :=
  {| wsRef := wsRef st; connected := connected st; sessions := v;
     worldTime := worldTime st; reconnectTimeoutRef := reconnectTimeoutRef st;
     reconnectAttemptsRef := reconnectAttemptsRef st;
     historicalLoadedRef := historicalLoadedRef st;
     sockets := sockets st; timers := timers st; fetches := fetches st |}.

Definition setWorldTime (v : option num) (st : HookState) : HookState :=
  {| wsRef := wsRef st; connected := connected st; sessions := sessions st;
     worldTime := v; reconnectTimeoutRef := reconnectTimeoutRef st;
     reconnectAttemptsRef := reconnectAttemptsRef st;
     historicalLoadedRef := historicalLoadedRef st;
     sockets := sockets st; timers := timers st; fetches := fetches st |}.

Definition set_reconnectTimeoutRef (v : option nat) (st : HookState) : HookState :=
  {| wsRef := wsRef st; connected := connected st; sessions := sessions st;
     worldTime := worldTime st; reconnectTimeoutRef := v;
     reconnectAttemptsRef := reconnectAttemptsRef st;
     historicalLoadedRef := historicalLoadedRef st;
     sockets := sockets st; timers := timers st; fetches := fetches st |}.

Definition set_reconnectAttemptsRef (v : nat) (st : HookState) : HookState :=
  {| wsRef := wsRef st; connected := connected st; sessions := sessions st;
     worldTime := worldTime st; reconnectTimeoutRef := reconnectTimeoutRef st;
     reconnectAttemptsRef := v;
     historicalLoadedRef := historicalLoadedRef st;
     sockets := sockets st; timers := timers st; fetches := fetches st |}.

Definition set_historicalLoadedRef (v : bool) (st : HookState) : HookState :=
  {| wsRef := wsRef st; connected := connected st; sessions := sessions st;
     worldTime := worldTime st; reconnectTimeoutRef := reconnectTimeoutRef st;
     reconnectAttemptsRef := reconnectAttemptsRef st;
     historicalLoadedRef := v;
     sockets := sockets st; timers := timers st; fetches := fetches st |}.

Definition set_sockets (v : list ReadyState) (st : HookState) : HookState :=
  {| wsRef := wsRef st; connected := connected st; sessions := sessions st;
     worldTime := worldTime st; reconnectTimeoutRef := reconnectTimeoutRef st;
     reconnectAttemptsRef := reconnectAttemptsRef st;
     historicalLoadedRef := historicalLoadedRef st;
     sockets := v; timers := timers st; fetches := fetches st |}.

Definition set_timers (v : list Timer) (st : HookState) : HookState :=
  {| wsRef := wsRef st; connected := connected st; sessions := sessions st;
     worldTime := worldTime st; reconnectTimeoutRef := reconnectTimeoutRef st;
     reconnectAttemptsRef := reconnectAttemptsRef st;
     historicalLoadedRef := historicalLoadedRef st;
     sockets := sockets st; timers := v; fetches := fetches st |}.

Definition set_fetches (v : nat) (st : HookState) : HookState :=
  {| wsRef := wsRef st; connected := connected st; sessions := sessions st;
     worldTime := worldTime st; reconnectTimeoutRef := reconnectTimeoutRef st;
     reconnectAttemptsRef := reconnectAttemptsRef st;
     historicalLoadedRef := historicalLoadedRef st;
     sockets := sockets st; timers := timers st; fetches := v |}.

(** *** The host *)

(** [new WebSocket(wsUrl)]: a socket in state [CONNECTING], named by its
    index. *)
Definition newWebSocket (st : HookState) : nat * HookState :=
  (length (sockets st), set_sockets (sockets st ++ [CONNECTING]) st).

(** [ws.close()]: a socket that is connecting or open starts closing, and
    its [close] event follows later; otherwise nothing happens. *)
Definition ws_close (ws : nat) (st : HookState) : HookState :=
  match sockets st !! ws with
  | Some CONNECTING | Some OPEN => set_sockets (<[ws := CLOSING]> (sockets st)) st
  | _ => st
  end.

(** [setTimeout(connect, delay)]: a pending timer, named by its index. *)
Definition setTimeout (delay : Z) (st : HookState) : nat * HookState :=
  (length (timers st),
   set_timers (timers st ++ [{| delay := delay; pending := true |}]) st).

Definition clearTimeout (id : nat) (st : HookState) : HookState :=
  match timers st !! id with
  | Some tm => set_timers (<[id := {| delay := delay tm; pending := false |}]> (timers st)) st
  | None => st
  end.

(** *** The session map

    The map of session ids to sessions is a [gmap]; no two ids share a
    session object, so the in-place updates of the source are updates of
    the entry.  An updater is applied once to the state it is queued for. *)

(** The updater of lines 49-58, on the [sessions] array of the response. *)
Definition mergeHistorical (data_sessions : list (PlayerSession num))
    (prev : gmap string (PlayerSession num)) : gmap string (PlayerSession num) :=
  fold_left
    (fun next session =>
       if bool_decide (is_Some (next !! _id session)) then next
       else <[_id session := session]> next)
    data_sessions prev.

(** The updater of [session_start] (lines 126-130). *)
Definition startSession (session : PlayerSession num)
    (prev : gmap string (PlayerSession num)) : gmap string (PlayerSession num) :=
  <[_id session := session]> prev.

(** The updater of [session_end] (lines 135-144). *)
Definition endSession (sessionId : string) (endedAt' : num) (stats' : SessionStats num)
    (prev : gmap string (PlayerSession num)) : gmap string (PlayerSession num) :=
  match prev !! sessionId with
  | Some session =>
      <[sessionId :=
          {| _id := _id session; playerUuid := playerUuid session;
             playerName := playerName session; startedAt := startedAt session;
             endedAt := Some endedAt'; active := false;
             lastSeenAt := lastSeenAt session; stats := stats';
             path := path session |}]> prev
  | None => prev
  end.

(** The statements of lines 153-162 on the session found. *)
Definition appendPoint (session : PlayerSession num) (point : RoutePoint num)
    : PlayerSession num :=
  let path' := path session ++ [point] in
  let samples' := samples (stats session) + js_lit 1 in
  let distanceXZ' :=
    if (1 <? length path')%nat then
      match path' !! (length path' - 2)%nat with
      | Some lastPoint =>
          let dx := x point - x lastPoint in
          let dz := z point - z lastPoint in
          distanceXZ (stats session) + Math_sqrt (dx * dx + dz * dz)
      | None => distanceXZ (stats session)
      end
    else distanceXZ (stats session) in
  {| _id := _id session; playerUuid := playerUuid session;
     playerName := playerName session; startedAt := startedAt session;
     endedAt := endedAt session; active := active session;
     lastSeenAt := t point;
     stats := {| samples := samples'; distanceXZ := distanceXZ' |};
     path := path' |}.

(** The updater of [route_point] (lines 149-165). *)
Definition addRoutePoint (sessionId : string) (point : RoutePoint num)
    (prev : gmap string (PlayerSession num)) : gmap string (PlayerSession num) :=
  match prev !! sessionId with
  | Some session => <[sessionId := appendPoint session point]> prev
  | None => prev
  end.

(** [fetchHistoricalSessions] up to its request (line 35 and the [fetch]
    of line 40). *)
Definition fetchHistoricalSessions (st : HookState) : HookState :=
  if historicalLoadedRef st then st else set_fetches (S (fetches st)) st.

(** What the request comes back with: an exception, or a response with
    its [ok] flag and, when the body has one, the [sessions] array. *)
Inductive FetchResult :=
| fetch_failed
| fetch_response (ok : bool) (data_sessions : option (list (PlayerSession num))).

(** [fetchHistoricalSessions] from the response on (lines 46-65). *)
Definition historicalResponse (r : FetchResult) (st : HookState) : HookState :=
  match r with
  | fetch_response true (Some data_sessions) =>
      set_historicalLoadedRef true
        (setSessions (mergeHistorical data_sessions (sessions st)) st)
  | _ => st
  end.

Definition setWorldTime_if_number (w : option num) (st : HookState) : HookState :=
  match w with
  | Some _ => setWorldTime w st
  | None => st
  end.

(** [handleMessage] (lines 109-184).  The callbacks of the caller
    ([onSessionStart] and the like) do not touch the hook and are left
    out. *)
Definition handleMessage (message : WebSocketMessage) (st : HookState) : HookState :=
  match message with
  | init activeSessions w =>
      let newSessions :=
        fold_left (fun m session => <[_id session := session]> m) activeSessions ∅ in
      fetchHistoricalSessions (setWorldTime_if_number w (setSessions newSessions st))
  | session_start session =>
      setSessions (startSession session (sessions st)) st
  | session_end sessionId endedAt' stats' =>
      setSessions (endSession sessionId endedAt' stats' (sessions st)) st
  | route_point sessionId point w =>
      setWorldTime_if_number w (setSessions (addRoutePoint sessionId point (sessions st)) st)
  | time_update w => setWorldTime_if_number w st
  | command_response _ _ => st
  end.

(** *** The connection *)

Definition readyState (st : HookState) (ws : nat) : option ReadyState :=
  sockets st !! ws.

(** [connect] (lines 68-107): the guard, the new socket and the
    assignment to [wsRef]; the handlers are [ws_onopen], [ws_onclose] and
    [ws_onmessage] below. *)
Definition connect (st : HookState) : HookState :=
  if bool_decide (wsRef st ≫= readyState st = Some OPEN) then st
  else
    let '(ws, st) := newWebSocket st in
    set_wsRef (Some ws) st.

(** [ws.onopen] (lines 76-80). *)
Definition ws_onopen (st : HookState) : HookState :=
  set_reconnectAttemptsRef 0 (setConnected true st).

(** [ws.onclose] (lines 82-91). *)
Definition ws_onclose (st : HookState) : HookState :=
  let st := set_wsRef None (setConnected false st) in
  let delay := backoffDelay (reconnectAttemptsRef st) in
  let st := set_reconnectAttemptsRef (S (reconnectAttemptsRef st)) st in
  let '(id, st) := setTimeout delay st in
  set_reconnectTimeoutRef (Some id) st.

(** [ws.onmessage] (lines 97-104): [None] is data that [JSON.parse]
    rejects. *)
Definition ws_onmessage (data : option WebSocketMessage) (st : HookState) : HookState :=
  match data with
  | Some message => handleMessage message st
  | None => st
  end.

(** [disconnect] (lines 199-206); the cleanup of the effect (lines
    189-196) has the same body. *)
Definition disconnect (st : HookState) : HookState :=
  let st :=
    match reconnectTimeoutRef st with
    | Some id => clearTimeout id st
    | None => st
    end in
  match wsRef st with
  | Some ws => ws_close ws st
  | None => st
  end.

(** [reconnect: connect] (line 221). *)
Definition reconnect (st : HookState) : HookState := connect st.

(** What happens to the hook: calls of the component that uses it, and
    the events the host delivers. *)
Inductive Event :=
| Mount                                   (* the effect runs: [connect()] *)
| Unmount                                 (* the cleanup of the effect *)
| CallReconnect
| CallDisconnect
| Opened (ws : nat)                       (* [open] at socket [ws] *)
| Closed (ws : nat)                       (* [close] at socket [ws] *)
| Received (ws : nat) (data : option WebSocketMessage)
| TimerFired (id : nat)
| Responded (r : FetchResult).

(** One event; [None] when the host cannot deliver it in this state: a
    socket opens only while connecting, closes once, receives only while
    open; a timer fires only while pending; a response needs a request. *)
Definition step (st : HookState) (ev : Event) : option HookState :=
  match ev with
  | Mount => Some (connect st)
  | Unmount => Some (disconnect st)
  | CallReconnect => Some (reconnect st)
  | CallDisconnect => Some (disconnect st)
  | Opened ws =>
      match readyState st ws with
      | Some CONNECTING => Some (ws_onopen (set_sockets (<[ws := OPEN]> (sockets st)) st))
      | _ => None
      end
  | Closed ws =>
      match readyState st ws with
      | Some CLOSED | None => None
      | Some _ => Some (ws_onclose (set_sockets (<[ws := CLOSED]> (sockets st)) st))
      end
  | Received ws data =>
      match readyState st ws with
      | Some OPEN => Some (ws_onmessage data st)
      | _ => None
      end
  | TimerFired id =>
      match timers st !! id with
      | Some tm =>
          if pending tm then Some (connect (clearTimeout id st)) else None
      | None => None
      end
  | Responded r =>
      match fetches st with
      | S n => Some (historicalResponse r (set_fetches n st))
      | O => None
      end
  end.

Fixpoint run (st : HookState) (evs : list Event) : option HookState :=
  match evs with
  | [] => Some st
  | ev :: evs' =>
      match step st ev with
      | Some st' => run st' evs'
      | None => None
      end
  end.

(** The sockets with a connection attempt in flight or established. *)
Definition liveSockets (st : HookState) : list nat :=
  List.filter (fun ws => bool_decide (readyState st ws = Some CONNECTING)
                         || bool_decide (readyState st ws = Some OPEN))
              (seq 0 (length (sockets st))).

Definition pendingTimers (st : HookState) : list nat :=
  List.filter (fun id => match timers st !! id with
                         | Some tm => pending tm
                         | None => false
                         end)
              (seq 0 (length (timers st))).

(** [sendMessage] (lines 208-214): whether the message was handed to the
    socket of [wsRef]; it is, exactly when that socket is open. *)
Definition sendMessage (st : HookState) : bool :=
  bool_decide (wsRef st ≫= readyState st = Some OPEN).

(** The messages of a list, handled one after the other. *)
Definition handleAll (messages : list WebSocketMessage) (st : HookState) : HookState :=
  fold_left (fun st message => handleMessage message st) messages st.

(** What the updater of [route_point] has added to [acc] once the points
    [rest] arrived after the point [prev]: the additions of line 161 in
    the order of arrival. *)
Fixpoint distanceFrom (prev : RoutePoint num) (rest : list (RoutePoint num))
    (acc : num) : num :=
  match rest with
  | [] => acc
  | point :: rest' =>
      let dx := x point - x prev in
      let dz := z point - z prev in
      distanceFrom point rest' (acc + Math_sqrt (dx * dx + dz * dz))
  end.

(** *** Measures of a trace *)

Definition isResponded (ev : Event) : bool :=
  match ev with Responded _ => true | _ => false end.

(** An [init] message arrives. *)
Definition isInitReceived (ev : Event) : bool :=
  match ev with Received _ (Some (init _ _)) => true | _ => false end.

Definition isOpened (ev : Event) : bool :=
  match ev with Opened _ => true | _ => false end.

Definition isClosed (ev : Event) : bool :=
  match ev with Closed _ => true | _ => false end.

(** The number of [close] events of a trace. *)
Definition closes (evs : list Event) : nat := length (List.filter isClosed evs).

(** The delays of the timers set between two states, in the order they
    were set. *)
Definition scheduledDelays (st st' : HookState) : list Z :=
  drop (length (timers st)) (map delay (timers st')).

End Hook.
Arguments HookState : clear implicits.
Arguments WebSocketMessage : clear implicits.
Arguments Event : clear implicits.
Arguments FetchResult : clear implicits.
End UseWebSocket.

(** ** [DimensionSelector.tsx] and the page

    The two helpers at the end of the dimension selector, and
    [handleSessionSelect] of the page component that mounts the hook and
    the canvas. *)

Module Page.

(** [dimensionToShort] (lines 115-124 of the selector). *)
Definition dimensionToShort (fullId : string) : string :=
  if String.eqb fullId "minecraft:the_nether" then "the_nether"
  else if String.eqb fullId "minecraft:the_end" then "the_end"
  else "overworld".

(** [dimensionToFull] (lines 127-136 of the selector). *)
Definition dimensionToFull (short : string) : string :=
  if String.eqb short "the_nether" then "minecraft:the_nether"
  else if String.eqb short "the_end" then "minecraft:the_end"
  else "minecraft:overworld".

(** The state [handleSessionSelect] writes. *)
Record PageState := {
  selectedSessionId : option string;
  currentDimension : string;
}.

(** [handleSessionSelect] (lines 75-90 of the page): the new state, and
    the point [centerOnPosition] of the canvas is called with, if it is
    called. *)
Definition handleSessionSelect {num : Type}
    (sessions : gmap string (PlayerSession num)) (sessionId : option string)
    (st : PageState) : PageState * option (num * num) :=
  let selected :=
    {| selectedSessionId := sessionId; currentDimension := currentDimension st |} in
  match sessionId with
  | None => (selected, None)
  | Some id =>
      if String.eqb id "" then (selected, None)
      else
        match sessions !! id with
        | Some session =>
            match last (path session) with
            | Some lastPoint =>
                let playerDim := dimensionToShort (dim lastPoint) in
                ({| selectedSessionId := sessionId;
                    currentDimension :=
                      if negb (String.eqb playerDim (currentDimension st))
                      then playerDim else currentDimension st |},
                 Some (x lastPoint, z lastPoint))
            | None => (selected, None)
            end
        | None => (selected, None)
        end
  end.

End Page.

(** ** [lib/auth.ts] *)

Module Auth.

(** What the two functions read of a request: the [token] parameter of
    the query and the [Authorization] header, each absent or a string. *)
Record Request := {
  queryToken : option string;
  authHeader : option string;
}.

(** [s.substring(n)]. *)
Fixpoint substring_from (n : nat) (s : string) : string :=
  match n, s with
  | O, _ => s
  | S n', String _ s' => substring_from n' s'
  | S _, EmptyString => EmptyString
  end.

(** [verifyAuth] (lines 10-31). *)
Definition verifyAuth (request : Request) : bool :=
  let viaHeader :=
    match authHeader request with
    | None => false
    | Some header =>
        if String.eqb header "" then false
        else if String.prefix "Bearer " header then
          let token := substring_from 7 header in
          (0 <? String.length token)%nat
        else (0 <? String.length header)%nat
    end in
  match queryToken request with
  | Some q => if (0 <? String.length q)%nat then true else viaHeader
  | None => viaHeader
  end.

(** [getTokenFromRequest] (lines 35-48). *)
Definition getTokenFromRequest (request : Request) : option string :=
  let viaHeader :=
    match authHeader request with
    | Some header =>
        if String.prefix "Bearer " header then Some (substring_from 7 header)
        else Some header
    | None => None
    end in
  match queryToken request with
  | Some q => if String.eqb q "" then viaHeader else Some q
  | None => viaHeader
  end.

End Auth.

(** ** [lib/storage.ts] *)

Module Storage.
Section Players.
Context {num : Type} `{JsNumber num}.

Local Abbreviation sessionLastSeenAt := (@lastSeenAt num).

(** [Player] of [src/types]; [sessionCount] counts in the natural
    numbers. *)
Record Player := {
  uuid : string;
  name : string;
  online : bool;
  lastSeenAt : num;
  currentSessionId : option string;
  sessionCount : nat;
}.

(** One round of the loop of [getPlayers] (lines 86-108). *)
Definition addSession (playerMap : gmap string Player) (session : PlayerSession num)
    : gmap string Player :=
  match playerMap !! playerUuid session with
  | None =>
      <[playerUuid session :=
          {| uuid := playerUuid session;
             name := playerName session;
             online := active session;
             lastSeenAt := sessionLastSeenAt session;
             currentSessionId := if active session then Some (_id session) else None;
             sessionCount := 1 |}]> playerMap
  | Some existing =>
      let newer := (sessionLastSeenAt session >? lastSeenAt existing)%js in
      <[playerUuid session :=
          {| uuid := uuid existing;
             name := if newer then playerName session else name existing;
             online := if active session then true else online existing;
             lastSeenAt :=
               if newer then sessionLastSeenAt session else lastSeenAt existing;
             currentSessionId :=
               if active session then Some (_id session)
               else currentSessionId existing;
             sessionCount := S (sessionCount existing) |}]> playerMap
  end.

(** The [playerMap] of [getPlayers] after its loop over the sessions of
    the cache (the function returns the values of this map, sorted). *)
Definition playerMapOf (sessions : list (PlayerSession num)) : gmap string Player :=
  fold_left addSession sessions ∅.

End Players.
Arguments Player : clear implicits.
End Storage.

(** ** Scenarios

    The concrete sessions, states and traces the properties below are
    evaluated at. *)

Section Scenarios.
Import MapCanvas UseWebSocket.
Local Open Scope float_scope.

(** The sessions of the distance example: a session that has just
    started, and points at the given planar position. *)
Definition emptySession : PlayerSession float :=
  {| _id := "s1"; playerUuid := "u1"; playerName := "Steve";
     startedAt := 1000%float; endedAt := None; active := true;
     lastSeenAt := 1000%float;
     stats := {| samples := 0%float; distanceXZ := 0%float |}; path := [] |}.

Definition pointAt (px pz tm : float) : RoutePoint float :=
  {| t := tm; x := px; y := 64%float; z := pz; dim := "minecraft:overworld" |}.

(** The state after the session started and the given points arrived as
    [route_point] messages, in order. *)
Definition ingest (points : list (RoutePoint float)) : HookState float :=
  fold_left (fun st p => handleMessage (route_point "s1" p None) st) points
    (handleMessage (session_start emptySession) initialState).

Definition distanceOf (st : HookState float) : option float :=
  (fun s => distanceXZ (stats s)) <$> sessions st !! "s1".

(** The state after [Mount] and the [open] of the first socket. *)
Definition connectedState : HookState float :=
  {| wsRef := Some 0%nat; connected := true; sessions := ∅; worldTime := None;
     reconnectTimeoutRef := None; reconnectAttemptsRef := 0;
     historicalLoadedRef := false;
     sockets := [OPEN]; timers := []; fetches := 0 |}.

(** The connection drops and the next three attempts fail. *)
Definition droppedThenFailing : list (Event float) :=
  [Closed 0; TimerFired 0; Closed 1; TimerFired 1; Closed 2; TimerFired 2;
   Closed 3].

(** The state after [Mount] and the failure of the first attempt: the
    first retry is scheduled. *)
Definition retryPending : HookState float :=
  {| wsRef := None; connected := false; sessions := ∅; worldTime := None;
     reconnectTimeoutRef := Some 0%nat; reconnectAttemptsRef := 1;
     historicalLoadedRef := false;
     sockets := [CLOSED]; timers := [{| delay := 1000; pending := true |}];
     fetches := 0 |}.

(** A selected, active session whose path is the given points of the
    overworld. *)
Definition walk (points : list (float * float)) : PlayerSession float :=
  {| _id := "s1"; playerUuid := "u1"; playerName := "Steve";
     startedAt := 1000; endedAt := None; active := true; lastSeenAt := 1000;
     stats := {| samples := 0; distanceXZ := 0 |};
     path := map (fun p => {| t := 1000; x := fst p; y := 64; z := snd p;
                              dim := "minecraft:overworld" |}) points |}.

(** The straight line from (0,0) to (120,0), by its end points and with
    its middle point as well. *)
Definition sparseLine : PlayerSession float := walk [(0, 0); (120, 0)].

Definition denseLine : PlayerSession float := walk [(0, 0); (60, 0); (120, 0)].

(** One pixel per block on a canvas of 800 by 600 pixels. *)
Definition unitView (x z : float) : float * float :=
  worldToScreen {| offsetX := 0; offsetY := 0; scale := 1 |}
                {| width := 800; height := 600 |} x z.

Definition arrowsOn : MapDisplaySettings :=
  {| showInactivePaths := true; showArrows := true |}.

Definition chevronsOf (session : PlayerSession float) : list (float * float) :=
  drawRoute_chevrons session true unitView "minecraft:overworld" arrowsOn.

Definition screenLengthOf (session : PlayerSession float) : float :=
  match path session with
  | p0 :: rest => screenLengthFrom unitView p0 rest
  | [] => 0
  end.

(** A session of the history: ended, with one point far from the origin. *)
Definition farSession : PlayerSession float :=
  {| _id := "h1"; playerUuid := "u1"; playerName := "Steve";
     startedAt := 1000; endedAt := Some 2000; active := false; lastSeenAt := 2000;
     stats := {| samples := 1; distanceXZ := 0 |};
     path := [{| t := 1500; x := 5000; y := 64; z := 5000;
                 dim := "minecraft:overworld" |}] |}.

(** The tile of chunk (0,0) loads, then the historical sessions arrive. *)
Definition tileThenHistory : list (Observation float) :=
  [TileLoaded 0 0 16 16; SessionsChanged [farSession] "overworld"].

(** The wheel events whose zoom is analysed in binary64: the client
    coordinates of the cursor, the edges of the canvas and its sizes are
    within [2 ^ 20] pixels, the offsets of the prior transform within
    [2 ^ 32], and its scale within the scale range. *)
Definition wheelDomain (prev : Transform float) (dimensions : Dimensions float)
    (e : WheelEvent float) (rect : DOMRect float) : bool :=
  (abs (clientX e) <=? 1048576) && (abs (clientY e) <=? 1048576)
  && (abs (left rect) <=? 1048576) && (abs (top rect) <=? 1048576)
  && (abs (width dimensions) <=? 1048576) && (abs (height dimensions) <=? 1048576)
  && (abs (offsetX prev) <=? 4294967296) && (abs (offsetY prev) <=? 4294967296)
  && (0.01 <=? scale prev) && (scale prev <=? 50).

End Scenarios.

Section RealMeasures.
Import MapCanvas.
Local Open Scope R_scope.

(** The factor of one wheel event: [0.9] when [deltaY > 0], else [1.1]. *)
Definition wheelFactor (e : WheelEvent R) : R :=
  if Rlt_dec 0 (deltaY e) then 9 / 10 else 11 / 10.

Definition isTileLoaded (o : Observation R) : bool :=
  match o with TileLoaded _ _ _ _ => true | _ => false end.

(** An engine that accepts 65535 arguments in a call. *)
Definition engine65535 : JsEngine := {| maxArguments := 65535 |}.

(** A point of the overworld, and an ended session that holds only it. *)
Definition historicalPoint : RoutePoint R :=
  {| t := 1500; x := 5000; y := 64; z := 5000; dim := "minecraft:overworld" |}.

Definition historicalSession : PlayerSession R :=
  {| _id := "h1"; playerUuid := "u1"; playerName := "Steve";
     startedAt := 1000; endedAt := Some 2000; active := false; lastSeenAt := 2000;
     stats := {| samples := 1; distanceXZ := 0 |};
     path := [historicalPoint] |}.

End RealMeasures.

(** * Properties *)

(** ** binary64 arithmetic *)

Section Binary64.
Local Open Scope float_scope.

(** The decimal literals of [handleWheel] are the quotients [js_dec]
    uses for them. *)
Lemma float_decimal_literals :
  js_dec 9 10 = 0.9 /\ js_dec 11 10 = 1.1 /\ js_dec 1 100 = 0.01.
Proof. repeat split; vm_compute; reflexivity. Qed.

(** A finite number is a zero or has a mantissa and an exponent. *)
Lemma finite_cases (p : float) :
  is_finite p = true ->
  (exists s, Prim2SF p = S754_zero s) \/
  (exists s m e, Prim2SF p = S754_finite s m e).
Proof.
  unfold is_finite. intros Hf.
  apply negb_true_iff, orb_false_iff in Hf. destruct Hf as [Hn Hi].
  unfold Prim2SF. rewrite Hn, Hi.
  destruct (is_zero p); [left; eauto|].
  destruct (Z.frexp p) as [r ex].
  destruct (shr_fexp _ _ _ _ _) as [sh e'].
  destruct (shr_m sh); [left|right|left]; eauto.
Qed.

(** Rounding does not look at the sign. *)
Lemma binary_round_aux_opp s m e l :
  SFopp (binary_round_aux prec emax s m e l)
  = binary_round_aux prec emax (negb s) m e l.
Proof.
  unfold binary_round_aux.
  destruct (shr_fexp prec emax m e l) as [mrs' e'].
  destruct (shr_fexp prec emax _ e' loc_Exact) as [mrs'' e''].
  destruct (shr_m mrs''); try reflexivity.
  destruct (Z.leb _ _); reflexivity.
Qed.

Lemma SFmul_opp_l a b : SF64mul (SFopp a) b = SFopp (SF64mul a b).
Proof.
  unfold SF64mul.
  destruct a as [sa|sa| |sa ma ea], b as [sb|sb| |sb mb eb]; cbn [SFmul SFopp];
    rewrite ?binary_round_aux_opp; try reflexivity;
    destruct sa, sb; reflexivity.
Qed.

Lemma float_mul_opp_l (a b : float) : - a * b = - (a * b).
Proof.
  apply Prim2SF_inj. rewrite opp_spec, !mul_spec, opp_spec. apply SFmul_opp_l.
Qed.

Lemma shl_align_same m e : shl_align m e e = (m, e).
Proof. unfold shl_align. rewrite Z.sub_diag. reflexivity. Qed.

Lemma float_add_opp_finite (p : float) : is_finite p = true -> p + - p = 0.
Proof.
  intros Hf. apply Prim2SF_inj. rewrite add_spec, opp_spec.
  destruct (finite_cases p Hf) as [[s ->]|(s & m & e & ->)].
  - destruct s; reflexivity.
  - cbn [SFopp]. unfold SF64add, SFadd. rewrite Z.min_id, shl_align_same. cbn [fst].
    replace (cond_Zopp s (Z.pos m) + cond_Zopp (negb s) (Z.pos m))%Z with 0%Z
      by (destruct s; unfold cond_Zopp, negb; lia).
    reflexivity.
Qed.

Lemma float_sub_diag_finite (p : float) : is_finite p = true -> p - p = 0.
Proof.
  intros Hf. apply Prim2SF_inj. rewrite sub_spec.
  destruct (finite_cases p Hf) as [[s ->]|(s & m & e & ->)].
  - destruct s; reflexivity.
  - unfold SF64sub, SFsub. rewrite Z.min_id, shl_align_same. cbn [fst].
    rewrite Z.sub_diag. reflexivity.
Qed.

Lemma float_add_zero_l (q : float) : q <> -0 -> 0 + q = q.
Proof.
  intros Hq. apply Prim2SF_inj. rewrite add_spec.
  change (Prim2SF 0) with (S754_zero false).
  destruct (Prim2SF q) as [s|s| |s m e] eqn:E; try reflexivity.
  destruct s; [|reflexivity].
  exfalso. apply Hq. apply Prim2SF_inj. rewrite E. reflexivity.
Qed.

(** The planar distance of a point to itself, as [appendPoint] computes
    it, is [+0]. *)
Lemma float_distance_to_self (a b : float) :
  is_finite a = true -> is_finite b = true ->
  PrimFloat.sqrt ((a - a) * (a - a) + (b - b) * (b - b)) = 0.
Proof.
  intros Ha Hb. rewrite (float_sub_diag_finite a Ha), (float_sub_diag_finite b Hb).
  reflexivity.
Qed.
End Binary64.

(** ** The transform *)

Section Centering.
Import MapCanvas.
Local Open Scope float_scope.

(** C10.  In binary64, after [centerOnPosition x z] the scale is
    [Math.max] of the previous scale and 4, and [worldToScreen x z] under
    the new transform is exactly the centre of the viewport
    [(width / 2, height / 2)], for every point whose products with the
    new scale are finite numbers, on a viewport whose half sizes are not
    the negative zero. *)
Theorem centerOnPosition_centers (transform : Transform float)
    (dimensions : Dimensions float) (x z : float) :
  let centered := centerOnPosition transform x z in
  is_finite (x * scale centered) = true ->
  is_finite (z * scale centered) = true ->
  width dimensions / 2 <> -0 ->
  height dimensions / 2 <> -0 ->
  scale centered = float_max (scale transform) 4
  /\ worldToScreen centered dimensions x z
     = (width dimensions / 2, height dimensions / 2).
Proof.
  intros centered Hx Hz Hw Hh. split; [reflexivity|].
  unfold worldToScreen. subst centered. cbn in *.
  change (float_of_Z 4) with 4 in *. change (float_of_Z 2) with 2.
  rewrite !float_mul_opp_l, !float_add_opp_finite by assumption.
  rewrite !float_add_zero_l by assumption. reflexivity.
Qed.

Lemma centerOnPosition_centers_witness :
  let transform := {| offsetX := 7; offsetY := -3; scale := 2 |} in
  let dimensions := {| width := 800; height := 600 |} in
  scale (centerOnPosition transform 123.5 (-4567.25)) = 4
  /\ worldToScreen (centerOnPosition transform 123.5 (-4567.25)) dimensions
       123.5 (-4567.25) = (400, 300).
Proof.
  intros transform dimensions.
  apply (centerOnPosition_centers transform dimensions 123.5 (-4567.25));
    vm_compute; congruence.
Defined.

(** The same over the real numbers, where nothing is excluded. *)
Lemma centerOnPosition_centers_real (transform : Transform R)
    (dimensions : Dimensions R) (x z : R) :
  let centered := centerOnPosition transform x z in
  scale centered = Rmax (scale transform) 4
  /\ worldToScreen centered dimensions x z
     = ((width dimensions / 2)%R, (height dimensions / 2)%R).
Proof.
  split; [reflexivity|]. unfold worldToScreen; cbn. f_equal; ring.
Qed.
End Centering.

Section WheelZoom.
Import MapCanvas.
Local Open Scope R_scope.

Lemma clamped_scale_range (s : R) : 1 / 100 <= Rmin (Rmax s (1 / 100)) 50 <= 50.
Proof.
  split.
  - apply Rmin_glb; [apply Rmax_r|lra].
  - apply Rmin_r.
Qed.

(** Over the real numbers, for every wheel event, cursor position and
    prior transform of positive scale: the new scale is the scale of the
    rendered transform times the factor of the event ([0.9] or [1.1]),
    clamped to [0.01, 50], and the world coordinates under the cursor
    after the update are those before it. *)
Lemma wheel_zoom_exact (rendered prev : Transform R)
    (dimensions : Dimensions R) (e : WheelEvent R) (rect : DOMRect R) :
  0 < scale prev ->
  let next := handleWheel rendered dimensions e (Some rect) prev in
  let cursor := cursorOnCanvas e rect in
  let before := screenToWorld prev dimensions (fst cursor) (snd cursor) in
  let after := screenToWorld next dimensions (fst cursor) (snd cursor) in
  scale next = Rmin (Rmax (scale rendered * wheelFactor e) (1 / 100)) 50
  /\ 1 / 100 <= scale next <= 50
  /\ after = before.
Proof.
  intros Hprev next cursor before after.
  assert (Hscale : scale next
                   = Rmin (Rmax (scale rendered * wheelFactor e) (1 / 100)) 50).
  { unfold next, handleWheel, wheelFactor, js_dec; cbn. unfold Rltb.
    destruct (Rlt_dec 0 (deltaY e)); reflexivity. }
  assert (Hrange : 1 / 100 <= scale next <= 50)
    by (rewrite Hscale; apply clamped_scale_range).
  assert (Hnext : 0 < scale next) by lra.
  split; [exact Hscale|]. split; [exact Hrange|].
  unfold after, before, screenToWorld, cursor, cursorOnCanvas; cbn [fst snd].
  assert (HoX : offsetX next
                = clientX e - left rect - width dimensions / 2
                  - (clientX e - left rect - width dimensions / 2 - offsetX prev)
                    * (scale next / scale prev)) by reflexivity.
  assert (HoY : offsetY next
                = clientY e - top rect - height dimensions / 2
                  - (clientY e - top rect - height dimensions / 2 - offsetY prev)
                    * (scale next / scale prev)) by reflexivity.
  cbn [js_sub js_div js_lit real_number]. rewrite HoX, HoY.
  generalize dependent (scale next). intros s' _ _ Hs' _ _.
  f_equal; field; lra.
Qed.

(** In binary64 the two world points differ by rounding only; at this
    event, by less than [0.01] as well. *)
Lemma wheel_zoom_binary64_example :
  let rendered := {| offsetX := 30; offsetY := -12; scale := 2 |}%float in
  let dimensions := {| width := 800; height := 600 |}%float in
  let e := {| deltaY := -100; clientX := 510.5; clientY := 140.25 |}%float in
  let rect := {| left := 10; top := 40 |}%float in
  let next := handleWheel rendered dimensions e (Some rect) rendered in
  let cursor := cursorOnCanvas e rect in
  let before := screenToWorld rendered dimensions (fst cursor) (snd cursor) in
  let after := screenToWorld next dimensions (fst cursor) (snd cursor) in
  scale next = (2 * 1.1)%float
  /\ (abs (fst after - fst before) <? 0.01)%float = true
  /\ (abs (snd after - snd before) <? 0.01)%float = true.
Proof. repeat split; vm_compute; reflexivity. Qed.
End WheelZoom.

Section WheelZoomBinary64.
Import MapCanvas.
Local Open Scope float_scope.

Lemma SFcompare_antisym (a b : spec_float) :
  SFcompare b a = option_map CompOpp (SFcompare a b).
Proof.
  destruct a as [sa|sa| |sa ma ea], b as [sb|sb| |sb mb eb]; cbn;
    try reflexivity; try (destruct sa; reflexivity); try (destruct sb; reflexivity);
    try (destruct sa, sb; reflexivity).
  rewrite (Z.compare_antisym ea eb).
  change (PosDef.Pos.compare_cont Eq mb ma) with (Pos.compare mb ma).
  change (PosDef.Pos.compare_cont Eq ma mb) with (Pos.compare ma mb).
  rewrite (Pos.compare_antisym ma mb).
  destruct sa, sb; try reflexivity;
    destruct (ea ?= eb)%Z; cbn; try reflexivity; destruct (ma ?= mb)%positive; reflexivity.
Qed.

Lemma float_compare_some (a b : float) :
  is_nan a = false -> is_nan b = false ->
  exists c, SFcompare (Prim2SF a) (Prim2SF b) = Some c.
Proof.
  unfold is_nan. rewrite !FloatAxioms.eqb_spec. unfold SFeqb. intros Ha Hb.
  destruct (Prim2SF a) as [sa|sa| |sa ma ea]; try discriminate;
    destruct (Prim2SF b) as [sb|sb| |sb mb eb]; try discriminate; cbn; eauto.
Qed.

Lemma float_ltb_leb (a b : float) : (a <? b) = true -> (a <=? b) = true.
Proof.
  rewrite ltb_spec, leb_spec. unfold SFltb, SFleb.
  destruct (SFcompare _ _) as [[]|]; (reflexivity || discriminate).
Qed.

Lemma float_not_ltb_leb (a b : float) :
  is_nan a = false -> is_nan b = false -> (a <? b) = false -> (b <=? a) = true.
Proof.
  intros Ha Hb. rewrite ltb_spec, leb_spec. unfold SFltb, SFleb.
  rewrite (SFcompare_antisym (Prim2SF a) (Prim2SF b)).
  destruct (float_compare_some a b Ha Hb) as [c ->].
  destruct c; cbn; (reflexivity || discriminate).
Qed.

Lemma float_leb_refl (a : float) : is_nan a = false -> (a <=? a) = true.
Proof.
  intros Ha. rewrite leb_spec. unfold SFleb.
  pose proof (SFcompare_antisym (Prim2SF a) (Prim2SF a)) as Hanti.
  destruct (float_compare_some a a Ha Ha) as [c Hc]. rewrite Hc in *.
  destruct c; (reflexivity || discriminate).
Qed.

(** [Math.max] and [Math.min] of two numbers are one of them, on the
    right side of both. *)
Lemma float_max_bounds (a b : float) :
  is_nan a = false -> is_nan b = false ->
  (float_max a b = a \/ float_max a b = b)
  /\ (a <=? float_max a b) = true /\ (b <=? float_max a b) = true.
Proof.
  intros Ha Hb. unfold float_max. rewrite Ha, Hb. cbn [orb].
  destruct (a <? b) eqn:Hab.
  { split; [right; reflexivity|].
    split; [apply float_ltb_leb, Hab|apply float_leb_refl, Hb]. }
  destruct (b <? a) eqn:Hba.
  { split; [left; reflexivity|].
    split; [apply float_leb_refl, Ha|apply float_ltb_leb, Hba]. }
  pose proof (float_not_ltb_leb a b Ha Hb Hab).
  pose proof (float_not_ltb_leb b a Hb Ha Hba).
  destruct (get_sign a).
  - split; [right; reflexivity|]. split; [assumption|apply float_leb_refl, Hb].
  - split; [left; reflexivity|]. split; [apply float_leb_refl, Ha|assumption].
Qed.

Lemma float_min_bounds (a b : float) :
  is_nan a = false -> is_nan b = false ->
  (float_min a b = a \/ float_min a b = b)
  /\ (float_min a b <=? a) = true /\ (float_min a b <=? b) = true.
Proof.
  intros Ha Hb. unfold float_min. rewrite Ha, Hb. cbn [orb].
  destruct (a <? b) eqn:Hab.
  { split; [left; reflexivity|].
    split; [apply float_leb_refl, Ha|apply float_ltb_leb, Hab]. }
  destruct (b <? a) eqn:Hba.
  { split; [right; reflexivity|].
    split; [apply float_ltb_leb, Hba|apply float_leb_refl, Hb]. }
  pose proof (float_not_ltb_leb a b Ha Hb Hab).
  pose proof (float_not_ltb_leb b a Hb Ha Hba).
  destruct (get_sign a).
  - split; [left; reflexivity|]. split; [apply float_leb_refl, Ha|assumption].
  - split; [right; reflexivity|]. split; [assumption|apply float_leb_refl, Hb].
Qed.

(** The clamp of [handleWheel] in binary64: a number is brought into
    [0.01, 50], and NaN stays NaN. *)
Lemma float_clamped_scale (product : float) :
  let newScale := float_min (float_max product 0.01) 50 in
  if is_nan product then is_nan newScale = true
  else (0.01 <=? newScale) = true /\ (newScale <=? 50) = true.
Proof.
  intros newScale. subst newScale. destruct (is_nan product) eqn:Hnan.
  - unfold float_max. rewrite Hnan. reflexivity.
  - destruct (float_max_bounds product 0.01 Hnan eq_refl) as (Hmax & _ & Hlow).
    assert (Hnum : is_nan (float_max product 0.01) = false)
      by (destruct Hmax as [-> | ->]; [exact Hnan|reflexivity]).
    destruct (float_min_bounds (float_max product 0.01) 50 Hnum eq_refl)
      as (Hmin & _ & Hhigh).
    split; [|exact Hhigh].
    destruct Hmin as [-> | ->]; [exact Hlow|reflexivity].
Qed.

(** C7 fails as stated in binary64.  At scale 0.01 with the offset 1e12, a
    wheel event at the centre of the canvas moves the world coordinate
    under the cursor from -100000000000000 to -99999999999999.984: by
    0.015625, which is not less than 0.01. *)
Lemma wheel_zoom_cursor_drifts :
  let prev := {| offsetX := 1e12; offsetY := 0; scale := 0.01 |} in
  let dimensions := {| width := 800; height := 600 |} in
  let e := {| deltaY := -100; clientX := 400; clientY := 300 |} in
  let rect := {| left := 0; top := 0 |} in
  let next := handleWheel prev dimensions e (Some rect) prev in
  let cursor := cursorOnCanvas e rect in
  let before := screenToWorld prev dimensions (fst cursor) (snd cursor) in
  let after := screenToWorld next dimensions (fst cursor) (snd cursor) in
  fst before = -100000000000000
  /\ fst after = -99999999999999.984
  /\ abs (fst after - fst before) = 0.015625
  /\ (abs (fst after - fst before) <? 0.01) = false.
Proof. repeat split; vm_compute; reflexivity. Qed.
End WheelZoomBinary64.

(** ** Rounding in binary64

    The error of the subtractions, multiplications and divisions of
    binary64, from the definitions of [SpecFloat] that the primitive
    floats are specified by. *)

Section Powers.
Local Open Scope R_scope.

Lemma pow2_pos (e : Z) : 0 < pow2 e.
Proof. apply powerRZ_lt. lra. Qed.

Lemma pow2_add (a b : Z) : pow2 (a + b) = pow2 a * pow2 b.
Proof. apply powerRZ_add. lra. Qed.

Lemma pow2_0 : pow2 0 = 1.
Proof. reflexivity. Qed.

Lemma pow2_1 : pow2 1 = 2.
Proof. unfold pow2, powerRZ. simpl. lra. Qed.

Lemma pow2_opp (a : Z) : pow2 (- a) = / pow2 a.
Proof. unfold pow2. apply powerRZ_neg'. Qed.

Lemma pow2_succ (a : Z) : pow2 (a + 1) = 2 * pow2 a.
Proof. rewrite pow2_add, pow2_1. ring. Qed.

Lemma pow2_IZR (n : Z) : (0 <= n)%Z -> pow2 n = IZR (2 ^ n).
Proof.
  intros Hn. pattern n. apply natlike_ind; [reflexivity| |exact Hn].
  intros k Hk IH. unfold Z.succ. rewrite pow2_succ, IH, Z.pow_add_r by lia.
  rewrite mult_IZR. change (2 ^ 1)%Z with 2%Z. ring.
Qed.

Lemma pow2_ge_1 (n : Z) : (0 <= n)%Z -> 1 <= pow2 n.
Proof.
  intros Hn. rewrite pow2_IZR by exact Hn. apply IZR_le.
  assert (0 < 2 ^ n)%Z by (apply Z.pow_pos_nonneg; lia). lia.
Qed.

Lemma pow2_le (a b : Z) : (a <= b)%Z -> pow2 a <= pow2 b.
Proof.
  intros Hab. replace b with (a + (b - a))%Z by lia. rewrite pow2_add.
  pose proof (pow2_ge_1 (b - a) ltac:(lia)). pose proof (pow2_pos a). nra.
Qed.

Lemma pow2_lt (a b : Z) : (a < b)%Z -> pow2 a < pow2 b.
Proof.
  intros Hab. replace b with (a + 1 + (b - a - 1))%Z by lia.
  rewrite pow2_add, pow2_succ.
  pose proof (pow2_ge_1 (b - a - 1) ltac:(lia)). pose proof (pow2_pos a). nra.
Qed.

Lemma digits2_pos_spec (p : positive) :
  (2 ^ (Zpos (digits2_pos p) - 1) <= Zpos p < 2 ^ Zpos (digits2_pos p))%Z.
Proof.
  induction p as [p IH|p IH|]; cbn [digits2_pos].
  - rewrite Pos2Z.inj_succ. replace (Z.succ (Zpos (digits2_pos p)) - 1)%Z
      with (Zpos (digits2_pos p) - 1 + 1)%Z by lia.
    rewrite Z.pow_add_r, Z.pow_succ_r by lia. lia.
  - rewrite Pos2Z.inj_succ. replace (Z.succ (Zpos (digits2_pos p)) - 1)%Z
      with (Zpos (digits2_pos p) - 1 + 1)%Z by lia.
    rewrite Z.pow_add_r, Z.pow_succ_r by lia. lia.
  - cbn. lia.
Qed.

(** *** Locations *)

Lemma located_range (m : Z) (x : R) (l : location) :
  located m x l -> IZR m <= x < IZR m + 1.
Proof. destruct l as [|[]]; cbn; lra. Qed.

Lemma loc_of_record_of_loc (m : Z) (l : location) :
  loc_of_shr_record (shr_record_of_loc m l) = l /\ shr_m (shr_record_of_loc m l) = m.
Proof. destruct l as [|[]]; split; reflexivity. Qed.

Lemma shr_1_located (mrs : shr_record) (x : R) :
  (0 <= shr_m mrs)%Z ->
  located (shr_m mrs) x (loc_of_shr_record mrs) ->
  (0 <= shr_m (shr_1 mrs))%Z
  /\ located (shr_m (shr_1 mrs)) (x / 2) (loc_of_shr_record (shr_1 mrs)).
Proof.
  destruct mrs as [m r s]. cbn [shr_m]. intros Hm Hloc.
  destruct m as [|p|p]; [| |lia].
  - cbn [shr_1 shr_m]. split; [lia|].
    destruct r, s; unfold located, loc_of_shr_record, orb in *; lra.
  - destruct p as [p|p|]; cbn [shr_1 shr_m]; (split; [lia|]).
    + assert (HxI : IZR (Zpos p~1) = IZR (Zpos p) + IZR (Zpos p) + 1)
        by (rewrite Pos2Z.inj_xI, plus_IZR, mult_IZR; lra).
      destruct r, s; unfold located, loc_of_shr_record, orb in *;
        rewrite HxI in Hloc; lra.
    + assert (HxO : IZR (Zpos p~0) = IZR (Zpos p) + IZR (Zpos p))
        by (rewrite Pos2Z.inj_xO, mult_IZR; lra).
      destruct r, s; unfold located, loc_of_shr_record, orb in *;
        rewrite HxO in Hloc; lra.
    + destruct r, s; unfold located, loc_of_shr_record, orb in *; lra.
Qed.

Lemma iter_shr_1_located (n : positive) (mrs : shr_record) (x : R) :
  (0 <= shr_m mrs)%Z ->
  located (shr_m mrs) x (loc_of_shr_record mrs) ->
  (0 <= shr_m (SpecFloat.iter_pos shr_1 n mrs))%Z
  /\ located (shr_m (SpecFloat.iter_pos shr_1 n mrs)) (x / pow2 (Zpos n))
       (loc_of_shr_record (SpecFloat.iter_pos shr_1 n mrs)).
Proof.
  revert mrs x. induction n as [n IH|n IH|]; intros mrs x Hm Hloc; cbn [SpecFloat.iter_pos].
  - destruct (shr_1_located mrs x Hm Hloc) as [Hm1 Hloc1].
    destruct (IH _ _ Hm1 Hloc1) as [Hm2 Hloc2].
    destruct (IH _ _ Hm2 Hloc2) as [Hm3 Hloc3].
    split; [exact Hm3|].
    replace (x / pow2 (Zpos n~1)) with (x / 2 / pow2 (Zpos n) / pow2 (Zpos n)); [exact Hloc3|].
    rewrite Pos2Z.inj_xI. replace (2 * Zpos n + 1)%Z with (Zpos n + Zpos n + 1)%Z by lia.
    rewrite !pow2_add, pow2_1. pose proof (pow2_pos (Zpos n)). field. lra.
  - destruct (IH _ _ Hm Hloc) as [Hm2 Hloc2].
    destruct (IH _ _ Hm2 Hloc2) as [Hm3 Hloc3].
    split; [exact Hm3|].
    replace (x / pow2 (Zpos n~0)) with (x / pow2 (Zpos n) / pow2 (Zpos n)); [exact Hloc3|].
    rewrite Pos2Z.inj_xO. replace (2 * Zpos n)%Z with (Zpos n + Zpos n)%Z by lia.
    rewrite !pow2_add. pose proof (pow2_pos (Zpos n)). field. lra.
  - rewrite pow2_1. apply shr_1_located; assumption.
Qed.

(** *** Digits *)

Lemma Zdigits2_spec (m : Z) :
  (0 < m)%Z -> (2 ^ (Zdigits2 m - 1) <= m < 2 ^ Zdigits2 m)%Z.
Proof. destruct m as [|p|p]; try lia. intros _. apply digits2_pos_spec. Qed.

Lemma Zdigits2_nonneg (m : Z) : (0 <= Zdigits2 m)%Z.
Proof. destruct m; cbn; lia. Qed.

Lemma Zdigits2_le (m k : Z) :
  (0 <= k)%Z -> (0 <= m < 2 ^ k)%Z -> (Zdigits2 m <= k)%Z.
Proof.
  intros Hk [Hm Hlt]. destruct (Z.eq_dec m 0%Z) as [->|Hne]; [exact Hk|].
  destruct (Zdigits2_spec m ltac:(lia)) as [Hlow _].
  assert (2 ^ (Zdigits2 m - 1) < 2 ^ k)%Z by lia.
  apply Z.pow_lt_mono_r_iff in H; lia.
Qed.

Lemma Zdigits2_pow2 (k : Z) : (0 <= k)%Z -> Zdigits2 (2 ^ k) = (k + 1)%Z.
Proof.
  intros Hk. assert (Hpos : (0 < 2 ^ k)%Z) by (apply Z.pow_pos_nonneg; lia).
  destruct (Zdigits2_spec (2 ^ k) Hpos) as [Hlow Hhigh].
  pose proof (Zdigits2_nonneg (2 ^ k)).
  apply Z.pow_lt_mono_r_iff in Hhigh; [|lia|lia].
  destruct (Z.eq_dec (Zdigits2 (2 ^ k)) 0%Z) as [E|E]; [lia|].
  apply Z.pow_le_mono_r_iff in Hlow; lia.
Qed.

Lemma Rabs_le_between (a b : R) : Rabs a <= b -> - b <= a <= b.
Proof. unfold Rabs. destruct (Rcase_abs a); lra. Qed.
End Powers.

(** *** The rounding of [SpecFloat]

    For every precision and exponent range: [binary_round_aux] returns a
    number within half a unit in the last place of the value it is given,
    provided the value is below the overflow threshold. *)

Section Rounding.
Local Open Scope R_scope.
Context (prec emax : Z) (Hprec : (0 < prec)%Z).

Local Abbreviation emin := (SpecFloat.emin prec emax).
Local Abbreviation fexp := (SpecFloat.fexp prec emax).

Lemma fexp_ge_emin (e : Z) : (emin <= fexp e)%Z.
Proof. unfold SpecFloat.fexp, SpecFloat.emin. lia. Qed.

Lemma shr_fexp_located (mx ex : Z) (lx : location) (x : R) :
  (0 <= mx)%Z -> located mx x lx ->
  let e' := Z.max ex (fexp (Zdigits2 mx + ex)) in
  exists mrs',
    shr_fexp prec emax mx ex lx = (mrs', e')
    /\ (0 <= shr_m mrs')%Z
    /\ located (shr_m mrs') (x * pow2 (ex - e')) (loc_of_shr_record mrs')
    /\ (e' = ex -> shr_m mrs' = mx /\ loc_of_shr_record mrs' = lx).
Proof.
  intros Hm Hloc e'. unfold shr_fexp, shr.
  destruct (loc_of_record_of_loc mx lx) as [Hl Hr].
  destruct (fexp (Zdigits2 mx + ex) - ex)%Z as [|p|p] eqn:Hk.
  - exists (shr_record_of_loc mx lx).
    assert (He : e' = ex) by (unfold e'; lia). rewrite He.
    split; [reflexivity|]. rewrite Hl, Hr. split; [exact Hm|].
    replace (ex - ex)%Z with 0%Z by lia. rewrite pow2_0, Rmult_1_r.
    split; [exact Hloc|]. intros _. split; reflexivity.
  - exists (SpecFloat.iter_pos shr_1 p (shr_record_of_loc mx lx)).
    assert (He : e' = (ex + Zpos p)%Z) by (unfold e'; lia). rewrite He.
    split; [reflexivity|].
    destruct (iter_shr_1_located p (shr_record_of_loc mx lx) x) as [Hm' Hloc'].
    { rewrite Hr. exact Hm. }
    { rewrite Hl, Hr. exact Hloc. }
    split; [exact Hm'|]. split; [|lia].
    replace (ex - (ex + Zpos p))%Z with (- Zpos p)%Z by lia.
    rewrite pow2_opp. exact Hloc'.
  - exists (shr_record_of_loc mx lx).
    assert (He : e' = ex) by (unfold e'; lia). rewrite He.
    split; [reflexivity|]. rewrite Hl, Hr. split; [exact Hm|].
    replace (ex - ex)%Z with 0%Z by lia. rewrite pow2_0, Rmult_1_r.
    split; [exact Hloc|]. intros _. split; reflexivity.
Qed.

Lemma round_nearest_even_located (m : Z) (x : R) (l : location) :
  located m x l ->
  (m <= round_nearest_even m l <= m + 1)%Z
  /\ Rabs (IZR (round_nearest_even m l) - x) <= 1 / 2
  /\ (l = loc_Exact -> round_nearest_even m l = m).
Proof.
  intros Hloc. destruct l as [|[]]; cbn [round_nearest_even located] in *.
  - split; [lia|]. split; [|reflexivity]. rewrite Hloc, Rminus_diag, Rabs_R0. lra.
  - destruct (Z.even m); (split; [lia|]); (split; [|discriminate]);
      rewrite ?plus_IZR; apply Rabs_le; lra.
  - split; [lia|]. split; [|discriminate]. apply Rabs_le; lra.
  - split; [lia|]. split; [|discriminate]. rewrite plus_IZR. apply Rabs_le; lra.
Qed.

(** The second shift of [binary_round_aux]: a mantissa of at most [prec]
    digits stays, and [2 ^ prec] becomes [2 ^ (prec - 1)] one exponent
    up. *)
Lemma shr_fexp_exact (m e : Z) :
  (emin <= e)%Z -> (0 <= m <= 2 ^ prec)%Z ->
  exists mrs'' e'',
    shr_fexp prec emax m e loc_Exact = (mrs'', e'')
    /\ (0 <= shr_m mrs'')%Z
    /\ IZR (shr_m mrs'') * pow2 e'' = IZR m * pow2 e
    /\ (e <= e'' <= e + 1)%Z
    /\ (shr_m mrs'' = 0 -> m = 0)%Z.
Proof using Hprec.
  intros He [Hm0 Hm]. destruct (Z.eq_dec m (2 ^ prec)%Z) as [->|Hne].
  - unfold shr_fexp, shr. rewrite (Zdigits2_pow2 prec) by lia.
    replace (fexp (prec + 1 + e) - e)%Z with 1%Z by (unfold SpecFloat.fexp, SpecFloat.emin in *; lia).
    assert (Hq : exists q, (2 ^ (prec - 1))%Z = Zpos q).
    { assert (0 < 2 ^ (prec - 1))%Z by (apply Z.pow_pos_nonneg; lia).
      destruct (2 ^ (prec - 1))%Z as [|q|q]; try lia. eauto. }
    destruct Hq as [q Hq].
    assert (Hpow : (2 ^ prec)%Z = Zpos q~0).
    { replace prec with (prec - 1 + 1)%Z at 1 by lia.
      rewrite Z.pow_add_r, Hq by lia. rewrite Pos2Z.inj_xO. change (2 ^ 1)%Z with 2%Z. lia. }
    rewrite Hpow. cbn [shr_record_of_loc SpecFloat.iter_pos shr_1].
    eexists _, _. split; [reflexivity|]. cbn [shr_m].
    split; [lia|]. split; [|split; [lia|discriminate]].
    assert (HxO : IZR (Zpos q~0) = IZR (Zpos q) + IZR (Zpos q))
      by (rewrite (Pos2Z.inj_xO q), mult_IZR; lra).
    rewrite pow2_succ, HxO. ring.
  - assert (Hd : (Zdigits2 m <= prec)%Z) by (apply Zdigits2_le; lia).
    unfold shr_fexp, shr.
    assert (Hk : (fexp (Zdigits2 m + e) - e <= 0)%Z) by (unfold SpecFloat.fexp, SpecFloat.emin in *; lia).
    exists (Build_shr_record m false false), e.
    split; [destruct (fexp (Zdigits2 m + e) - e)%Z; (reflexivity || lia)|].
    cbn [shr_m]. split; [exact Hm0|]. split; [reflexivity|]. split; [lia|tauto].
Qed.

Lemma binary_round_aux_correct (sx : bool) (mx ex : Z) (lx : location) (x : R) :
  (0 <= mx)%Z -> located mx x lx ->
  x * pow2 ex < pow2 (emax - prec - 1) ->
  let e' := Z.max ex (fexp (Zdigits2 mx + ex)) in
  let f := binary_round_aux prec emax sx mx ex lx in
  (f = S754_zero sx \/ exists m e, f = S754_finite sx m e)
  /\ Rabs (mag f - x * pow2 ex) <= pow2 e' / 2
  /\ (lx = loc_Exact -> e' = ex -> mag f = x * pow2 ex).
Proof using Hprec.
  intros Hm Hloc Hbound e' f. subst f. unfold binary_round_aux.
  destruct (shr_fexp_located mx ex lx x Hm Hloc) as (mrs' & Heq1 & Hm' & Hloc' & Hsame).
  fold e' in Heq1, Hloc', Hsame. rewrite Heq1. cbv beta iota.
  set (m' := shr_m mrs') in *. set (l' := loc_of_shr_record mrs') in *.
  set (x' := x * pow2 (ex - e')) in *.
  assert (Hv : x' * pow2 e' = x * pow2 ex).
  { unfold x'. rewrite Rmult_assoc, <- pow2_add. f_equal. f_equal. lia. }
  assert (He' : (emin <= e')%Z).
  { unfold e'. pose proof (fexp_ge_emin (Zdigits2 mx + ex)). lia. }
  assert (Hx' : x' < pow2 prec).
  { destruct (located_range _ _ _ Hloc) as [_ Hxhi].
    assert (Hmx : IZR mx + 1 <= pow2 (Zdigits2 mx)).
    { rewrite pow2_IZR by apply Zdigits2_nonneg. rewrite <- plus_IZR. apply IZR_le.
      destruct (Z.eq_dec mx 0%Z) as [->|Hne]; [cbn; lia|].
      destruct (Zdigits2_spec mx ltac:(lia)). lia. }
    assert (Hexp : pow2 (ex - e') <= pow2 (prec - Zdigits2 mx)).
    { apply pow2_le. unfold e', SpecFloat.fexp, SpecFloat.emin. lia. }
    unfold x'. pose proof (pow2_pos (ex - e')).
    replace prec with (Zdigits2 mx + (prec - Zdigits2 mx))%Z at 1 by lia.
    rewrite pow2_add. pose proof (pow2_pos (Zdigits2 mx)). nra. }
  assert (Hm'prec : (m' < 2 ^ prec)%Z).
  { apply lt_IZR. rewrite <- pow2_IZR by lia.
    destruct (located_range _ _ _ Hloc'). lra. }
  destruct (round_nearest_even_located m' x' l' Hloc') as (Hround & Herr & Hexact).
  set (m2 := round_nearest_even m' l') in *.
  destruct (shr_fexp_exact m2 e' He' ltac:(lia))
    as (mrs2 & e2 & Heq2 & Hm2 & Hval & He2 & Hzero).
  rewrite Heq2. cbv beta iota.
  assert (Herror : Rabs (IZR m2 * pow2 e' - x * pow2 ex) <= pow2 e' / 2).
  { rewrite <- Hv, <- Rmult_minus_distr_r, Rabs_mult.
    rewrite (Rabs_pos_eq (pow2 e')) by (left; apply pow2_pos).
    pose proof (pow2_pos e'). nra. }
  assert (Hexactly : lx = loc_Exact -> e' = ex -> IZR m2 * pow2 e' = x * pow2 ex).
  { intros Hlx He. destruct (Hsame He) as [Hmm Hll].
    assert (Hl : l' = loc_Exact) by (unfold l' in *; congruence).
    rewrite (Hexact Hl).
    assert (Hmm' : m' = mx) by (unfold m' in *; congruence).
    rewrite Hmm', He. subst lx. cbn in Hloc. rewrite Hloc. reflexivity. }
  destruct (shr_m mrs2) as [|m|m] eqn:Hres; [| |lia].
  - rewrite (Hzero eq_refl) in *. cbn [mag].
    split; [left; reflexivity|]. split.
    + rewrite Rmult_0_l in Herror. exact Herror.
    + intros Hlx He. rewrite <- (Hexactly Hlx He). lra.
  - assert (Hfits : (e2 <=? emax - prec)%Z = true).
    { apply Z.leb_le.
      assert (Hm2pos : (1 <= m2)%Z).
      { destruct (Z.eq_dec m2 0%Z) as [E|E]; [|lia].
        rewrite E, Rmult_0_l in Hval. pose proof (pow2_pos e2).
        assert (0 < IZR (Zpos m)) by (apply IZR_lt; lia). nra. }
      assert (Hhalf : 1 / 2 <= x').
      { apply Rabs_le_between in Herr. assert (1 <= IZR m2) by (apply IZR_le; lia). lra. }
      assert (Hlt : pow2 (e' - 1) < pow2 (emax - prec - 1)).
      { eapply Rle_lt_trans; [|exact Hbound]. rewrite <- Hv.
        replace (e' - 1)%Z with (-1 + e')%Z by lia. rewrite pow2_add.
        replace (pow2 (-1)) with (1 / 2) by (unfold pow2, powerRZ; simpl; lra).
        pose proof (pow2_pos e'). nra. }
      destruct (Z_lt_le_dec (e' - 1) (emax - prec - 1)) as [Hlt'|Hge]; [lia|].
      apply pow2_le in Hge. lra. }
    rewrite Hfits. cbn [mag]. rewrite Hval.
    split; [right; eauto|]. split; assumption.
Qed.

(** The error of the rounding is a relative error of [2 ^ -prec], or the
    absolute error of the subnormal range. *)
Lemma binary_round_aux_error (sx : bool) (mx ex : Z) (lx : location) (x : R) :
  (0 <= mx)%Z -> located mx x lx ->
  x * pow2 ex < pow2 (emax - prec - 1) ->
  (lx = loc_Exact \/ pow2 (prec - 1) <= x \/ (ex <= emin)%Z) ->
  let f := binary_round_aux prec emax sx mx ex lx in
  (f = S754_zero sx \/ exists m e, f = S754_finite sx m e)
  /\ Rabs (mag f - x * pow2 ex) <= pow2 (- prec) * (x * pow2 ex) + pow2 (emin - 1).
Proof using Hprec.
  intros Hm Hloc Hbound Hcase f.
  destruct (binary_round_aux_correct sx mx ex lx x Hm Hloc Hbound) as (Hf & Herr & Hexact).
  fold f in Hf, Herr, Hexact. split; [exact Hf|].
  set (v := x * pow2 ex) in *.
  assert (Hx0 : 0 <= x).
  { destruct (located_range _ _ _ Hloc). assert (0 <= IZR mx) by (apply IZR_le; lia). lra. }
  assert (Hv0 : 0 <= v) by (unfold v; pose proof (pow2_pos ex); nra).
  pose proof (pow2_pos (- prec)) as Hp. pose proof (pow2_pos (emin - 1)) as Hq.
  assert (Hhalf : forall e, pow2 e / 2 = pow2 (e - 1)).
  { intros e. replace e with (e - 1 + 1)%Z at 1 by lia. rewrite pow2_succ. field. }
  assert (Hrel : forall e, pow2 (e + prec - 1) <= v -> pow2 e / 2 <= pow2 (- prec) * v).
  { intros e Hle. rewrite Hhalf.
    replace (e - 1)%Z with (- prec + (e + prec - 1))%Z by lia. rewrite pow2_add. nra. }
  set (e' := Z.max ex (fexp (Zdigits2 mx + ex))) in *.
  destruct (Z_le_gt_dec (fexp (Zdigits2 mx + ex)) ex) as [Hno|Hshift].
  - assert (He : e' = ex) by (unfold e'; lia).
    destruct Hcase as [Hexactloc|[Hbig|Hmin]].
    + rewrite (Hexact Hexactloc He), Rminus_diag, Rabs_R0. nra.
    + eapply Rle_trans; [exact Herr|]. rewrite He.
      eapply Rle_trans; [apply Hrel|lra].
      unfold v. replace (ex + prec - 1)%Z with (prec - 1 + ex)%Z by lia.
      rewrite pow2_add. pose proof (pow2_pos ex). nra.
    + assert (Hex : ex = emin) by (pose proof (fexp_ge_emin (Zdigits2 mx + ex)); lia).
      eapply Rle_trans; [exact Herr|]. rewrite He, Hex, Hhalf. nra.
  - assert (He : e' = fexp (Zdigits2 mx + ex)) by (unfold e'; lia).
    eapply Rle_trans; [exact Herr|]. rewrite He.
    destruct (Z_le_gt_dec (Zdigits2 mx + ex - prec) emin) as [Hsub|Hnorm].
    + replace (fexp (Zdigits2 mx + ex)) with emin
        by (unfold SpecFloat.fexp, SpecFloat.emin in *; lia).
      rewrite Hhalf. nra.
    + replace (fexp (Zdigits2 mx + ex)) with (Zdigits2 mx + ex - prec)%Z
        by (unfold SpecFloat.fexp, SpecFloat.emin in *; lia).
      eapply Rle_trans; [apply Hrel|lra].
      assert (Hd : (prec < Zdigits2 mx)%Z)
        by (unfold SpecFloat.fexp, SpecFloat.emin in *; lia).
      assert (Hmx : (0 < mx)%Z).
      { destruct (Z.eq_dec mx 0%Z) as [E|E]; [|lia]. rewrite E in Hd. cbn in Hd. lia. }
      destruct (Zdigits2_spec mx Hmx) as [Hlow _].
      assert (Hxlow : pow2 (Zdigits2 mx - 1) <= x).
      { rewrite pow2_IZR by lia. destruct (located_range _ _ _ Hloc).
        apply IZR_le in Hlow. lra. }
      unfold v. replace (Zdigits2 mx + ex - prec + prec - 1)%Z
        with (Zdigits2 mx - 1 + ex)%Z by lia.
      rewrite pow2_add. pose proof (pow2_pos ex). nra.
Qed.

Local Abbreviation u := (pow2 (- prec)).
Local Abbreviation eta := (pow2 (emin - 1)).
Local Abbreviation big := (pow2 (emax - prec - 1)).

Lemma signed_diff (s : bool) (a b : R) :
  Rabs (signed s a - signed s b) = Rabs (a - b).
Proof.
  destruct s; cbn [signed]; [|reflexivity].
  replace (- a - - b) with (- (a - b)) by ring. apply Rabs_Ropp.
Qed.

Lemma Rabs_signed (s : bool) (v : R) : 0 <= v -> Rabs (signed s v) = v.
Proof.
  intros Hv. destruct s; cbn [signed].
  - rewrite Rabs_Ropp. apply Rabs_pos_eq, Hv.
  - apply Rabs_pos_eq, Hv.
Qed.

Lemma exactly_rounded (r v : R) : r = v -> Rabs (r - v) <= u * Rabs v + eta.
Proof.
  intros ->. rewrite Rminus_diag, Rabs_R0.
  pose proof (pow2_pos (- prec)). pose proof (pow2_pos (emin - 1)).
  pose proof (Rabs_pos v). nra.
Qed.

Lemma binary_round_aux_signed (sx : bool) (mx ex : Z) (lx : location) (x : R) :
  (0 <= mx)%Z -> located mx x lx ->
  x * pow2 ex < big ->
  (lx = loc_Exact \/ pow2 (prec - 1) <= x \/ (ex <= emin)%Z) ->
  let f := binary_round_aux prec emax sx mx ex lx in
  sfinite f = true
  /\ Rabs (sval f - signed sx (x * pow2 ex)) <= u * (x * pow2 ex) + eta.
Proof using Hprec.
  intros Hm Hloc Hbound Hcase f.
  destruct (binary_round_aux_error sx mx ex lx x Hm Hloc Hbound Hcase) as [Hf Herr].
  fold f in Hf, Herr. destruct Hf as [Hf|(m & e & Hf)]; rewrite Hf in *.
  - split; [reflexivity|]. cbn [sval mag] in *.
    replace 0 with (signed sx 0) by (destruct sx; cbn; lra).
    rewrite signed_diff. exact Herr.
  - split; [reflexivity|]. cbn [sval mag] in *. rewrite signed_diff. exact Herr.
Qed.

(** **** Multiplication *)

Lemma SFmul_error (x y : spec_float) :
  sfinite x = true -> sfinite y = true ->
  Rabs (sval x * sval y) < big ->
  sfinite (SFmul prec emax x y) = true
  /\ Rabs (sval (SFmul prec emax x y) - sval x * sval y)
     <= u * Rabs (sval x * sval y) + eta.
Proof using Hprec.
  intros Hx Hy Hbig.
  destruct x as [sx|sx| |sx mx ex]; try discriminate;
    destruct y as [sy|sy| |sy my ey]; try discriminate; cbn [SFmul].
  - split; [reflexivity|]. apply exactly_rounded. cbn [sval]. ring.
  - split; [reflexivity|]. apply exactly_rounded. cbn [sval]. ring.
  - split; [reflexivity|]. apply exactly_rounded. cbn [sval]. ring.
  - set (V := IZR (Zpos (mx * my)) * pow2 (ex + ey)).
    assert (HV : sval (S754_finite sx mx ex) * sval (S754_finite sy my ey)
                 = signed (xorb sx sy) V).
    { unfold V. rewrite Pos2Z.inj_mul, mult_IZR, pow2_add.
      destruct sx, sy; cbn [sval signed xorb]; ring. }
    assert (HV0 : 0 < V).
    { unfold V. apply Rmult_lt_0_compat; [apply IZR_lt; lia|apply pow2_pos]. }
    rewrite HV in *. rewrite Rabs_signed in * by lra.
    apply (binary_round_aux_signed (xorb sx sy) (Zpos (mx * my)) (ex + ey) loc_Exact
             (IZR (Zpos (mx * my)))); [lia|reflexivity|exact Hbig|tauto].
Qed.

(** **** Subtraction *)

Lemma iter_xO_value (m d : positive) :
  Zpos (Pos.iter xO m d) = (Zpos m * 2 ^ Zpos d)%Z.
Proof.
  induction d as [|d IH] using Pos.peano_ind.
  - cbn [Pos.iter]. rewrite Pos2Z.inj_xO. change (2 ^ 1)%Z with 2%Z. lia.
  - rewrite Pos.iter_succ, Pos2Z.inj_xO, IH, Pos2Z.inj_succ, Z.pow_succ_r by lia. lia.
Qed.

Lemma shl_align_value (mx : positive) (ex ez : Z) :
  let p := shl_align mx ex ez in
  IZR (Zpos (fst p)) * pow2 (snd p) = IZR (Zpos mx) * pow2 ex
  /\ ((ez <= ex)%Z -> snd p = ez).
Proof.
  unfold shl_align. destruct (ez - ex)%Z as [|d|d] eqn:Hd; cbn [fst snd].
  - split; [reflexivity|lia].
  - split; [reflexivity|lia].
  - split; [|reflexivity].
    rewrite iter_xO_value, mult_IZR, <- pow2_IZR by lia.
    rewrite Rmult_assoc, <- pow2_add. f_equal. f_equal. lia.
Qed.

Lemma binary_round_error (sx : bool) (mx : positive) (ex : Z) :
  IZR (Zpos mx) * pow2 ex < big ->
  let f := binary_round prec emax sx mx ex in
  sfinite f = true
  /\ Rabs (sval f - signed sx (IZR (Zpos mx) * pow2 ex))
     <= u * (IZR (Zpos mx) * pow2 ex) + eta.
Proof using Hprec.
  intros Hbig. unfold binary_round.
  destruct (shl_align_value mx ex (fexp (Zpos (digits2_pos mx) + ex))) as [Hval _].
  destruct (shl_align mx ex (fexp (Zpos (digits2_pos mx) + ex))) as [mz ez].
  cbn [fst snd] in Hval. rewrite <- Hval in *.
  apply (binary_round_aux_signed sx (Zpos mz) ez loc_Exact (IZR (Zpos mz)));
    [lia|reflexivity|exact Hbig|tauto].
Qed.

Lemma binary_normalize_error (m e : Z) (szero : bool) :
  Rabs (IZR m * pow2 e) < big ->
  let f := binary_normalize prec emax m e szero in
  sfinite f = true
  /\ Rabs (sval f - IZR m * pow2 e) <= u * Rabs (IZR m * pow2 e) + eta.
Proof using Hprec.
  intros Hbig. destruct m as [|p|p]; cbn [binary_normalize]; cbv zeta.
  - split; [reflexivity|]. apply exactly_rounded. cbn [sval]. ring.
  - assert (H0 : 0 < IZR (Zpos p) * pow2 e)
      by (apply Rmult_lt_0_compat; [apply IZR_lt; lia|apply pow2_pos]).
    rewrite (Rabs_pos_eq (IZR (Zpos p) * pow2 e)) in * by lra.
    apply (binary_round_error false p e Hbig).
  - assert (H0 : 0 < IZR (Zpos p) * pow2 e)
      by (apply Rmult_lt_0_compat; [apply IZR_lt; lia|apply pow2_pos]).
    assert (Hneg : IZR (Zneg p) * pow2 e = signed true (IZR (Zpos p) * pow2 e)).
    { change (Zneg p) with (- Zpos p)%Z. rewrite opp_IZR. cbn [signed]. ring. }
    rewrite Hneg in *. rewrite (Rabs_signed true) in * by lra.
    apply (binary_round_error true p e Hbig).
Qed.

Lemma cond_Zopp_signed (s : bool) (m : Z) : IZR (cond_Zopp s m) = signed s (IZR m).
Proof. destruct s; cbn [cond_Zopp signed]; [apply opp_IZR|reflexivity]. Qed.

Lemma signed_mult (s : bool) (a b : R) : signed s a * b = signed s (a * b).
Proof. destruct s; cbn [signed]; ring. Qed.

Lemma SFsub_error (x y : spec_float) :
  sfinite x = true -> sfinite y = true ->
  Rabs (sval x - sval y) < big ->
  sfinite (SFsub prec emax x y) = true
  /\ Rabs (sval (SFsub prec emax x y) - (sval x - sval y))
     <= u * Rabs (sval x - sval y) + eta.
Proof using Hprec.
  intros Hx Hy Hbig.
  destruct x as [sx|sx| |sx mx ex]; try discriminate;
    destruct y as [sy|sy| |sy my ey]; try discriminate; cbn [SFsub].
  - split; [destruct sx, sy; reflexivity|]. apply exactly_rounded.
    destruct sx, sy; cbn [sval]; ring.
  - split; [reflexivity|]. apply exactly_rounded.
    destruct sy; cbn [sval signed negb]; ring.
  - split; [reflexivity|]. apply exactly_rounded. cbn [sval]. ring.
  - set (ez := Z.min ex ey).
    destruct (shl_align_value mx ex ez) as [Hvx Hex].
    destruct (shl_align_value my ey ez) as [Hvy Hey].
    rewrite (Hex ltac:(lia)) in Hvx. rewrite (Hey ltac:(lia)) in Hvy.
    set (ax := fst (shl_align mx ex ez)) in *. set (ay := fst (shl_align my ey ez)) in *.
    assert (Hval : IZR (cond_Zopp sx (Zpos ax) - cond_Zopp sy (Zpos ay)) * pow2 ez
                   = sval (S754_finite sx mx ex) - sval (S754_finite sy my ey)).
    { rewrite minus_IZR, !cond_Zopp_signed, Rmult_minus_distr_r, !signed_mult, Hvx, Hvy.
      reflexivity. }
    rewrite <- Hval in *. apply binary_normalize_error. exact Hbig.
Qed.

(** **** Division *)

Lemma new_location_located (q k nb : Z) :
  (0 <= k < nb)%Z ->
  located q (IZR q + IZR k / IZR nb) (new_location nb k).
Proof.
  intros [Hk Hnb].
  assert (Hnb0 : 0 < IZR nb) by (apply IZR_lt; lia).
  assert (Hhalf : forall c, (2 * k ?= nb)%Z = c ->
            match c with
            | Lt => IZR k / IZR nb < 1 / 2
            | Eq => IZR k / IZR nb = 1 / 2
            | Gt => 1 / 2 < IZR k / IZR nb
            end).
  { intros c Hc. destruct c.
    - apply Z.compare_eq in Hc. rewrite <- Hc, mult_IZR. field.
      intros E. apply eq_IZR in E. lia.
    - rewrite Z.compare_lt_iff in Hc. apply IZR_lt in Hc. rewrite mult_IZR in Hc.
      apply (Rmult_lt_reg_r (IZR nb)); [exact Hnb0|].
      unfold Rdiv. rewrite Rmult_assoc, Rinv_l by lra. lra.
    - rewrite Z.compare_gt_iff in Hc. apply IZR_lt in Hc. rewrite mult_IZR in Hc.
      apply (Rmult_lt_reg_r (IZR nb)); [exact Hnb0|].
      unfold Rdiv. rewrite (Rmult_assoc (IZR k)), Rinv_l by lra. lra. }
  assert (Hlt1 : IZR k / IZR nb < 1).
  { apply (Rmult_lt_reg_r (IZR nb)); [exact Hnb0|].
    unfold Rdiv. rewrite Rmult_assoc, Rinv_l by lra. apply IZR_lt in Hnb. lra. }
  assert (Hpos : (0 < k)%Z -> 0 < IZR k / IZR nb).
  { intros Hk0. apply Rdiv_lt_0_compat; [apply IZR_lt; lia|exact Hnb0]. }
  unfold new_location. destruct (Z.even nb) eqn:Heven.
  - unfold new_location_even. destruct (Z.eqb_spec k 0) as [->|Hne].
    + cbn [located]. unfold Rdiv. rewrite Rmult_0_l. lra.
    + specialize (Hpos ltac:(lia)). specialize (Hhalf _ eq_refl).
      destruct (2 * k ?= nb)%Z; cbn [located]; lra.
  - unfold new_location_odd. destruct (Z.eqb_spec k 0) as [->|Hne].
    + cbn [located]. unfold Rdiv. rewrite Rmult_0_l. lra.
    + specialize (Hpos ltac:(lia)). specialize (Hhalf _ eq_refl).
      assert (Hodd : (2 * k <> nb)%Z).
      { intros E. rewrite <- E, Z.even_mul in Heven. discriminate. }
      destruct (2 * k + 1 ?= nb)%Z eqn:Hc.
      * apply Z.compare_eq in Hc.
        assert (Hc' : (2 * k ?= nb)%Z = Lt) by (apply Z.compare_lt_iff; lia).
        rewrite Hc' in Hhalf. cbn [located]. lra.
      * rewrite Z.compare_lt_iff in Hc.
        assert (Hc' : (2 * k ?= nb)%Z = Lt) by (apply Z.compare_lt_iff; lia).
        rewrite Hc' in Hhalf. cbn [located]. lra.
      * rewrite Z.compare_gt_iff in Hc.
        assert (Hc' : (2 * k ?= nb)%Z = Gt) by (apply Z.compare_gt_iff; lia).
        rewrite Hc' in Hhalf. cbn [located]. lra.
Qed.

Lemma SFdiv_core_binary_correct (m1 m2 : positive) (e1 e2 : Z) :
  exists q e' l x,
    SFdiv_core_binary prec emax (Zpos m1) e1 (Zpos m2) e2 = (q, e', l)
    /\ (0 <= q)%Z /\ located q x l
    /\ x * pow2 e' = IZR (Zpos m1) * pow2 e1 / (IZR (Zpos m2) * pow2 e2)
    /\ (pow2 (prec - 1) <= x \/ (e' <= emin)%Z).
Proof.
  unfold SFdiv_core_binary.
  set (d1 := Zdigits2 (Zpos m1)). set (d2 := Zdigits2 (Zpos m2)).
  set (e' := Z.min (fexp (d1 + e1 - (d2 + e2))) (e1 - e2)).
  set (s := (e1 - e2 - e')%Z).
  assert (Hs : (0 <= s)%Z) by (unfold s, e'; lia).
  set (m' := match s with Zpos _ => Z.shiftl (Zpos m1) s | Z0 => Zpos m1 | Zneg _ => 0%Z end).
  assert (Hm' : m' = (Zpos m1 * 2 ^ s)%Z).
  { unfold m'. destruct s as [|p|p]; [cbn; lia| |lia]. apply Z.shiftl_mul_pow2. lia. }
  pose proof (Z_div_mod m' (Zpos m2) ltac:(lia)) as Hdiv.
  destruct (Z.div_eucl m' (Zpos m2)) as [q r]. destruct Hdiv as [Hqr Hr].
  assert (Hm'0 : (0 <= m')%Z).
  { rewrite Hm'. assert (0 < 2 ^ s)%Z by (apply Z.pow_pos_nonneg; lia). lia. }
  assert (Hq : (0 <= q)%Z) by nia.
  assert (H2 : 0 < IZR (Zpos m2)) by (apply IZR_lt; lia).
  assert (H1 : 0 < IZR (Zpos m1)) by (apply IZR_lt; lia).
  exists q, e', (new_location (Zpos m2) r), (IZR q + IZR r / IZR (Zpos m2)).
  split; [reflexivity|]. split; [exact Hq|].
  split; [apply new_location_located; exact Hr|].
  assert (Hx : IZR q + IZR r / IZR (Zpos m2) = IZR (Zpos m1) * pow2 s / IZR (Zpos m2)).
  { rewrite pow2_IZR, <- mult_IZR, <- Hm', Hqr, plus_IZR, mult_IZR by exact Hs.
    field. lra. }
  rewrite Hx. split.
  - assert (He1 : pow2 e1 = pow2 s * pow2 e' * pow2 e2).
    { rewrite <- !pow2_add. f_equal. unfold s. lia. }
    rewrite He1. pose proof (pow2_pos e2). field. lra.
  - destruct (Z_le_gt_dec e' emin) as [Hle|Hgt]; [right; exact Hle|left].
    assert (Hs' : (prec - d1 + d2 <= s)%Z).
    { unfold s, e', SpecFloat.fexp in *. lia. }
    destruct (Zdigits2_spec (Zpos m1) ltac:(lia)) as [Hlow1 _].
    destruct (Zdigits2_spec (Zpos m2) ltac:(lia)) as [_ Hhigh2].
    fold d1 in Hlow1. fold d2 in Hhigh2.
    pose proof (Zdigits2_nonneg (Zpos m2)) as Hd2. fold d2 in Hd2.
    assert (Hd1 : (1 <= d1)%Z) by (unfold d1; cbn; lia).
    apply IZR_le in Hlow1. apply IZR_lt in Hhigh2.
    rewrite <- pow2_IZR in Hlow1, Hhigh2 by lia.
    assert (Hp : pow2 (prec - 1) * pow2 d2 <= pow2 (d1 - 1) * pow2 s).
    { rewrite <- !pow2_add. apply pow2_le. lia. }
    apply (Rmult_le_reg_r (IZR (Zpos m2))); [exact H2|].
    unfold Rdiv. rewrite (Rmult_assoc _ (/ _)), Rinv_l, Rmult_1_r by lra.
    pose proof (pow2_pos (prec - 1)). pose proof (pow2_pos s). nra.
Qed.

Lemma SFdiv_error (x y : spec_float) :
  sfinite x = true -> (exists sy my ey, y = S754_finite sy my ey) ->
  Rabs (sval x / sval y) < big ->
  sfinite (SFdiv prec emax x y) = true
  /\ Rabs (sval (SFdiv prec emax x y) - sval x / sval y)
     <= u * Rabs (sval x / sval y) + eta.
Proof using Hprec.
  intros Hx (sy & my & ey & ->) Hbig.
  destruct x as [sx|sx| |sx mx ex]; try discriminate; cbn [SFdiv].
  - split; [reflexivity|]. apply exactly_rounded. cbn [sval]. unfold Rdiv. ring.
  - destruct (SFdiv_core_binary_correct mx my ex ey)
      as (q & e' & l & v & -> & Hq & Hloc & Hval & Hcase).
    assert (Hy0 : 0 < IZR (Zpos my) * pow2 ey)
      by (apply Rmult_lt_0_compat; [apply IZR_lt; lia|apply pow2_pos]).
    assert (Hx0 : 0 < IZR (Zpos mx) * pow2 ex)
      by (apply Rmult_lt_0_compat; [apply IZR_lt; lia|apply pow2_pos]).
    cbn [sval] in *.
    set (a := IZR (Zpos mx) * pow2 ex) in *. set (b := IZR (Zpos my) * pow2 ey) in *.
    set (V := a / b) in *.
    assert (HV0 : 0 < V) by (apply Rdiv_lt_0_compat; assumption).
    assert (HV : signed sx a / signed sy b = signed (xorb sx sy) V).
    { unfold V. destruct sx, sy; cbn [signed xorb]; field; lra. }
    rewrite HV in *. rewrite Rabs_signed in * by lra. rewrite <- Hval in *.
    apply (binary_round_aux_signed (xorb sx sy) q e' l v Hq Hloc Hbig). tauto.
Qed.

(** **** Comparison *)

Lemma canonical_lt (m1 m2 : positive) (e1 e2 : Z) :
  canonical_mantissa prec emax m1 e1 = true ->
  canonical_mantissa prec emax m2 e2 = true ->
  (e1 < e2)%Z ->
  IZR (Zpos m1) * pow2 e1 < IZR (Zpos m2) * pow2 e2.
Proof.
  unfold canonical_mantissa. intros H1 H2 Hlt.
  apply Z.eqb_eq in H1, H2.
  destruct (digits2_pos_spec m1) as [_ Hhigh]. destruct (digits2_pos_spec m2) as [Hlow _].
  set (d1 := Zpos (digits2_pos m1)) in *. set (d2 := Zpos (digits2_pos m2)) in *.
  assert (Hd : (d1 + e1 <= d2 - 1 + e2)%Z) by (unfold SpecFloat.fexp in *; lia).
  apply IZR_lt in Hhigh. apply IZR_le in Hlow.
  rewrite <- pow2_IZR in Hhigh, Hlow by (unfold d1, d2; lia).
  assert (Hp : pow2 d1 * pow2 e1 <= pow2 (d2 - 1) * pow2 e2).
  { rewrite <- !pow2_add. apply pow2_le. exact Hd. }
  pose proof (pow2_pos e1). pose proof (pow2_pos e2). nra.
Qed.

Lemma Pos_compare_cont_Eq (m1 m2 : positive) :
  match Pos.compare_cont Eq m1 m2 with
  | Lt => IZR (Zpos m1) < IZR (Zpos m2)
  | Eq => m1 = m2
  | Gt => IZR (Zpos m2) < IZR (Zpos m1)
  end.
Proof.
  change (Pos.compare_cont Eq m1 m2) with (m1 ?= m2)%positive.
  destruct (Pos.compare_spec m1 m2) as [E|L|L]; [exact E| |]; apply IZR_lt; lia.
Qed.

Lemma magnitude_compare (m1 m2 : positive) (e1 e2 : Z) :
  SpecFloat.bounded prec emax m1 e1 = true -> SpecFloat.bounded prec emax m2 e2 = true ->
  let c := match (e1 ?= e2)%Z with
           | Lt => Lt
           | Gt => Gt
           | Eq => Pos.compare_cont Eq m1 m2
           end in
  match c with
  | Lt => IZR (Zpos m1) * pow2 e1 < IZR (Zpos m2) * pow2 e2
  | Eq => IZR (Zpos m1) * pow2 e1 = IZR (Zpos m2) * pow2 e2
  | Gt => IZR (Zpos m2) * pow2 e2 < IZR (Zpos m1) * pow2 e1
  end.
Proof.
  unfold SpecFloat.bounded. intros H1 H2.
  apply andb_true_iff in H1, H2. destruct H1 as [H1 _], H2 as [H2 _].
  destruct (Z.compare_spec e1 e2) as [E|L|L]; cbv zeta.
  - subst e2. pose proof (Pos_compare_cont_Eq m1 m2) as Hc. pose proof (pow2_pos e1).
    destruct (Pos.compare_cont Eq m1 m2); [subst; reflexivity| |]; nra.
  - apply canonical_lt; assumption.
  - apply canonical_lt; assumption.
Qed.

Lemma SFcompare_correct (f1 f2 : spec_float) (c : comparison) :
  SpecFloat.valid_binary prec emax f1 = true -> SpecFloat.valid_binary prec emax f2 = true ->
  sfinite f1 = true -> sfinite f2 = true ->
  SFcompare f1 f2 = Some c ->
  match c with
  | Lt => sval f1 < sval f2
  | Eq => sval f1 = sval f2
  | Gt => sval f2 < sval f1
  end.
Proof.
  intros Hv1 Hv2 Hf1 Hf2.
  destruct f1 as [s1|s1| |s1 m1 e1]; try discriminate;
    destruct f2 as [s2|s2| |s2 m2 e2]; try discriminate; cbn [SFcompare sval];
    intros Hc; injection Hc as <-.
  - reflexivity.
  - assert (0 < IZR (Zpos m2) * pow2 e2)
      by (apply Rmult_lt_0_compat; [apply IZR_lt; lia|apply pow2_pos]).
    destruct s2; cbn [signed]; lra.
  - assert (0 < IZR (Zpos m1) * pow2 e1)
      by (apply Rmult_lt_0_compat; [apply IZR_lt; lia|apply pow2_pos]).
    destruct s1; cbn [signed]; lra.
  - assert (0 < IZR (Zpos m1) * pow2 e1)
      by (apply Rmult_lt_0_compat; [apply IZR_lt; lia|apply pow2_pos]).
    assert (0 < IZR (Zpos m2) * pow2 e2)
      by (apply Rmult_lt_0_compat; [apply IZR_lt; lia|apply pow2_pos]).
    cbn [SpecFloat.valid_binary] in Hv1, Hv2.
    pose proof (magnitude_compare m1 m2 e1 e2 Hv1 Hv2) as Hmag. cbv zeta in Hmag.
    destruct s1, s2; cbn [signed]; try lra;
      destruct (e1 ?= e2)%Z; try lra;
      destruct (Pos.compare_cont Eq m1 m2); cbn [CompOpp]; lra.
Qed.

Lemma SFcompare_finite (f1 f2 : spec_float) :
  sfinite f1 = true -> sfinite f2 = true -> exists c, SFcompare f1 f2 = Some c.
Proof.
  destruct f1 as [s1|s1| |s1 m1 e1]; try discriminate;
    destruct f2 as [s2|s2| |s2 m2 e2]; try discriminate; cbn [SFcompare]; eauto.
Qed.

Lemma SFleb_le (f1 f2 : spec_float) :
  SpecFloat.valid_binary prec emax f1 = true -> SpecFloat.valid_binary prec emax f2 = true ->
  sfinite f1 = true -> sfinite f2 = true ->
  SFleb f1 f2 = true -> sval f1 <= sval f2.
Proof.
  intros Hv1 Hv2 Hf1 Hf2. unfold SFleb.
  pose proof (SFcompare_correct f1 f2) as Hc.
  destruct (SFcompare f1 f2) as [[]|]; try discriminate; intros _;
    specialize (Hc _ Hv1 Hv2 Hf1 Hf2 eq_refl); cbn in Hc; lra.
Qed.

Lemma SFltb_of_lt (f1 f2 : spec_float) :
  SpecFloat.valid_binary prec emax f1 = true -> SpecFloat.valid_binary prec emax f2 = true ->
  sfinite f1 = true -> sfinite f2 = true ->
  sval f1 < sval f2 -> SFltb f1 f2 = true.
Proof.
  intros Hv1 Hv2 Hf1 Hf2 Hlt. unfold SFltb.
  destruct (SFcompare_finite f1 f2 Hf1 Hf2) as [c Hc]. rewrite Hc.
  pose proof (SFcompare_correct f1 f2 c Hv1 Hv2 Hf1 Hf2 Hc) as Hr.
  destruct c; [lra|reflexivity|lra].
Qed.

(** A number that compares with finite numbers on both sides is finite. *)
Lemma SFleb_between_finite (lo f hi : spec_float) :
  sfinite lo = true -> sfinite hi = true ->
  SFleb lo f = true -> SFleb f hi = true -> sfinite f = true.
Proof.
  intros Hlo Hhi.
  destruct f as [s|s| |s m e]; try reflexivity;
    destruct lo as [sl|sl| |sl ml el]; try discriminate;
    destruct hi as [sh|sh| |sh mh eh]; try discriminate;
    unfold SFleb; cbn [SFcompare]; destruct s; discriminate.
Qed.

Lemma SFabs_finite (f : spec_float) : sfinite (SFabs f) = sfinite f.
Proof. destruct f; reflexivity. Qed.

Lemma SFabs_value (f : spec_float) : sval (SFabs f) = Rabs (sval f).
Proof.
  destruct f as [s|s| |s m e]; cbn [SFabs sval]; try (symmetry; apply Rabs_R0).
  symmetry. apply Rabs_signed. left.
  apply Rmult_lt_0_compat; [apply IZR_lt; lia|apply pow2_pos].
Qed.

Lemma SFleb_abs_finite (f b : spec_float) :
  sfinite b = true -> SFleb (SFabs f) b = true -> sfinite f = true.
Proof.
  intros Hb. destruct f as [s|s| |s m e]; try reflexivity;
    destruct b as [sb|sb| |sb mb eb]; try discriminate;
    unfold SFleb; cbn [SFabs SFcompare]; discriminate.
Qed.

Lemma sval_nonzero_finite (f : spec_float) :
  sval f <> 0 -> exists s m e, f = S754_finite s m e.
Proof. destruct f as [s|s| |s m e]; cbn [sval]; try (intros []; reflexivity). eauto. Qed.
End Rounding.

(** *** binary64 *)

Section Binary64Rounding.
Local Open Scope R_scope.


Lemma float_sub_rnd (x y : float) :
  ffinite x = true -> ffinite y = true ->
  Rabs (fval x - fval y) < pow2 970 ->
  ffinite (x - y) = true /\ rnd (fval x - fval y) (fval (x - y)).
Proof.
  unfold ffinite, fval, rnd. rewrite sub_spec. intros Hx Hy Hbig.
  apply (SFsub_error 53 1024 ltac:(lia) _ _ Hx Hy Hbig).
Qed.

Lemma float_mul_rnd (x y : float) :
  ffinite x = true -> ffinite y = true ->
  Rabs (fval x * fval y) < pow2 970 ->
  ffinite (x * y) = true /\ rnd (fval x * fval y) (fval (x * y)).
Proof.
  unfold ffinite, fval, rnd. rewrite mul_spec. intros Hx Hy Hbig.
  apply (SFmul_error 53 1024 ltac:(lia) _ _ Hx Hy Hbig).
Qed.

Lemma float_div_rnd (x y : float) :
  ffinite x = true -> ffinite y = true -> fval y <> 0 ->
  Rabs (fval x / fval y) < pow2 970 ->
  ffinite (x / y) = true /\ rnd (fval x / fval y) (fval (x / y)).
Proof.
  unfold ffinite, fval, rnd. rewrite div_spec. intros Hx Hy Hy0 Hbig.
  apply (SFdiv_error 53 1024 ltac:(lia) _ _ Hx (sval_nonzero_finite _ Hy0) Hbig).
Qed.

Lemma float_leb_le (x y : float) :
  ffinite x = true -> ffinite y = true -> (x <=? y)%float = true -> fval x <= fval y.
Proof.
  unfold ffinite, fval. rewrite leb_spec. intros Hx Hy.
  apply (SFleb_le 53 1024 _ _ (Prim2SF_valid x) (Prim2SF_valid y) Hx Hy).
Qed.

Lemma float_ltb_of_lt (x y : float) :
  ffinite x = true -> ffinite y = true -> fval x < fval y -> (x <? y)%float = true.
Proof.
  unfold ffinite, fval. rewrite ltb_spec. intros Hx Hy.
  apply (SFltb_of_lt 53 1024 _ _ (Prim2SF_valid x) (Prim2SF_valid y) Hx Hy).
Qed.

Lemma float_abs_value (x : float) : fval (abs x) = Rabs (fval x).
Proof. unfold fval. rewrite abs_spec. apply SFabs_value. Qed.

Lemma float_abs_finite (x : float) : ffinite (abs x) = ffinite x.
Proof. unfold ffinite. rewrite abs_spec. apply SFabs_finite. Qed.

(** [Math.abs(x) <= bound] for a finite bound: [x] is finite and its
    value is within the bound. *)
Lemma float_within (x bound : float) :
  ffinite bound = true -> (abs x <=? bound)%float = true ->
  ffinite x = true /\ Rabs (fval x) <= fval bound.
Proof.
  intros Hb Hle.
  assert (Hx : ffinite x = true).
  { unfold ffinite in *. rewrite leb_spec, abs_spec in Hle.
    apply (SFleb_abs_finite _ _ Hb Hle). }
  split; [exact Hx|]. rewrite <- float_abs_value.
  apply float_leb_le; [rewrite float_abs_finite; exact Hx|exact Hb|exact Hle].
Qed.

(** [lo <= x <= hi] for finite bounds: [x] is finite and its value is
    between theirs. *)
Lemma float_between (lo x hi : float) :
  ffinite lo = true -> ffinite hi = true ->
  (lo <=? x)%float = true -> (x <=? hi)%float = true ->
  ffinite x = true /\ fval lo <= fval x <= fval hi.
Proof.
  intros Hlo Hhi Hl Hh.
  assert (Hx : ffinite x = true).
  { unfold ffinite in *. rewrite leb_spec in Hl, Hh.
    apply (SFleb_between_finite _ _ _ Hlo Hhi Hl Hh). }
  split; [exact Hx|]. split; apply float_leb_le; assumption.
Qed.

(** **** Rounded values with numeric bounds *)

Local Abbreviation eps53 := (/ 9007199254740992) (only parsing).
Local Abbreviation tiny := (/ 1267650600228229401496703205376) (only parsing).

Lemma pow2_neg_numeral (p : positive) : pow2 (Zneg p) = / IZR (2 ^ Zpos p).
Proof. change (Zneg p) with (- Zpos p)%Z. rewrite pow2_opp, pow2_IZR by lia. reflexivity. Qed.

Lemma pow2_minus_53 : pow2 (-53) = eps53.
Proof.
  rewrite (pow2_neg_numeral 53).
  replace (2 ^ 53)%Z with 9007199254740992%Z by reflexivity. reflexivity.
Qed.

Lemma pow2_minus_1075 : 0 < pow2 (-1075) <= tiny.
Proof.
  split; [apply pow2_pos|].
  apply Rle_trans with (pow2 (-100)); [apply pow2_le; lia|].
  rewrite (pow2_neg_numeral 100).
  replace (2 ^ 100)%Z with 1267650600228229401496703205376%Z by reflexivity. lra.
Qed.

Lemma pow2_970 (x : R) : x <= 1267650600228229401496703205376 -> x < pow2 970.
Proof.
  intros Hx. apply Rle_lt_trans with (pow2 100); [|apply pow2_lt; lia].
  rewrite (pow2_IZR 100) by lia.
  replace (2 ^ 100)%Z with 1267650600228229401496703205376%Z by reflexivity. exact Hx.
Qed.

Lemma Rabs_mult_le (x y X Y : R) :
  Rabs x <= X -> Rabs y <= Y -> Rabs (x * y) <= X * Y.
Proof.
  intros Hx Hy. rewrite Rabs_mult.
  apply Rmult_le_compat; [apply Rabs_pos|apply Rabs_pos|exact Hx|exact Hy].
Qed.

Lemma Rabs_sub_le (x y X Y : R) :
  Rabs x <= X -> Rabs y <= Y -> Rabs (x - y) <= X + Y.
Proof.
  intros Hx Hy. apply Rabs_le_between in Hx, Hy. apply Rabs_le. lra.
Qed.

(** The error of a rounding, when the value times [t] is at most [W]. *)
Lemma rnd_scaled (v r t T W : R) :
  rnd v r -> 0 <= t <= T -> Rabs v * t <= W ->
  Rabs ((r - v) * t) <= eps53 * W + tiny * T /\ Rabs r * t <= W + (eps53 * W + tiny * T).
Proof.
  unfold rnd. rewrite pow2_minus_53. intros Hr [Ht HT] HW.
  destruct pow2_minus_1075 as [He0 He].
  assert (Hscaled : Rabs (r - v) * t <= eps53 * W + tiny * T).
  { assert (H1 : Rabs (r - v) * t <= (eps53 * Rabs v + pow2 (-1075)) * t)
      by (apply Rmult_le_compat_r; lra).
    assert (H2 : pow2 (-1075) * t <= tiny * T) by (apply Rmult_le_compat; lra).
    lra. }
  split.
  - rewrite Rabs_mult, (Rabs_pos_eq t) by exact Ht. exact Hscaled.
  - assert (Htri : Rabs r <= Rabs v + Rabs (r - v)).
    { replace r with (v + (r - v)) at 1 by ring. apply Rabs_triang. }
    assert (H3 : Rabs r * t <= (Rabs v + Rabs (r - v)) * t)
      by (apply Rmult_le_compat_r; lra).
    lra.
Qed.

Lemma rnd_bounded (v r V : R) :
  rnd v r -> Rabs v <= V ->
  Rabs (r - v) <= eps53 * V + tiny /\ Rabs r <= V + (eps53 * V + tiny).
Proof.
  intros Hr HV.
  destruct (rnd_scaled v r 1 1 V Hr ltac:(lra) ltac:(lra)) as [H1 H2].
  rewrite !Rmult_1_r in *. split; assumption.
Qed.

(** **** The operations on bounded arguments *)

Lemma float_sub_bounded (x y : float) (X Y : R) :
  ffinite x = true -> ffinite y = true ->
  Rabs (fval x) <= X -> Rabs (fval y) <= Y ->
  X + Y <= 1267650600228229401496703205376 ->
  ffinite (x - y) = true
  /\ rnd (fval x - fval y) (fval (x - y))
  /\ Rabs (fval (x - y)) <= X + Y + (eps53 * (X + Y) + tiny).
Proof.
  intros Hx Hy HX HY HK.
  assert (Hv : Rabs (fval x - fval y) <= X + Y) by (apply Rabs_sub_le; assumption).
  destruct (float_sub_rnd x y Hx Hy) as [Hf Hr]; [apply pow2_970; lra|].
  split; [exact Hf|]. split; [exact Hr|]. apply (rnd_bounded _ _ _ Hr Hv).
Qed.

Lemma float_mul_bounded (x y : float) (X Y : R) :
  ffinite x = true -> ffinite y = true ->
  Rabs (fval x) <= X -> Rabs (fval y) <= Y ->
  X * Y <= 1267650600228229401496703205376 ->
  ffinite (x * y) = true
  /\ rnd (fval x * fval y) (fval (x * y))
  /\ Rabs (fval (x * y)) <= X * Y + (eps53 * (X * Y) + tiny).
Proof.
  intros Hx Hy HX HY HK.
  assert (Hv : Rabs (fval x * fval y) <= X * Y) by (apply Rabs_mult_le; assumption).
  destruct (float_mul_rnd x y Hx Hy) as [Hf Hr]; [apply pow2_970; lra|].
  split; [exact Hf|]. split; [exact Hr|]. apply (rnd_bounded _ _ _ Hr Hv).
Qed.

Lemma float_div_bounded (x y : float) (X I : R) :
  ffinite x = true -> ffinite y = true ->
  Rabs (fval x) <= X -> 0 < fval y -> / fval y <= I ->
  X * I <= 1267650600228229401496703205376 ->
  ffinite (x / y) = true
  /\ rnd (fval x / fval y) (fval (x / y))
  /\ Rabs (fval (x / y)) <= X * I + (eps53 * (X * I) + tiny).
Proof.
  intros Hx Hy HX Hy0 HI HK.
  assert (Hinv : Rabs (/ fval y) <= I).
  { rewrite Rabs_pos_eq; [exact HI|]. left. apply Rinv_0_lt_compat. exact Hy0. }
  assert (Hv : Rabs (fval x / fval y) <= X * I) by (apply Rabs_mult_le; assumption).
  destruct (float_div_rnd x y Hx Hy) as [Hf Hr]; [lra|apply pow2_970; lra|].
  split; [exact Hf|]. split; [exact Hr|]. apply (rnd_bounded _ _ _ Hr Hv).
Qed.

(** **** The literals of the zoom *)

Lemma fval_literals :
  fval 2 = 2 /\ fval 50 = 50 /\ 1 / 100 <= fval 0.01
  /\ fval 1048576 = 1048576 /\ fval 4294967296 = 4294967296.
Proof.
  unfold fval.
  replace (Prim2SF 2) with (S754_finite false 4503599627370496 (-51))
    by (vm_compute; reflexivity).
  replace (Prim2SF 50) with (S754_finite false 7036874417766400 (-47))
    by (vm_compute; reflexivity).
  replace (Prim2SF 0.01) with (S754_finite false 5764607523034235 (-59))
    by (vm_compute; reflexivity).
  replace (Prim2SF 1048576) with (S754_finite false 4503599627370496 (-32))
    by (vm_compute; reflexivity).
  replace (Prim2SF 4294967296) with (S754_finite false 4503599627370496 (-20))
    by (vm_compute; reflexivity).
  cbn [sval signed].
  rewrite (pow2_neg_numeral 51), (pow2_neg_numeral 47), (pow2_neg_numeral 59),
    (pow2_neg_numeral 32), (pow2_neg_numeral 20).
  replace (2 ^ 51)%Z with 2251799813685248%Z by reflexivity.
  replace (2 ^ 47)%Z with 140737488355328%Z by reflexivity.
  replace (2 ^ 59)%Z with 576460752303423488%Z by reflexivity.
  replace (2 ^ 32)%Z with 4294967296%Z by reflexivity.
  replace (2 ^ 20)%Z with 1048576%Z by reflexivity.
  repeat split; lra.
Qed.

(** *** The drift of the zoom *)

(** The roundings of [handleWheel] and [screenToWorld] along one axis,
    over the real numbers: [m] is the cursor from the centre of the
    canvas, [o] the offset and [s] the scale before the event, [n] the
    new scale; [d], [b], [r], [pr], [o'], [q] and [a] are the rounded
    results, in the order of the evaluation. *)
Lemma zoom_drift (m o s n d b r pr o' q a : R) :
  Rabs m <= 4194304 -> Rabs o <= 4294967296 ->
  1 / 100 <= s <= 50 -> 1 / 100 <= n <= 50 ->
  rnd (m - o) d -> rnd (d / s) b -> rnd (n / s) r -> rnd (d * r) pr ->
  rnd (m - pr) o' -> rnd (m - o') q -> rnd (q / n) a ->
  Rabs (a - b) <= 1 / 1000.
Proof.
  intros Hm Ho Hs Hn Hd Hb Hr Hpr Ho' Hq Ha.
  set (t := / n). set (i := / s).
  assert (Ht : 1 / 50 <= t <= 100).
  { unfold t. split.
    - replace (1 / 50) with (/ 50) by lra. apply Rinv_le_contravar; lra.
    - replace 100 with (/ (1 / 100)) by lra. apply Rinv_le_contravar; lra. }
  assert (Hi : 1 / 50 <= i <= 100).
  { unfold i. split.
    - replace (1 / 50) with (/ 50) by lra. apply Rinv_le_contravar; lra.
    - replace 100 with (/ (1 / 100)) by lra. apply Rinv_le_contravar; lra. }
  assert (Hnt : n * t = 1) by (unfold t; apply Rinv_r; lra).
  assert (Hsi : s * i = 1) by (unfold i; apply Rinv_r; lra).
  (* d *)
  assert (HD : Rabs (m - o) <= 4299161600)
    by (pose proof (Rabs_sub_le _ _ _ _ Hm Ho); lra).
  destruct (rnd_bounded _ _ _ Hd HD) as [_ Hd1].
  assert (Hd2 : Rabs d <= 4299161601) by lra.
  (* b *)
  assert (Hdi : Rabs (d / s) <= 4299161601 * 100).
  { apply Rabs_mult_le; [exact Hd2|]. fold i. rewrite Rabs_pos_eq; lra. }
  destruct (rnd_bounded _ _ _ Hb Hdi) as [Hb1 _].
  (* r *)
  assert (Hns : Rabs (n / s) * t <= 100).
  { rewrite Rabs_pos_eq.
    - replace (n / s * t) with (n * t * i) by (unfold Rdiv, i; ring). rewrite Hnt. lra.
    - unfold Rdiv. fold i. apply Rmult_le_pos; lra. }
  destruct (rnd_scaled _ _ t 100 100 Hr ltac:(lra) Hns) as [Hr1 Hr2].
  assert (Hr3 : Rabs r * t <= 101) by lra.
  (* d * (r - n / s) * t *)
  assert (Hx1 : Rabs (d * ((r - n / s) * t)) <= 4299161601 * (eps53 * 100 + tiny * 100))
    by (apply Rabs_mult_le; assumption).
  (* pr *)
  assert (Hdr : Rabs (d * r) * t <= 4299161601 * 101).
  { rewrite Rabs_mult, Rmult_assoc.
    apply Rmult_le_compat; [apply Rabs_pos| |exact Hd2|exact Hr3].
    apply Rmult_le_pos; [apply Rabs_pos|lra]. }
  destruct (rnd_scaled _ _ t 100 _ Hpr ltac:(lra) Hdr) as [Hpr1 Hpr2].
  assert (Hpr3 : Rabs pr * t <= 434215321702) by lra.
  (* o' *)
  assert (Hmt : Rabs m * t <= 4194304 * 100).
  { apply Rmult_le_compat; [apply Rabs_pos|lra|exact Hm|lra]. }
  assert (Hmpr : Rabs (m - pr) * t <= 434634752103).
  { assert (Htri : Rabs (m - pr) <= Rabs m + Rabs pr).
    { unfold Rminus. rewrite <- (Rabs_Ropp pr). apply Rabs_triang. }
    assert (Rabs (m - pr) * t <= (Rabs m + Rabs pr) * t)
      by (apply Rmult_le_compat_r; lra).
    lra. }
  destruct (rnd_scaled _ _ t 100 _ Ho' ltac:(lra) Hmpr) as [Ho'1 _].
  (* q *)
  assert (Hmo' : Rabs (m - o') * t <= 434215321703).
  { assert (Htri : Rabs (m - o') <= Rabs pr + Rabs (o' - (m - pr))).
    { replace (m - o') with (pr + - (o' - (m - pr))) by ring.
      rewrite <- (Rabs_Ropp (o' - (m - pr))). apply Rabs_triang. }
    assert (Rabs (m - o') * t <= (Rabs pr + Rabs (o' - (m - pr))) * t)
      by (apply Rmult_le_compat_r; lra).
    rewrite Rabs_mult, (Rabs_pos_eq t) in Ho'1 by lra. lra. }
  destruct (rnd_scaled _ _ t 100 _ Hq ltac:(lra) Hmo') as [Hq1 Hq2].
  (* a *)
  assert (Hqn : Rabs (q / n) <= 434215321704).
  { unfold Rdiv. fold t. rewrite Rabs_mult, (Rabs_pos_eq t) by lra. lra. }
  destruct (rnd_bounded _ _ _ Ha Hqn) as [Ha1 _].
  (* the sum *)
  replace (a - b)
    with ((a - q / n) + (q - (m - o')) * t - (o' - (m - pr)) * t
          + (pr - d * r) * t + d * ((r - n / s) * t) - (b - d / s)).
  - apply Rabs_le_between in Ha1, Hq1, Ho'1, Hpr1, Hx1, Hb1.
    apply Rabs_le. lra.
  - unfold Rdiv. fold t i.
    replace (d * ((r - n * i) * t)) with (d * r * t - d * i * (n * t)) by ring.
    rewrite Hnt. ring.
Qed.

Lemma Rinv_le_100 (x : R) : 1 / 100 <= x -> 0 < x /\ / x <= 100.
Proof.
  intros Hx. split; [lra|].
  replace 100 with (/ (1 / 100)) by lra. apply Rinv_le_contravar; lra.
Qed.

(** One axis of the zoom in binary64: [c] is the client coordinate of
    the cursor, [l] the edge of the canvas, [w] its width or height, [o]
    the offset and [s] the scale before the event, and [n] the new
    scale.  The world coordinate under the cursor moves by less than
    [0.01]. *)
Lemma zoom_axis (c l w o s n : float) :
  (abs c <=? 1048576)%float = true ->
  (abs l <=? 1048576)%float = true ->
  (abs w <=? 1048576)%float = true ->
  (abs o <=? 4294967296)%float = true ->
  (0.01 <=? s)%float = true -> (s <=? 50)%float = true ->
  (0.01 <=? n)%float = true -> (n <=? 50)%float = true ->
  (abs ((c - l - w / 2 - (c - l - w / 2 - (c - l - w / 2 - o) * (n / s))) / n
        - (c - l - w / 2 - o) / s) <? 0.01)%float = true.
Proof.
  intros Hc Hl Hw Ho Hs1 Hs2 Hn1 Hn2.
  destruct fval_literals as (F2 & F50 & F001 & F20 & F32).
  assert (L20 : ffinite 1048576 = true) by (vm_compute; reflexivity).
  assert (L32 : ffinite 4294967296 = true) by (vm_compute; reflexivity).
  assert (L001 : ffinite 0.01 = true) by (vm_compute; reflexivity).
  assert (L50 : ffinite 50 = true) by (vm_compute; reflexivity).
  assert (L2 : ffinite 2 = true) by (vm_compute; reflexivity).
  destruct (float_within c _ L20 Hc) as [Fc Bc]. rewrite F20 in Bc.
  destruct (float_within l _ L20 Hl) as [Fl Bl]. rewrite F20 in Bl.
  destruct (float_within w _ L20 Hw) as [Fw Bw]. rewrite F20 in Bw.
  destruct (float_within o _ L32 Ho) as [Fo Bo]. rewrite F32 in Bo.
  destruct (float_between _ s _ L001 L50 Hs1 Hs2) as [Fs Bs]. rewrite F50 in Bs.
  destruct (float_between _ n _ L001 L50 Hn1 Hn2) as [Fn Bn]. rewrite F50 in Bn.
  destruct (Rinv_le_100 (fval s) ltac:(lra)) as [Hs0 Hsi].
  destruct (Rinv_le_100 (fval n) ltac:(lra)) as [Hn0 Hni].
  assert (Bn' : Rabs (fval n) <= 50) by (rewrite Rabs_pos_eq; lra).
  (* mouseX = clientX - rect.left - width / 2 *)
  destruct (float_sub_bounded c l _ _ Fc Fl Bc Bl ltac:(lra)) as (Fcl & _ & Bcl).
  assert (Bcl' : Rabs (fval (c - l)) <= 2097153) by lra. clear Bcl.
  assert (H2 : 0 < fval 2 /\ / fval 2 <= 1 / 2) by (rewrite F2; lra).
  destruct (float_div_bounded w 2 _ (1 / 2) Fw L2 Bw (proj1 H2) (proj2 H2) ltac:(lra))
    as (Fh & _ & Bh).
  assert (Bh' : Rabs (fval (w / 2)) <= 524289) by lra. clear Bh.
  destruct (float_sub_bounded (c - l) (w / 2) _ _ Fcl Fh Bcl' Bh' ltac:(lra))
    as (Fm & _ & Bm).
  set (m := (c - l - w / 2)%float) in *.
  assert (Bm' : Rabs (fval m) <= 4194304) by lra. clear Bm.
  (* mouseX - prev.offsetX *)
  destruct (float_sub_bounded m o _ _ Fm Fo Bm' Bo ltac:(lra)) as (Fd & Rd & Bd).
  set (d := (m - o)%float) in *.
  assert (Bd' : Rabs (fval d) <= 4299161601) by lra. clear Bd.
  (* the world coordinate before *)
  destruct (float_div_bounded d s _ 100 Fd Fs Bd' Hs0 Hsi ltac:(lra)) as (Fb & Rb & _).
  set (before := (d / s)%float) in *.
  (* newScale / prev.scale *)
  destruct (float_div_bounded n s _ 100 Fn Fs Bn' Hs0 Hsi ltac:(lra)) as (Fr & Rr & Br).
  set (r := (n / s)%float) in *.
  assert (Br' : Rabs (fval r) <= 5001) by lra. clear Br.
  (* the new offset *)
  destruct (float_mul_bounded d r _ _ Fd Fr Bd' Br' ltac:(lra)) as (Fpr & Rpr & Bpr).
  set (pr := (d * r)%float) in *.
  assert (Bpr' : Rabs (fval pr) <= 30000000000000) by lra. clear Bpr.
  destruct (float_sub_bounded m pr _ _ Fm Fpr Bm' Bpr' ltac:(lra)) as (Fo' & Ro' & Bo').
  set (o' := (m - pr)%float) in *.
  assert (Bo'' : Rabs (fval o') <= 40000000000000) by lra. clear Bo'.
  (* the world coordinate after *)
  destruct (float_sub_bounded m o' _ _ Fm Fo' Bm' Bo'' ltac:(lra)) as (Fq & Rq & Bq).
  set (q := (m - o')%float) in *.
  assert (Bq' : Rabs (fval q) <= 50000000000000) by lra. clear Bq.
  destruct (float_div_bounded q n _ 100 Fq Fn Bq' Hn0 Hni ltac:(lra)) as (Fa & Ra & _).
  set (after := (q / n)%float) in *.
  (* the drift *)
  assert (Hdrift : Rabs (fval after - fval before) <= 1 / 1000).
  { apply (zoom_drift (fval m) (fval o) (fval s) (fval n) (fval d) (fval before)
             (fval r) (fval pr) (fval o') (fval q) (fval after));
      try assumption; lra. }
  destruct (float_sub_rnd after before Fa Fb) as [Fdiff Rdiff]; [apply pow2_970; lra|].
  destruct (rnd_bounded _ _ _ Rdiff Hdrift) as [_ Bdiff].
  apply float_ltb_of_lt; [rewrite float_abs_finite; exact Fdiff|exact L001|].
  rewrite float_abs_value. lra.
Qed.
End Binary64Rounding.

Section WheelZoomClaim.
Import MapCanvas.
Local Open Scope float_scope.

(** C7, as the code has it, in binary64.  For every wheel event, cursor
    position and prior transform: the new scale is the scale of the
    rendered transform times the factor of the event ([0.9] or [1.1]),
    clamped by [Math.min(Math.max(_, 0.01), 50)], so that it lies in
    [0.01, 50] unless the product is NaN, and then it is NaN.  When the
    event is in [wheelDomain] (client coordinates, canvas edges and sizes
    within [2 ^ 20] pixels, prior offsets within [2 ^ 32], prior scale in
    [0.01, 50]) and the product is a number, the offsets are set so that
    the world coordinates under the cursor after the update differ from
    those before it by less than [0.01] on each axis.  Without the
    bounds of the domain the difference is not bounded. *)
Theorem wheel_zoom_clamps_and_recentres
    (rendered prev : Transform float) (dimensions : Dimensions float)
    (e : WheelEvent float) (rect : DOMRect float) :
  let next := handleWheel rendered dimensions e (Some rect) prev in
  let product := scale rendered * (if 0 <? deltaY e then 0.9 else 1.1) in
  let cursor := cursorOnCanvas e rect in
  let before := screenToWorld prev dimensions (fst cursor) (snd cursor) in
  let after := screenToWorld next dimensions (fst cursor) (snd cursor) in
  scale next = float_min (float_max product 0.01) 50
  /\ (if is_nan product then is_nan (scale next) = true
      else (0.01 <=? scale next) = true /\ (scale next <=? 50) = true)
  /\ (wheelDomain prev dimensions e rect = true -> is_nan product = false ->
      (abs (fst after - fst before) <? 0.01) = true
      /\ (abs (snd after - snd before) <? 0.01) = true).
Proof.
  intros next product cursor before after.
  assert (Hscale : scale next = float_min (float_max product 0.01) 50).
  { unfold next, product, handleWheel. cbn [scale js_lt js_mul js_lit float_number
      Math_min Math_max float_of_Z].
    destruct float_decimal_literals as (-> & -> & ->).
    destruct (0 <? deltaY e); reflexivity. }
  split; [exact Hscale|]. split; [rewrite Hscale; apply float_clamped_scale|].
  intros Hdom Hnan.
  pose proof (float_clamped_scale product) as Hclamp. cbv zeta in Hclamp.
  rewrite Hnan, <- Hscale in Hclamp. destruct Hclamp as [Hn1 Hn2].
  unfold wheelDomain in Hdom. rewrite !andb_true_iff in Hdom.
  destruct Hdom as [[[[[[[[[HcX HcY] Hl] Ht] Hw] Hh] HoX] HoY] Hs1] Hs2].
  split.
  - exact (zoom_axis (clientX e) (left rect) (width dimensions) (offsetX prev)
             (scale prev) (scale next) HcX Hl Hw HoX Hs1 Hs2 Hn1 Hn2).
  - exact (zoom_axis (clientY e) (top rect) (height dimensions) (offsetY prev)
             (scale prev) (scale next) HcY Ht Hh HoY Hs1 Hs2 Hn1 Hn2).
Qed.

(** A wheel event over a canvas of 800 by 600 pixels whose view is a
    million pixels off the origin at the smallest scale. *)
Lemma wheel_zoom_clamps_and_recentres_witness :
  let prev := {| offsetX := 1000000; offsetY := -250000; scale := 0.01 |} in
  let dimensions := {| width := 800; height := 600 |} in
  let e := {| deltaY := -100; clientX := 123; clientY := 456 |} in
  let rect := {| left := 8; top := 16 |} in
  let next := handleWheel prev dimensions e (Some rect) prev in
  let cursor := cursorOnCanvas e rect in
  let before := screenToWorld prev dimensions (fst cursor) (snd cursor) in
  let after := screenToWorld next dimensions (fst cursor) (snd cursor) in
  (abs (fst after - fst before) <? 0.01) = true
  /\ (abs (snd after - snd before) <? 0.01) = true.
Proof.
  cbv zeta.
  apply (proj2 (proj2 (wheel_zoom_clamps_and_recentres _ _ _ _ _)));
    vm_compute; reflexivity.
Defined.
End WheelZoomClaim.

(** ** The session map *)

Section SessionMap.
Import UseWebSocket.

(** After the push, [path[path.length - 2]] is the point that was last
    before it, and there is none exactly when the path was empty. *)
Lemma previous_point_after_push {A} (l : list A) (a : A) :
  (if (1 <? length (l ++ [a]))%nat
   then (l ++ [a]) !! (length (l ++ [a]) - 2)%nat
   else None) = last l.
Proof.
  destruct l as [|b l] using rev_ind; [reflexivity|].
  rewrite last_snoc, !length_app. cbn [length].
  replace (1 <? length l + 1 + 1)%nat with true by (symmetry; apply Nat.ltb_lt; lia).
  replace (length l + 1 + 1 - 2)%nat with (length l) by lia.
  rewrite lookup_app_l by (rewrite length_app; cbn; lia).
  apply list_lookup_middle. reflexivity.
Qed.

Lemma appendPoint_distance {num : Type} `{JsNumber num}
    (session : PlayerSession num) (point : RoutePoint num) :
  distanceXZ (stats (appendPoint session point))
  = match last (path session) with
    | Some lastPoint =>
        (distanceXZ (stats session)
         + Math_sqrt ((x point - x lastPoint) * (x point - x lastPoint)
                      + (z point - z lastPoint) * (z point - z lastPoint)))%js
    | None => distanceXZ (stats session)
    end.
Proof.
  unfold appendPoint. cbn [stats distanceXZ].
  rewrite <- (previous_point_after_push (path session) point).
  destruct (1 <? length (path session ++ [point]))%nat eqn:E; [|reflexivity].
  destruct (_ !! _) eqn:E'; [reflexivity|].
  apply lookup_ge_None in E'. apply Nat.ltb_lt in E. lia.
Qed.

Local Open Scope float_scope.

(** C1.  A [route_point] message for a session of the map appends the
    point, sets [lastSeenAt] to its time, adds one to [samples], and adds
    to [distanceXZ] the planar distance from the point that was last
    before, if there was one, and nothing otherwise (at every number
    instance).  In binary64, the points (0,0), (3,4), (3,4) give the
    distance 5 exactly, already after the second point, and a point at
    the finite position of the previous one adds [+0]. *)
Theorem route_point_accumulates :
  (forall (num : Type) (N : JsNumber num) (st : HookState num)
          (sessionId : string) (point : RoutePoint num) (w : option num)
          (session : PlayerSession num),
      sessions st !! sessionId = Some session ->
      exists session',
        sessions (handleMessage (route_point sessionId point w) st) !! sessionId
        = Some session'
        /\ path session' = path session ++ [point]
        /\ lastSeenAt session' = t point
        /\ samples (stats session') = (samples (stats session) + js_lit 1)%js
        /\ distanceXZ (stats session')
           = match last (path session) with
             | Some lastPoint =>
                 (distanceXZ (stats session)
                  + Math_sqrt ((x point - x lastPoint) * (x point - x lastPoint)
                               + (z point - z lastPoint) * (z point - z lastPoint)))%js
             | None => distanceXZ (stats session)
             end)
  /\ (distanceOf (ingest [pointAt 0 0 1]) = Some 0
      /\ distanceOf (ingest [pointAt 0 0 1; pointAt 3 4 2]) = Some 5
      /\ distanceOf (ingest [pointAt 0 0 1; pointAt 3 4 2; pointAt 3 4 3])
         = Some 5)
  /\ (forall (session : PlayerSession float) (lastPoint point : RoutePoint float),
         last (path session) = Some lastPoint ->
         x point = x lastPoint -> z point = z lastPoint ->
         is_finite (x point) = true -> is_finite (z point) = true ->
         distanceXZ (stats (appendPoint session point))
         = distanceXZ (stats session) + 0).
Proof.
  split; [|split].
  - intros num N st sessionId point w session Hs.
    exists (appendPoint session point). split.
    + destruct w; cbn; unfold addRoutePoint; rewrite Hs; apply lookup_insert_eq.
    + repeat split. apply appendPoint_distance.
  - repeat split; vm_compute; reflexivity.
  - intros session lastPoint point Hlast Hx Hz Hfx Hfz.
    rewrite appendPoint_distance, Hlast, <- Hx, <- Hz. cbn.
    rewrite float_distance_to_self by assumption. reflexivity.
Qed.

Lemma route_point_accumulates_witness :
  let st := ingest [pointAt 0 0 1] in
  exists session',
    sessions (handleMessage (route_point "s1" (pointAt 3 4 2) None) st) !! "s1"
    = Some session'
    /\ path session' = [pointAt 0 0 1; pointAt 3 4 2]
    /\ samples (stats session') = 2
    /\ distanceXZ (stats session') = 5.
Proof.
  intros st.
  destruct (proj1 route_point_accumulates float _ st "s1" (pointAt 3 4 2) None
              (appendPoint emptySession (pointAt 0 0 1)))
    as (session' & Hlook & Hpath & _ & Hsamples & Hdist).
  { reflexivity. }
  exists session'. split; [exact Hlook|].
  split; [exact Hpath|]. split; [exact Hsamples|]. exact Hdist.
Defined.

(** What the merge leaves at an id: the entry that was there, and
    otherwise the first historical session that has the id. *)
Lemma mergeHistorical_lookup {num : Type} (data : list (PlayerSession num))
    (prev : gmap string (PlayerSession num)) (S : string) :
  mergeHistorical data prev !! S
  = match prev !! S with
    | Some present => Some present
    | None => List.find (fun s => bool_decide (_id s = S)) data
    end.
Proof.
  unfold mergeHistorical. revert prev.
  induction data as [|a data IH]; intros prev; cbn [fold_left List.find].
  - destruct (prev !! S); reflexivity.
  - rewrite IH. clear IH.
    destruct (decide (_id a = S)) as [<-|Hne].
    + rewrite (bool_decide_eq_true_2 (_id a = _id a)) by reflexivity.
      destruct (prev !! _id a) as [present|] eqn:E.
      * rewrite (bool_decide_eq_true_2 (is_Some (Some present))) by eauto.
        rewrite E. reflexivity.
      * rewrite (bool_decide_eq_false_2 (is_Some None)) by (intros [? ?]; congruence).
        rewrite lookup_insert_eq. reflexivity.
    + rewrite (bool_decide_eq_false_2 (_id a = S)) by assumption.
      destruct (bool_decide (is_Some (prev !! _id a))); [reflexivity|].
      rewrite lookup_insert_ne by assumption. reflexivity.
Qed.

(** C4.  Whatever the historical fetch returns, an entry of the session
    map stays as it is; the [sessions] of the response are inserted only
    at ids that had no entry (the first of each such id); in particular a
    session that a live [session_start] put into the map is still the
    entry of its id after the response. *)
Theorem historical_merge_keeps_present {num : Type} `{JsNumber num}
    (st : HookState num) (S : string) :
  (forall (r : FetchResult num) (present : PlayerSession num),
      sessions st !! S = Some present ->
      sessions (historicalResponse r st) !! S = Some present)
  /\ (forall data : list (PlayerSession num),
         sessions st !! S = None ->
         sessions (historicalResponse (fetch_response true (Some data)) st) !! S
         = List.find (fun s => bool_decide (_id s = S)) data)
  /\ (forall (r : FetchResult num) (live : PlayerSession num),
         sessions (historicalResponse r (handleMessage (session_start live) st))
           !! _id live = Some live).
Proof.
  assert (Hkeep : forall (st' : HookState num) (r : FetchResult num) S' present,
             sessions st' !! S' = Some present ->
             sessions (historicalResponse r st') !! S' = Some present).
  { intros st' r S' present Hs.
    destruct r as [|[|] [data|]]; cbn; try exact Hs.
    rewrite mergeHistorical_lookup, Hs. reflexivity. }
  split; [|split].
  - intros r present. apply Hkeep.
  - intros data Hs. cbn. rewrite mergeHistorical_lookup, Hs. reflexivity.
  - intros r live. apply Hkeep. cbn. apply lookup_insert_eq.
Qed.

Lemma historical_merge_keeps_present_witness :
  let live := appendPoint emptySession (pointAt 3 4 2) in
  let stale := emptySession in
  let st := handleMessage (session_start live) initialState in
  sessions (historicalResponse (fetch_response true (Some [stale])) st) !! "s1"
  = Some live.
Proof.
  intros live stale st.
  apply (proj1 (historical_merge_keeps_present st "s1")).
  reflexivity.
Defined.
End SessionMap.

(** ** The connection *)

Section Backoff.
Import UseWebSocket.
Context {num : Type} `{JsNumber num}.

Lemma clearTimeout_delays (id : nat) (st : HookState num) :
  map delay (timers (clearTimeout id st)) = map delay (timers st).
Proof.
  unfold clearTimeout. destruct (timers st !! id) as [tm|] eqn:E; [|reflexivity].
  cbn. change (map delay ?l) with (delay <$> l).
  rewrite list_fmap_insert. apply list_insert_id.
  rewrite list_lookup_fmap, E. reflexivity.
Qed.

Lemma clearTimeout_attempts (id : nat) (st : HookState num) :
  reconnectAttemptsRef (clearTimeout id st) = reconnectAttemptsRef st.
Proof. unfold clearTimeout. destruct (timers st !! id); reflexivity. Qed.

Lemma ws_close_unchanged (ws : nat) (st : HookState num) :
  timers (ws_close ws st) = timers st
  /\ reconnectAttemptsRef (ws_close ws st) = reconnectAttemptsRef st.
Proof. unfold ws_close. destruct (sockets st !! ws) as [[]|]; split; reflexivity. Qed.

Lemma connect_unchanged (st : HookState num) :
  timers (connect st) = timers st
  /\ reconnectAttemptsRef (connect st) = reconnectAttemptsRef st.
Proof. unfold connect. destruct (bool_decide _); split; reflexivity. Qed.

Lemma disconnect_unchanged (st : HookState num) :
  map delay (timers (disconnect st)) = map delay (timers st)
  /\ reconnectAttemptsRef (disconnect st) = reconnectAttemptsRef st.
Proof.
  unfold disconnect.
  set (st1 := match reconnectTimeoutRef st with
              | Some id => clearTimeout id st
              | None => st
              end).
  assert (H1 : map delay (timers st1) = map delay (timers st)
               /\ reconnectAttemptsRef st1 = reconnectAttemptsRef st).
  { unfold st1. destruct (reconnectTimeoutRef st); [|split; reflexivity].
    split; [apply clearTimeout_delays|apply clearTimeout_attempts]. }
  destruct H1 as [Ht Ha].
  destruct (wsRef st1) as [ws|]; [|split; assumption].
  destruct (ws_close_unchanged ws st1) as [-> ->]. split; assumption.
Qed.

Lemma handleMessage_unchanged (message : WebSocketMessage num) (st : HookState num) :
  timers (handleMessage message st) = timers st
  /\ reconnectAttemptsRef (handleMessage message st) = reconnectAttemptsRef st.
Proof.
  destruct message as [a w|s|i e s|i p w|w|b m]; cbn;
    unfold fetchHistoricalSessions, setWorldTime_if_number;
    repeat match goal with
           | |- context [match ?w with Some _ => _ | None => _ end] => destruct w
           | |- context [if ?b then _ else _] => destruct b
           end; split; reflexivity.
Qed.

(** One event that is not an [open]: a [close] sets one timer, with the
    delay of the counter, and adds one to the counter; any other event
    leaves both alone. *)
Lemma step_schedule (st st' : HookState num) (ev : Event num) :
  isOpened ev = false ->
  step st ev = Some st' ->
  map delay (timers st')
  = map delay (timers st)
    ++ (if isClosed ev then [backoffDelay (reconnectAttemptsRef st)] else [])
  /\ reconnectAttemptsRef st'
     = (reconnectAttemptsRef st + (if isClosed ev then 1 else 0))%nat.
Proof.
  intros Hopen Hstep.
  destruct ev as [| | | |ws|ws|ws data|id|r]; cbn [isOpened] in Hopen;
    try discriminate; cbn [step] in Hstep;
    cbn [isClosed]; rewrite ?app_nil_r, ?Nat.add_0_r.
  - injection Hstep as <-. destruct (connect_unchanged st) as [-> ->]. auto.
  - injection Hstep as <-. apply disconnect_unchanged.
  - injection Hstep as <-. unfold reconnect.
    destruct (connect_unchanged st) as [-> ->]. auto.
  - injection Hstep as <-. apply disconnect_unchanged.
  - destruct (readyState st ws) as [[]|]; try discriminate;
      injection Hstep as <-; cbn; rewrite map_app; split; (reflexivity || lia).
  - destruct (readyState st ws) as [[]|]; try discriminate.
    injection Hstep as <-. destruct data as [message|]; [|auto].
    cbn. destruct (handleMessage_unchanged message st) as [-> ->]. auto.
  - destruct (timers st !! id) as [tm|] eqn:E; [|discriminate].
    destruct (pending tm); [|discriminate]. injection Hstep as <-.
    destruct (connect_unchanged (clearTimeout id st)) as [-> ->].
    split; [apply clearTimeout_delays|apply clearTimeout_attempts].
  - destruct (fetches st) as [|n]; [discriminate|]. injection Hstep as <-.
    destruct r as [|[|] [data|]]; cbn; auto.
Qed.

(** A trace without an [open]: the timers set are those of its [close]
    events, with the delays of the consecutive values of the counter. *)
Lemma run_schedule (evs : list (Event num)) (st st' : HookState num) :
  forallb (fun ev => negb (isOpened ev)) evs = true ->
  run st evs = Some st' ->
  map delay (timers st')
  = map delay (timers st)
    ++ map backoffDelay (seq (reconnectAttemptsRef st) (closes evs))
  /\ reconnectAttemptsRef st' = (reconnectAttemptsRef st + closes evs)%nat.
Proof.
  revert st. induction evs as [|ev evs IH]; intros st Hno Hrun.
  - injection Hrun as <-. cbn. rewrite app_nil_r, Nat.add_0_r. auto.
  - cbn in Hno. apply andb_true_iff in Hno as [Hev Hno].
    apply negb_true_iff in Hev.
    cbn in Hrun. destruct (step st ev) as [st1|] eqn:Hstep; [|discriminate].
    destruct (step_schedule st st1 ev Hev Hstep) as [Ht Ha].
    destruct (IH st1 Hno Hrun) as [Ht' Ha'].
    rewrite Ht', Ha', Ht, Ha. unfold closes. cbn [List.filter].
    destruct (isClosed ev); cbn [length seq map].
    + rewrite <- app_assoc. cbn. rewrite Nat.add_1_r. split; [reflexivity|lia].
    + rewrite app_nil_r, Nat.add_0_r. auto.
Qed.

Lemma scheduledDelays_run (evs : list (Event num)) (st st' : HookState num) :
  forallb (fun ev => negb (isOpened ev)) evs = true ->
  run st evs = Some st' ->
  scheduledDelays st st'
  = map backoffDelay (seq (reconnectAttemptsRef st) (closes evs)).
Proof.
  intros Hno Hrun. unfold scheduledDelays.
  destruct (run_schedule evs st st' Hno Hrun) as [-> _].
  rewrite <- (length_map delay (timers st)). apply drop_app_length.
Qed.

Lemma backoffDelay_capped (n : nat) : (5 <= n)%nat -> backoffDelay n = 30000%Z.
Proof.
  intros Hn. unfold backoffDelay. apply Z.min_r.
  assert (2 ^ 5 <= 2 ^ Z.of_nat n)%Z by (apply Z.pow_le_mono_r; lia).
  lia.
Qed.
End Backoff.

Section BackoffClaim.
Import UseWebSocket.

(** C2.  From a state whose backoff counter is zero (the initial state,
    or a state right after a successful [open], which resets the counter)
    every trace of events without an [open] sets exactly one timer per
    [close], and the delays of these timers are, in order,
    [min (1000 * 2^n) 30000] for n = 0, 1, 2, ...: 1000, 2000, 4000,
    8000, 16000 and then 30000 for good. *)
Theorem reconnect_backoff :
  (forall (num : Type) (N : JsNumber num) (st st' : HookState num)
          (evs : list (Event num)),
      reconnectAttemptsRef st = 0%nat ->
      forallb (fun ev => negb (isOpened ev)) evs = true ->
      run st evs = Some st' ->
      scheduledDelays st st'
      = map (fun n => Z.min (1000 * 2 ^ Z.of_nat n) 30000) (seq 0 (closes evs)))
  /\ (forall (num : Type) (N : JsNumber num) (st opened : HookState num) (ws : nat),
         step st (Opened ws) = Some opened ->
         reconnectAttemptsRef opened = 0%nat)
  /\ (forall (num : Type), reconnectAttemptsRef (@initialState num) = 0%nat)
  /\ map backoffDelay (seq 0 7)
     = [1000; 2000; 4000; 8000; 16000; 30000; 30000]%Z
  /\ (forall n : nat, (5 <= n)%nat -> backoffDelay n = 30000%Z).
Proof.
  repeat split.
  - intros num N st st' evs H0 Hno Hrun.
    rewrite (scheduledDelays_run evs st st' Hno Hrun), H0. reflexivity.
  - intros num N st opened ws Hstep. cbn in Hstep.
    destruct (readyState st ws) as [[]|]; try discriminate.
    injection Hstep as <-. reflexivity.
  - exact backoffDelay_capped.
Qed.

Lemma reconnect_backoff_witness :
  run initialState [Mount; Opened 0] = Some connectedState
  /\ exists st' : HookState float,
      run connectedState droppedThenFailing = Some st'
      /\ scheduledDelays connectedState st' = [1000; 2000; 4000; 8000]%Z.
Proof.
  split; [vm_compute; reflexivity|].
  eexists. split; [vm_compute; reflexivity|].
  match goal with
  | |- scheduledDelays _ ?st' = _ =>
      rewrite (proj1 reconnect_backoff float _ connectedState st'
                 droppedThenFailing)
  end; vm_compute; reflexivity.
Defined.
End BackoffClaim.

(** ** Chevrons *)

Section Chevrons.
Import MapCanvas.
Local Open Scope R_scope.

(** The chevrons use up the accumulated distance: each one stands for at
    least [minPixelDistance] pixels of path that no other one counts. *)
Lemma chevronsFrom_length (toScreen : R -> R -> R * R)
    (rest : list (RoutePoint R)) (prev : RoutePoint R) (acc : R) :
  0 <= acc ->
  INR (length (chevronsFrom toScreen prev rest acc)) * 60
  <= acc + screenLengthFrom toScreen prev rest
  /\ (length (chevronsFrom toScreen prev rest acc) <= length rest)%nat.
Proof.
  revert prev acc. induction rest as [|p rest IH]; intros prev acc Hacc.
  - cbn. split; [lra|lia].
  - cbn [chevronsFrom screenLengthFrom].
    destruct (toScreen (x prev) (z prev)) as [x1 y1].
    destruct (toScreen (x p) (z p)) as [x2 y2].
    unfold minPixelDistance.
    cbn [js_add js_sub js_mul js_le js_lit Math_sqrt real_number].
    set (seg := sqrt ((x2 - x1) * (x2 - x1) + (y2 - y1) * (y2 - y1))).
    assert (Hseg : 0 <= seg) by apply sqrt_pos.
    unfold Rleb.
    destruct (Rle_dec 60 (acc + seg)) as [Hge|Hlt].
    + destruct (IH p 0 (Rle_refl 0)) as [IHl IHn].
      cbv iota beta. cbn [length]. rewrite S_INR. split; [lra|lia].
    + destruct (IH p (acc + seg)) as [IHl IHn]; [lra|].
      cbv iota beta. cbn [length]. split; [lra|lia].
Qed.

(** Over the real numbers, the chevrons drawn for the selected session
    number at most [floor (L / 60)], where [L] is the screen length of its
    path in the dimension, and at most the number of segments of that
    path. *)
Lemma chevron_count_at_most_floor (session : PlayerSession R) (isSelected : bool)
    (toScreen : R -> R -> R * R) (dimensionFilter : string)
    (settings : MapDisplaySettings) :
  let chevrons :=
    drawRoute_chevrons session isSelected toScreen dimensionFilter settings in
  match List.filter (inDim dimensionFilter) (path session) with
  | [] => chevrons = []
  | p0 :: rest =>
      (Z.of_nat (length chevrons)
       <= Zfloor (screenLengthFrom toScreen p0 rest / 60)%R)%Z
      /\ (length chevrons <= length rest)%nat
  end.
Proof.
  intros chevrons. subst chevrons. unfold drawRoute_chevrons.
  destruct (List.filter (inDim dimensionFilter) (path session)) as [|p0 rest] eqn:E.
  - repeat match goal with |- context [if ?b then _ else _] => destruct b end;
      reflexivity.
  - assert (Hall : (Z.of_nat (length (chevronsFrom toScreen p0 rest 0%R))
                    <= Zfloor (screenLengthFrom toScreen p0 rest / 60)%R)%Z
                   /\ (length (chevronsFrom toScreen p0 rest 0%R) <= length rest)%nat).
    { destruct (chevronsFrom_length toScreen rest p0 0 (Rle_refl 0)) as [Hl Hn].
      split; [|exact Hn].
      apply Zfloor_lub. rewrite <- INR_IZR_INZ. lra. }
    assert (Hnone : (Z.of_nat (@length (R * R) [])
                     <= Zfloor (screenLengthFrom toScreen p0 rest / 60)%R)%Z
                    /\ (@length (R * R) [] <= length rest)%nat).
    { split; [|cbn; lia]. apply Zfloor_lub.
      change (IZR (Z.of_nat (@length (R * R) []))) with 0.
      destruct (chevronsFrom_length toScreen rest p0 0 (Rle_refl 0)) as [Hl _].
      pose proof (pos_INR (length (chevronsFrom toScreen p0 rest 0))). lra. }
    cbn [js_lit real_number].
    repeat match goal with |- context [if ?b then _ else _] => destruct b end;
      assumption.
Qed.
End Chevrons.

Section ChevronStretches.
Import MapCanvas.
Context {num : Type} `{JsNumber num}.
Local Open Scope js_scope.

Lemma accumulated_cons (toScreen : num -> num -> num * num) (acc : num)
    (segment : RoutePoint num * RoutePoint num)
    (stretch : list (RoutePoint num * RoutePoint num)) :
  accumulated toScreen acc (segment :: stretch)
  = accumulated toScreen (acc + segmentDistance toScreen segment) stretch.
Proof. reflexivity. Qed.

(** The loop from the accumulated distance [acc] on: the first stretch
    counts from [acc], every later one from zero. *)
Lemma chevronsFrom_stretches (toScreen : num -> num -> num * num)
    (rest : list (RoutePoint num)) (prev : RoutePoint num) (acc : num) :
  exists stretches remainder,
    segmentsFrom prev rest = concat stretches ++ remainder
    /\ Forall2 (chevronAt toScreen) (chevronsFrom toScreen prev rest acc) stretches
    /\ match stretches with
       | [] => earnsNone toScreen acc remainder
       | first :: others =>
           earnsChevron toScreen acc first
           /\ Forall (earnsChevron toScreen (js_lit 0)) others
           /\ earnsNone toScreen (js_lit 0) remainder
       end.
Proof.
  revert prev acc. induction rest as [|p rest IH]; intros prev acc.
  - exists [], []. split; [reflexivity|]. split; [constructor|].
    intros before after Heq Hne. destruct before; [contradiction|discriminate].
  - cbn [chevronsFrom segmentsFrom].
    assert (Hdist : segmentDistance toScreen (prev, p)
                    = let '(x1, y1) := toScreen (x prev) (z prev) in
                      let '(x2, y2) := toScreen (x p) (z p) in
                      Math_sqrt ((x2 - x1) * (x2 - x1) + (y2 - y1) * (y2 - y1)))
      by reflexivity.
    assert (Hmid : segmentMidpoint toScreen (prev, p)
                   = let '(x1, y1) := toScreen (x prev) (z prev) in
                     let '(x2, y2) := toScreen (x p) (z p) in
                     ((x1 + x2) / js_lit 2, (y1 + y2) / js_lit 2))
      by reflexivity.
    destruct (toScreen (x prev) (z prev)) as [x1 y1].
    destruct (toScreen (x p) (z p)) as [x2 y2].
    rewrite <- Hdist. clear Hdist.
    destruct (acc + segmentDistance toScreen (prev, p) >=? minPixelDistance) eqn:Hreach.
    + destruct (IH p (js_lit 0)) as (stretches & remainder & Hsegs & Hchevrons & Hearn).
      exists ([(prev, p)] :: stretches), remainder.
      split; [cbn; rewrite Hsegs; reflexivity|]. split.
      * constructor; [|exact Hchevrons].
        exists (prev, p). split; [reflexivity|]. rewrite Hmid. reflexivity.
      * split.
        { split; [discriminate|]. split; [exact Hreach|].
          intros before after Heq Hb Ha.
          destruct before as [|b [|b' before]]; [contradiction| |discriminate].
          destruct after; [contradiction|discriminate]. }
        destruct stretches as [|first others]; [split; [constructor|exact Hearn]|].
        destruct Hearn as (Hfirst & Hothers & Hrem).
        split; [constructor; assumption|exact Hrem].
    + destruct (IH p (acc + segmentDistance toScreen (prev, p)))
        as (stretches & remainder & Hsegs & Hchevrons & Hearn).
      destruct stretches as [|first others].
      * exists [], ((prev, p) :: remainder).
        split; [cbn; rewrite Hsegs; reflexivity|]. split; [exact Hchevrons|].
        intros before after Heq Hb.
        destruct before as [|b before]; [contradiction|].
        injection Heq as <- Heq. rewrite accumulated_cons.
        destruct before as [|b' before]; [exact Hreach|].
        apply (Hearn (b' :: before) after Heq). discriminate.
      * destruct Hearn as ((Hne & Hlast & Hbefore) & Hothers & Hrem).
        exists (((prev, p) :: first) :: others), remainder.
        split; [cbn; rewrite Hsegs; reflexivity|]. split.
        { inversion Hchevrons as [|chevron ? chevrons ? Hchevron Hrest]; subst.
          destruct Hchevron as (segment & Hseg & Hc).
          constructor; [|exact Hrest].
          exists segment. split; [|exact Hc].
          destruct first as [|f first]; [contradiction|].
          rewrite last_cons_cons. exact Hseg. }
        split; [|split; assumption].
        split; [discriminate|]. split; [rewrite accumulated_cons; exact Hlast|].
        intros before after Heq Hb Ha.
        destruct before as [|b before]; [contradiction|].
        injection Heq as <- Heq. rewrite accumulated_cons.
        destruct before as [|b' before]; [exact Hreach|].
        apply (Hbefore (b' :: before) after Heq); [discriminate|exact Ha].
Qed.

Lemma concat_length_le {A : Type} (stretches : list (list A)) :
  Forall (fun stretch => stretch <> []) stretches ->
  (length stretches <= length (concat stretches))%nat.
Proof.
  induction 1 as [|stretch stretches Hne _ IH]; [cbn; lia|].
  cbn. rewrite length_app. destruct stretch; [contradiction|]. cbn. lia.
Qed.

Lemma segmentsFrom_length (rest : list (RoutePoint num)) (prev : RoutePoint num) :
  length (segmentsFrom prev rest) = length rest.
Proof.
  revert prev. induction rest as [|p rest IH]; intros prev; [reflexivity|].
  cbn. rewrite IH. reflexivity.
Qed.

(** The loop as [drawRoute] starts it, from zero. *)
Lemma chevronsFrom_zero (toScreen : num -> num -> num * num)
    (rest : list (RoutePoint num)) (p0 : RoutePoint num) :
  exists stretches remainder,
    segmentsFrom p0 rest = concat stretches ++ remainder
    /\ Forall2 (chevronAt toScreen) (chevronsFrom toScreen p0 rest (js_lit 0)) stretches
    /\ Forall (earnsChevron toScreen (js_lit 0)) stretches
    /\ earnsNone toScreen (js_lit 0) remainder
    /\ (length (chevronsFrom toScreen p0 rest (js_lit 0)) <= length rest)%nat.
Proof.
  destruct (chevronsFrom_stretches toScreen rest p0 (js_lit 0))
    as (stretches & remainder & Hsegs & Hchevrons & Hearn).
  assert (Hall : Forall (earnsChevron toScreen (js_lit 0)) stretches
                 /\ earnsNone toScreen (js_lit 0) remainder).
  { destruct stretches as [|first others]; [split; [constructor|exact Hearn]|].
    destruct Hearn as (Hfirst & Hothers & Hrem).
    split; [constructor; assumption|exact Hrem]. }
  destruct Hall as [Hstretches Hrem].
  exists stretches, remainder.
  split; [exact Hsegs|]. split; [exact Hchevrons|].
  split; [exact Hstretches|]. split; [exact Hrem|].
  rewrite (Forall2_length _ _ _ Hchevrons), <- (segmentsFrom_length rest p0), Hsegs.
  rewrite length_app.
  assert (Hle : (length stretches <= length (concat stretches))%nat).
  { apply concat_length_le. eapply Forall_impl; [exact Hstretches|].
    intros stretch [Hne _]. exact Hne. }
  lia.
Qed.

(** C5, as the code has it, at every number instance (binary64 among
    them).  When the arrows of a route are drawn (the session is selected,
    [showArrows] is on, and the session is active or inactive paths are
    shown), the segments of its path in the dimension divide into
    consecutive stretches and a remainder: every stretch has its chevron
    at the midpoint of its last segment, where the distance accumulated
    from zero over the stretch reaches [minPixelDistance] and at no
    segment of the stretch before; over the remainder it is never
    reached.  These are all the chevrons, so there are no more of them
    than segments.  Otherwise no chevron is drawn. *)
Theorem chevrons_by_stretches (session : PlayerSession num) (isSelected : bool)
    (toScreen : num -> num -> num * num) (dimensionFilter : string)
    (settings : MapDisplaySettings) :
  let chevrons :=
    drawRoute_chevrons session isSelected toScreen dimensionFilter settings in
  let arrowsDrawn :=
    (active session || showInactivePaths settings)
    && isSelected && showArrows settings in
  match List.filter (inDim dimensionFilter) (path session) with
  | [] => chevrons = []
  | p0 :: rest =>
      if arrowsDrawn then
        exists stretches remainder,
          segmentsFrom p0 rest = concat stretches ++ remainder
          /\ Forall2 (chevronAt toScreen) chevrons stretches
          /\ Forall (earnsChevron toScreen (js_lit 0)) stretches
          /\ earnsNone toScreen (js_lit 0) remainder
          /\ (length chevrons <= length rest)%nat
      else chevrons = []
  end.
Proof.
  intros chevrons arrowsDrawn. subst chevrons arrowsDrawn.
  unfold drawRoute_chevrons. cbv zeta.
  destruct (List.filter (inDim dimensionFilter) (path session)) as [|p0 rest] eqn:E.
  - repeat match goal with |- context [if ?b then _ else _] => destruct b end;
      reflexivity.
  - assert (Hpath : Nat.eqb (length (path session)) 0 = false).
    { destruct (path session); [discriminate|reflexivity]. }
    rewrite Hpath.
    assert (Hdrawn : (if isSelected && (2 <=? length (p0 :: rest))%nat
                         && showArrows settings
                      then chevronsFrom toScreen p0 rest (js_lit 0) else [])
                     = if isSelected && showArrows settings
                       then chevronsFrom toScreen p0 rest (js_lit 0) else []).
    { destruct rest; destruct isSelected, (showArrows settings); reflexivity. }
    rewrite Hdrawn. clear Hdrawn.
    destruct (active session), (showInactivePaths settings), isSelected,
      (showArrows settings); cbn [negb andb orb];
      first [reflexivity | apply chevronsFrom_zero].
Qed.
End ChevronStretches.

Section ChevronSampling.
Import MapCanvas.
Local Open Scope float_scope.

(** C5 fails as stated: the two samplings of one straight line of screen
    length 120 get one and two chevrons, and [floor (120 / 60)] is 2. *)
Lemma chevron_count_depends_on_sampling :
  screenLengthOf sparseLine = 120
  /\ screenLengthOf denseLine = 120
  /\ (120 / 60 = 2)
  /\ length (chevronsOf sparseLine) = 1%nat
  /\ length (chevronsOf denseLine) = 2%nat
  /\ length (chevronsOf sparseLine) <> length (chevronsOf denseLine).
Proof. repeat split; try (vm_compute; reflexivity). vm_compute. discriminate. Qed.
End ChevronSampling.

(** ** World bounds *)

Section Bounds.
Import MapCanvas.
Context {engine : JsEngine}.
Local Open Scope float_scope.

(** C6 fails on the code.  After the tile of chunk (0,0) the bounds are
    [0,16] x [0,16]; the historical sessions that arrive next replace them
    by [4900,5100] x [4900,5100], which does not include what the bounds
    were after the prefix. *)
Theorem history_seed_drops_tile_bounds :
  let afterTile := worldBounds (observeAll initialView (take 1 tileThenHistory)) in
  let afterAll := worldBounds (observeAll initialView tileThenHistory) in
  afterTile = {| minX := 0; maxX := 16; minZ := 0; maxZ := 16; initialized := true |}
  /\ afterAll = {| minX := 4900; maxX := 5100; minZ := 4900; maxZ := 5100;
                  initialized := true |}
  /\ includes afterAll afterTile = false.
Proof. destruct engine as [[limit|limit|]]; repeat split; vm_compute; reflexivity. Qed.

(** The assignment of the effect does not read the bounds it replaces:
    with a point in the dimension, the seeded bounds are the same whatever
    the bounds were. *)
Lemma seededBounds_ignores_previous {num : Type} `{JsNumber num}
    (sessions : list (PlayerSession num)) (d : string) (b b' : WorldBounds num) :
  flat_map (fun s => List.filter (inDim d) (path s)) sessions <> [] ->
  seededBounds sessions d b = seededBounds sessions d b'.
Proof.
  unfold seededBounds. intros Hpoints.
  destruct (flat_map _ sessions); [congruence|reflexivity].
Qed.
End Bounds.

Section TileBounds.
Import MapCanvas.
Context {engine : JsEngine}.
Local Open Scope R_scope.

Lemma includes_true (outer inner : WorldBounds R) :
  includes outer inner = true <->
  (initialized inner = true ->
   initialized outer = true
   /\ minX outer <= minX inner /\ maxX inner <= maxX outer
   /\ minZ outer <= minZ inner /\ maxZ inner <= maxZ outer).
Proof.
  unfold includes. cbn [js_le real_number]. unfold Rleb.
  destruct (initialized inner), (initialized outer); cbn [negb orb andb];
    repeat match goal with |- context [Rle_dec ?a ?b] => destruct (Rle_dec a b) end;
    cbn [andb]; split; intros Hyp; try reflexivity; try discriminate;
    try (intros _; repeat split; (reflexivity || assumption));
    try (destruct (Hyp eq_refl) as (? & ? & ? & ? & ?); (discriminate || lra)).
Qed.

(** The path that [loadTile] takes is a union: one more tile never
    shrinks the bounds. *)
Lemma tile_onload_includes (b : WorldBounds R) (chunkX chunkZ : R)
    (naturalWidth naturalHeight : Z) :
  includes (tile_onload b chunkX chunkZ naturalWidth naturalHeight) b = true.
Proof.
  apply includes_true. intros Hinit. unfold tile_onload.
  destruct ((naturalWidth <=? 1)%Z || (naturalHeight <=? 1)%Z).
  - rewrite Hinit. repeat split; apply Rle_refl.
  - rewrite Hinit. cbn [negb initialized minX maxX minZ maxZ Math_min Math_max real_number].
    repeat split; try reflexivity;
      first [apply Rmin_l | apply Rmax_l].
Qed.

Lemma includes_trans (a b c : WorldBounds R) :
  includes a b = true -> includes b c = true -> includes a c = true.
Proof.
  rewrite !includes_true. intros Hab Hbc Hc.
  destruct (Hbc Hc) as (Hb & ? & ? & ? & ?).
  destruct (Hab Hb) as (Ha & ? & ? & ? & ?).
  repeat split; (assumption || lra).
Qed.

Lemma includes_refl (a : WorldBounds R) : includes a a = true.
Proof. apply includes_true. intros Ha. repeat split; (assumption || apply Rle_refl). Qed.

(** Over the real numbers, the bounds after a sequence of tile loads
    include the bounds after each of its prefixes. *)
Lemma tile_loads_only_grow (st : ViewState R) (before after : list (Observation R)) :
  forallb isTileLoaded after = true ->
  includes (worldBounds (observeAll st (before ++ after)))
           (worldBounds (observeAll st before)) = true.
Proof.
  unfold observeAll. rewrite fold_left_app.
  generalize (fold_left observe before st). clear st before.
  induction after as [|o after IH]; intros st Hall; [apply includes_refl|].
  cbn in Hall. apply andb_true_iff in Hall as [Ho Hall].
  cbn [fold_left]. eapply includes_trans; [apply IH, Hall|].
  destruct o; [|discriminate]. cbn [observe worldBounds].
  apply tile_onload_includes.
Qed.
End TileBounds.

(** ** Reconnecting, tearing down, connecting twice *)

Section ConnectionDefects.
Import UseWebSocket.

(** C3 fails on the code: the [reconnect] the hook returns is [connect].
    On an open connection it does nothing, so the connection is not
    closed and no fresh one is attempted; with a retry pending it opens a
    socket but neither cancels the timer nor resets the counter, and the
    timer then opens a second socket beside the first. *)
Theorem reconnect_is_connect :
  run initialState [Mount; Opened 0] = Some connectedState
  /\ reconnect connectedState = connectedState
  /\ run initialState [Mount; Closed 0] = Some retryPending
  /\ pendingTimers (reconnect retryPending) = [0%nat]
  /\ reconnectAttemptsRef (reconnect retryPending) = 1%nat
  /\ liveSockets (reconnect retryPending) = [1%nat]
  /\ (liveSockets <$> step (reconnect retryPending) (TimerFired 0))
     = Some [1%nat; 2%nat].
Proof. repeat split; vm_compute; reflexivity. Qed.

(** C8 fails on the code: the cleanup of the effect (and [disconnect],
    which has the same body) closes the socket, and the [close] event that
    follows runs [ws.onclose], which sets the retry timer as for any other
    close; when the timer fires a new socket is opened. *)
Theorem teardown_schedules_reconnect :
  disconnect connectedState
  = set_sockets [CLOSING] connectedState
  /\ (pendingTimers <$> run connectedState [Unmount; Closed 0]) = Some [0%nat]
  /\ (map delay <$> (timers <$> run connectedState [Unmount; Closed 0]))
     = Some [1000%Z]
  /\ (liveSockets <$> run connectedState [Unmount; Closed 0; TimerFired 0])
     = Some [1%nat]
  /\ run connectedState [CallDisconnect; Closed 0; TimerFired 0]
     = run connectedState [Unmount; Closed 0; TimerFired 0].
Proof. repeat split; vm_compute; reflexivity. Qed.

(** C9 fails on the code: [connect] returns early only when the socket of
    [wsRef] is open.  Called again while the first socket is still
    connecting, it creates a second socket and both attempts are in
    flight. *)
Theorem connect_while_connecting :
  (sockets <$> run (@initialState float) [Mount]) = Some [CONNECTING]
  /\ (sockets <$> run (@initialState float) [Mount; CallReconnect])
     = Some [CONNECTING; CONNECTING]
  /\ (liveSockets <$> run (@initialState float) [Mount; CallReconnect])
     = Some [0%nat; 1%nat]
  /\ (wsRef <$> run (@initialState float) [Mount; CallReconnect])
     = Some (Some 1%nat).
Proof. repeat split; vm_compute; reflexivity. Qed.

(** What [connect] does ignore: a call while the socket of [wsRef] is
    open. *)
Lemma connect_while_open {num : Type} (st : HookState num) (ws : nat) :
  wsRef st = Some ws -> readyState st ws = Some OPEN -> connect st = st.
Proof.
  intros Href Hopen. unfold connect.
  rewrite bool_decide_eq_true_2; [reflexivity|].
  rewrite Href. exact Hopen.
Qed.
(** A call while the socket of [wsRef] is still connecting is not ignored:
    one more socket is created, and [wsRef] moves to it. *)
Lemma connect_while_connecting_creates {num : Type} (st : HookState num) (ws : nat) :
  wsRef st = Some ws -> readyState st ws = Some CONNECTING ->
  sockets (connect st) = sockets st ++ [CONNECTING]
  /\ wsRef (connect st) = Some (length (sockets st)).
Proof.
  intros Href Hconn. unfold connect.
  rewrite bool_decide_eq_false_2; [split; reflexivity|].
  rewrite Href. cbn. rewrite Hconn. discriminate.
Qed.

(** Every [close] event sets a retry timer, whatever preceded it. *)
Lemma close_always_schedules {num : Type} `{JsNumber num}
    (st st' : HookState num) (ws : nat) :
  step st (Closed ws) = Some st' ->
  timers st' = timers st ++ [{| delay := backoffDelay (reconnectAttemptsRef st);
                                pending := true |}]
  /\ reconnectTimeoutRef st' = Some (length (timers st)).
Proof.
  cbn [step]. intros Hstep.
  destruct (readyState st ws) as [[]|]; try discriminate;
    injection Hstep as <-; split; reflexivity.
Qed.
End ConnectionDefects.

(** * Further properties of the canvas *)

Section CanvasGeometry.
Import MapCanvas.
Local Open Scope R_scope.

(** X1.  Over the real numbers and for a scale other than zero,
    [screenToWorld] and [worldToScreen] are inverse to each other, both
    ways round. *)
Theorem screen_world_round_trip (transform : Transform R)
    (dimensions : Dimensions R) (a b : R) :
  scale transform <> 0 ->
  screenToWorld transform dimensions
    (fst (worldToScreen transform dimensions a b))
    (snd (worldToScreen transform dimensions a b)) = (a, b)
  /\ worldToScreen transform dimensions
       (fst (screenToWorld transform dimensions a b))
       (snd (screenToWorld transform dimensions a b)) = (a, b).
Proof.
  intros Hs. unfold screenToWorld, worldToScreen; cbn.
  split; f_equal; field; exact Hs.
Qed.

Lemma screen_world_round_trip_witness :
  let transform := {| offsetX := 30; offsetY := -12; scale := 2 |} in
  let dimensions := {| width := 800; height := 600 |} in
  screenToWorld transform dimensions
    (fst (worldToScreen transform dimensions 5 7))
    (snd (worldToScreen transform dimensions 5 7)) = (5, 7)
  /\ worldToScreen transform dimensions
       (fst (screenToWorld transform dimensions 5 7))
       (snd (screenToWorld transform dimensions 5 7)) = (5, 7).
Proof.
  intros transform dimensions.
  apply (screen_world_round_trip transform dimensions 5 7). cbn. lra.
Defined.

(** X2.  Over the real numbers, a double click keeps the scale and moves
    the world point that was under the cursor to the centre of the
    viewport. *)
Theorem double_click_recentres (transform : Transform R)
    (dimensions : Dimensions R) (eX eY : R) (rect : DOMRect R) :
  let next := handleDoubleClick transform dimensions eX eY (Some rect) transform in
  let clicked :=
    screenToWorld transform dimensions (eX - left rect) (eY - top rect) in
  scale next = scale transform
  /\ worldToScreen next dimensions (fst clicked) (snd clicked)
     = (width dimensions / 2, height dimensions / 2).
Proof.
  unfold handleDoubleClick, screenToWorld, worldToScreen; cbn.
  split; [reflexivity|]. f_equal; ring.
Qed.

(** Clamping a value into an interval. *)
Lemma clamp_between (lo hi c : R) :
  lo <= hi -> lo <= Rmax lo (Rmin hi c) <= hi.
Proof.
  intros Hlh. split; [apply Rmax_l|].
  apply Rmax_lub; [exact Hlh|apply Rmin_l].
Qed.

Lemma clamp_inside (lo hi c : R) : lo <= c <= hi -> Rmax lo (Rmin hi c) = c.
Proof.
  intros [Hl Hh]. rewrite Rmin_right by exact Hh. apply Rmax_right. exact Hl.
Qed.

Lemma clamped_centre_confined (bounds : WorldBounds R)
    (newTransform : Transform R) :
  initialized bounds = true ->
  scale newTransform <> 0 ->
  minX bounds - 100 <= maxX bounds + 100 ->
  minZ bounds - 100 <= maxZ bounds + 100 ->
  let clamped := clampTransform bounds newTransform in
  let centreX (tr : Transform R) := - offsetX tr / scale tr in
  let centreZ (tr : Transform R) := - offsetY tr / scale tr in
  scale clamped = scale newTransform
  /\ minX bounds - 100 <= centreX clamped <= maxX bounds + 100
  /\ minZ bounds - 100 <= centreZ clamped <= maxZ bounds + 100
  /\ (forall tr : Transform R,
         scale tr <> 0 ->
         minX bounds - 100 <= centreX tr <= maxX bounds + 100 ->
         minZ bounds - 100 <= centreZ tr <= maxZ bounds + 100 ->
         clampTransform bounds tr = tr).
Proof.
  intros Hinit Hs HX HZ clamped centreX centreZ.
  assert (Hcx : centreX clamped
                = Rmax (minX bounds - 100) (Rmin (maxX bounds + 100) (centreX newTransform))).
  { unfold centreX, clamped, clampTransform. rewrite Hinit. cbn. field. exact Hs. }
  assert (Hcz : centreZ clamped
                = Rmax (minZ bounds - 100) (Rmin (maxZ bounds + 100) (centreZ newTransform))).
  { unfold centreZ, clamped, clampTransform. rewrite Hinit. cbn. field. exact Hs. }
  split; [unfold clamped, clampTransform; rewrite Hinit; reflexivity|].
  split; [rewrite Hcx; apply clamp_between; exact HX|].
  split; [rewrite Hcz; apply clamp_between; exact HZ|].
  intros tr Hs' Hx Hz. unfold clampTransform. rewrite Hinit. cbn.
  fold (centreX tr) (centreZ tr).
  rewrite (clamp_inside _ _ _ Hx), (clamp_inside _ _ _ Hz).
  destruct tr as [ox oy sc]. unfold centreX, centreZ in *. cbn in *.
  f_equal; field; exact Hs'.
Qed.

(** X3.  Over the real numbers, with initialized bounds and a scale other
    than zero, [clampTransform] keeps the scale, puts the world point at
    the centre of the view within the bounds widened by 100 on each side,
    changes nothing when the centre already is there, and clamping twice
    is clamping once. *)
Theorem clampTransform_confines_centre (bounds : WorldBounds R)
    (newTransform : Transform R) :
  initialized bounds = true ->
  scale newTransform <> 0 ->
  minX bounds - 100 <= maxX bounds + 100 ->
  minZ bounds - 100 <= maxZ bounds + 100 ->
  let clamped := clampTransform bounds newTransform in
  let centreX (tr : Transform R) := - offsetX tr / scale tr in
  let centreZ (tr : Transform R) := - offsetY tr / scale tr in
  scale clamped = scale newTransform
  /\ minX bounds - 100 <= centreX clamped <= maxX bounds + 100
  /\ minZ bounds - 100 <= centreZ clamped <= maxZ bounds + 100
  /\ (minX bounds - 100 <= centreX newTransform <= maxX bounds + 100 ->
      minZ bounds - 100 <= centreZ newTransform <= maxZ bounds + 100 ->
      clamped = newTransform)
  /\ clampTransform bounds clamped = clamped.
Proof.
  intros Hinit Hs HX HZ clamped centreX centreZ.
  destruct (clamped_centre_confined bounds newTransform Hinit Hs HX HZ)
    as (Hsc & Hx & Hz & Hin).
  fold clamped in Hsc, Hx, Hz.
  split; [exact Hsc|]. split; [exact Hx|]. split; [exact Hz|]. split.
  - intros Hx' Hz'. apply Hin; assumption.
  - apply Hin; [rewrite Hsc; exact Hs|exact Hx|exact Hz].
Qed.

Lemma clampTransform_confines_centre_witness :
  let bounds := {| minX := 0; maxX := 16; minZ := 0; maxZ := 16;
                   initialized := true |} in
  let dragged := {| offsetX := 1000; offsetY := -20; scale := 2 |} in
  let clamped := clampTransform bounds dragged in
  scale clamped = 2
  /\ -100 <= - offsetX clamped / scale clamped <= 116
  /\ clampTransform bounds clamped = clamped.
Proof.
  intros bounds dragged clamped.
  destruct (clampTransform_confines_centre bounds dragged)
    as (Hs & Hx & _ & _ & Hidem); cbn; try lra; try reflexivity.
  split; [exact Hs|]. split; [|exact Hidem].
  cbn in Hx. lra.
Defined.

(** X4.  Over the real numbers, one step of a drag keeps the scale; while
    the bounds are not initialized it moves the offsets by the movement of
    the pointer, and so it does with initialized bounds as long as the
    centre of the view stays within the bounds widened by 100; in every
    case with initialized bounds the centre ends within them. *)
Theorem dragStep_pans_within_bounds (bounds : WorldBounds R)
    (lastMouse : R * R) (eX eY : R) (prev : Transform R) :
  scale prev <> 0 ->
  minX bounds - 100 <= maxX bounds + 100 ->
  minZ bounds - 100 <= maxZ bounds + 100 ->
  let moved := {| offsetX := offsetX prev + (eX - fst lastMouse);
                  offsetY := offsetY prev + (eY - snd lastMouse);
                  scale := scale prev |} in
  let next := dragStep bounds lastMouse eX eY prev in
  scale next = scale prev
  /\ (initialized bounds = false -> next = moved)
  /\ (initialized bounds = true ->
      minX bounds - 100 <= - offsetX next / scale next <= maxX bounds + 100
      /\ minZ bounds - 100 <= - offsetY next / scale next <= maxZ bounds + 100)
  /\ (minX bounds - 100 <= - offsetX moved / scale moved <= maxX bounds + 100 ->
      minZ bounds - 100 <= - offsetY moved / scale moved <= maxZ bounds + 100 ->
      next = moved).
Proof.
  intros Hs HX HZ moved next.
  assert (Hnext : next = clampTransform bounds moved) by reflexivity.
  destruct (initialized bounds) eqn:Hinit.
  - destruct (clamped_centre_confined bounds moved Hinit Hs HX HZ)
      as (Hsc & Hx & Hz & Hin).
    rewrite Hnext. split; [exact Hsc|]. split; [discriminate|].
    split; [intros _; split; [exact Hx|exact Hz]|].
    intros Hx' Hz'. apply Hin; assumption.
  - assert (Hid : next = moved).
    { rewrite Hnext. unfold clampTransform. rewrite Hinit. reflexivity. }
    rewrite Hid. split; [reflexivity|]. split; [reflexivity|].
    split; [discriminate|reflexivity].
Qed.

Lemma dragStep_pans_within_bounds_witness :
  let bounds := {| minX := 0; maxX := 16; minZ := 0; maxZ := 16;
                   initialized := true |} in
  let prev := {| offsetX := 0; offsetY := 0; scale := 2 |} in
  let next := dragStep bounds (100, 100) 130 90 prev in
  scale next = 2 /\ next = {| offsetX := 0 + (130 - 100); offsetY := 0 + (90 - 100);
                              scale := 2 |}.
Proof.
  intros bounds prev next.
  destruct (dragStep_pans_within_bounds bounds (100, 100) 130 90 prev)
    as (Hs & _ & _ & Hin); cbn; try lra.
  split; [exact Hs|]. apply Hin; cbn; lra.
Defined.
End CanvasGeometry.

Section CanvasControls.
Import MapCanvas.
Local Open Scope R_scope.

(** The scale that fits the bounds into the viewport less a padding of 50,
    capped at 2: what [fitBounds] computes before it raises the scale to
    [0.1]. *)
Lemma fitBounds_offsets (bounds : WorldBounds R) (dimensions : Dimensions R) :
  let fit := Rmin (Rmin ((width dimensions - 50 * 2) / (maxX bounds - minX bounds))
                        ((height dimensions - 50 * 2) / (maxZ bounds - minZ bounds))) 2 in
  let tr := fitBounds bounds dimensions in
  scale tr = Rmax (1 / 10) fit
  /\ offsetX tr = - ((minX bounds + maxX bounds) / 2) * fit
  /\ offsetY tr = - ((minZ bounds + maxZ bounds) / 2) * fit.
Proof. repeat split; reflexivity. Qed.

(** X5.  Over the real numbers, for initialized bounds of positive width
    and height both [resetView] functions set the same transform; its scale
    lies between 0.1 and 2; and whenever the scale that fits the bounds
    into the viewport less 50 pixels on each side is at least 0.1, the
    centre of the bounds is shown at the centre of the viewport and the
    whole rectangle of the bounds at least 50 pixels inside it. *)
Theorem resetView_fits_bounds (bounds : WorldBounds R)
    (dimensions : Dimensions R) (prev : Transform R) :
  initialized bounds = true ->
  minX bounds < maxX bounds ->
  minZ bounds < maxZ bounds ->
  let tr := resetView bounds dimensions prev in
  let fit := Rmin (Rmin ((width dimensions - 50 * 2) / (maxX bounds - minX bounds))
                        ((height dimensions - 50 * 2) / (maxZ bounds - minZ bounds))) 2 in
  let centre := ((minX bounds + maxX bounds) / 2, (minZ bounds + maxZ bounds) / 2) in
  resetView_exposed bounds dimensions prev = tr
  /\ 1 / 10 <= scale tr <= 2
  /\ (1 / 10 <= fit ->
      worldToScreen tr dimensions (fst centre) (snd centre)
      = (width dimensions / 2, height dimensions / 2)
      /\ 50 <= fst (worldToScreen tr dimensions (minX bounds) (minZ bounds))
      /\ 50 <= snd (worldToScreen tr dimensions (minX bounds) (minZ bounds))
      /\ fst (worldToScreen tr dimensions (maxX bounds) (maxZ bounds))
         <= width dimensions - 50
      /\ snd (worldToScreen tr dimensions (maxX bounds) (maxZ bounds))
         <= height dimensions - 50).
Proof.
  intros Hinit HX HZ tr fit centre.
  assert (Htr : tr = fitBounds bounds dimensions)
    by (unfold tr, resetView; rewrite Hinit; reflexivity).
  destruct (fitBounds_offsets bounds dimensions) as (Hs & Hox & Hoy).
  fold fit in Hs, Hox, Hoy. rewrite <- Htr in Hs, Hox, Hoy.
  assert (Hfit2 : fit <= 2) by apply Rmin_r.
  split; [unfold resetView_exposed; rewrite Hinit; symmetry; exact Htr|].
  split.
  { rewrite Hs. split; [apply Rmax_l|apply Rmax_lub; lra]. }
  intros Hfit.
  assert (Hsc : scale tr = fit) by (rewrite Hs; apply Rmax_right; exact Hfit).
  assert (HfX : fit * (maxX bounds - minX bounds) <= width dimensions - 100).
  { assert (Hle : fit <= (width dimensions - 50 * 2) / (maxX bounds - minX bounds))
      by (unfold fit; eapply Rle_trans; [apply Rmin_l|apply Rmin_l]).
    apply (Rmult_le_compat_r (maxX bounds - minX bounds)) in Hle; [|lra].
    replace ((width dimensions - 50 * 2) / (maxX bounds - minX bounds)
             * (maxX bounds - minX bounds))
      with (width dimensions - 100) in Hle by (field; lra).
    exact Hle. }
  assert (HfZ : fit * (maxZ bounds - minZ bounds) <= height dimensions - 100).
  { assert (Hle : fit <= (height dimensions - 50 * 2) / (maxZ bounds - minZ bounds))
      by (unfold fit; eapply Rle_trans; [apply Rmin_l|apply Rmin_r]).
    apply (Rmult_le_compat_r (maxZ bounds - minZ bounds)) in Hle; [|lra].
    replace ((height dimensions - 50 * 2) / (maxZ bounds - minZ bounds)
             * (maxZ bounds - minZ bounds))
      with (height dimensions - 100) in Hle by (field; lra).
    exact Hle. }
  unfold worldToScreen, centre. cbn [fst snd js_add js_mul js_div js_lit real_number].
  rewrite Hsc, Hox, Hoy.
  split; [f_equal; field|].
  repeat split; nra.
Qed.

Lemma resetView_fits_bounds_witness :
  let bounds := {| minX := -100; maxX := 300; minZ := 0; maxZ := 200;
                   initialized := true |} in
  let dimensions := {| width := 900; height := 700 |} in
  let tr := resetView bounds dimensions {| offsetX := 5; offsetY := 5; scale := 7 |} in
  1 / 10 <= scale tr <= 2
  /\ worldToScreen tr dimensions ((-100 + 300) / 2) ((0 + 200) / 2) = (900 / 2, 700 / 2).
Proof.
  intros bounds dimensions tr.
  destruct (resetView_fits_bounds bounds dimensions
              {| offsetX := 5; offsetY := 5; scale := 7 |})
    as (_ & Hrange & Hfit); cbn; try lra; try reflexivity.
  split; [exact Hrange|]. apply Hfit.
  cbn. apply Rmin_glb; [apply Rmin_glb|]; lra.
Defined.



(** X7.  Over the real numbers: [zoomIn] multiplies the scale by 1.5
    whatever it is (there is no clamp), and [zoomOut] right after it gives
    the scale back; with a selected player that has a position, both keep
    that position at the centre of the viewport; with none, both keep the
    offsets. *)
Theorem zoom_buttons_round_trip (transform : Transform R)
    (dimensions : Dimensions R) (selectedSessionId : option string)
    (sessions : list (string * PlayerSession R)) :
  let zoomedIn := zoomIn transform selectedSessionId sessions transform in
  let zoomedOut := zoomOut transform selectedSessionId sessions transform in
  scale zoomedIn = scale transform * (15 / 10)
  /\ scale (zoomOut zoomedIn selectedSessionId sessions zoomedIn) = scale transform
  /\ match getSelectedPlayerPosition selectedSessionId sessions with
     | Some (px, pz) =>
         worldToScreen zoomedIn dimensions px pz
         = (width dimensions / 2, height dimensions / 2)
         /\ worldToScreen zoomedOut dimensions px pz
            = (width dimensions / 2, height dimensions / 2)
     | None =>
         offsetX zoomedIn = offsetX transform /\ offsetY zoomedIn = offsetY transform
         /\ offsetX zoomedOut = offsetX transform
         /\ offsetY zoomedOut = offsetY transform
     end.
Proof.
  unfold zoomIn, zoomOut, zoomTo, js_dec.
  destruct (getSelectedPlayerPosition selectedSessionId sessions) as [[px pz]|];
    cbn; (split; [reflexivity|]); (split; [field|]).
  - unfold worldToScreen; cbn. split; f_equal; field.
  - repeat split.
Qed.
End CanvasControls.

Section CanvasPlayers.
Import MapCanvas.
Local Open Scope R_scope.

(** X8.  Over the real numbers: if some active session has a point,
    [centerOnPlayer] raises the scale to at least 4 and shows the last
    point of an active session at the centre of the viewport, and that
    point lies in the current dimension whenever the last point of some
    active session does; if no active session has a point, the transform
    stays as it is. *)
Theorem centerOnPlayer_centres (sessions : list (PlayerSession R))
    (currentDimension : string) (transform : Transform R)
    (dimensions : Dimensions R) :
  let next := centerOnPlayer sessions currentDimension transform in
  ((exists s, In s sessions /\ active s = true /\ is_Some (last (path s))) ->
   exists s p,
     In s sessions /\ active s = true /\ last (path s) = Some p
     /\ scale next = Rmax (scale transform) 4
     /\ worldToScreen next dimensions (x p) (z p)
        = (width dimensions / 2, height dimensions / 2)
     /\ ((exists s' p', In s' sessions /\ active s' = true
                        /\ last (path s') = Some p'
                        /\ inDim (fullDimId currentDimension) p' = true) ->
         inDim (fullDimId currentDimension) p = true))
  /\ ((forall s, In s sessions -> active s = true -> last (path s) = None) ->
      next = transform).
Proof.
  intros next. subst next. unfold centerOnPlayer.
  set (d := fullDimId currentDimension).
  set (activeHere := fun s : PlayerSession R =>
         active s && match last (path s) with
                     | Some lastPoint => inDim d lastPoint
                     | None => false
                     end).
  set (activeAnywhere := fun s : PlayerSession R =>
         active s && bool_decide (is_Some (last (path s)))).
  assert (Hcentred : forall p : RoutePoint R,
             worldToScreen
               {| offsetX := (- x p) * Rmax (scale transform) 4;
                  offsetY := (- z p) * Rmax (scale transform) 4;
                  scale := Rmax (scale transform) 4 |} dimensions (x p) (z p)
             = (width dimensions / 2, height dimensions / 2)).
  { intros p. unfold worldToScreen; cbn. f_equal; ring. }
  split.
  - intros (s0 & Hin0 & Hact0 & Hlast0).
    destruct (find activeHere sessions) as [s|] eqn:Hhere.
    + apply find_some in Hhere as [Hin Hs]. unfold activeHere in Hs.
      apply andb_true_iff in Hs as [Hact Hdim].
      destruct (last (path s)) as [p|] eqn:Hlast; [|discriminate].
      exists s, p. cbn [js_neg js_mul js_lit Math_max real_number].
      split; [exact Hin|]. split; [exact Hact|]. split; [exact Hlast|].
      split; [reflexivity|]. split; [apply Hcentred|]. intros _. exact Hdim.
    + destruct (find activeAnywhere sessions) as [s|] eqn:Hany.
      * apply find_some in Hany as [Hin Hs]. unfold activeAnywhere in Hs.
        apply andb_true_iff in Hs as [Hact Hsome].
        destruct (last (path s)) as [p|] eqn:Hlast;
          [|apply bool_decide_eq_true in Hsome; destruct Hsome; discriminate].
        exists s, p. cbn [js_neg js_mul js_lit Math_max real_number].
        split; [exact Hin|]. split; [exact Hact|]. split; [exact Hlast|].
        split; [reflexivity|]. split; [apply Hcentred|].
        intros (s' & p' & Hin' & Hact' & Hlast' & Hdim').
        pose proof (find_none _ _ Hhere s' Hin') as Hno.
        unfold activeHere in Hno. rewrite Hact', Hlast', Hdim' in Hno. discriminate.
      * pose proof (find_none _ _ Hany s0 Hin0) as Hno.
        unfold activeAnywhere in Hno. rewrite Hact0 in Hno.
        rewrite bool_decide_eq_true_2 in Hno by exact Hlast0. discriminate.
  - intros Hnone.
    destruct (find activeHere sessions) as [s|] eqn:Hhere.
    + apply find_some in Hhere as [Hin Hs]. unfold activeHere in Hs.
      apply andb_true_iff in Hs as [Hact Hdim].
      rewrite (Hnone s Hin Hact). reflexivity.
    + destruct (find activeAnywhere sessions) as [s|] eqn:Hany; [|reflexivity].
      apply find_some in Hany as [Hin Hs]. unfold activeAnywhere in Hs.
      apply andb_true_iff in Hs as [Hact Hsome].
      rewrite (Hnone s Hin Hact). reflexivity.
Qed.

(** The distance of the last point of a session to a world position, as
    the hover search measures it. *)
Lemma hover_invariant (worldX worldZ threshold : R)
    (sessions : list (string * PlayerSession R)) :
  let dist (s : PlayerSession R) :=
    (fun p => sqrt ((x p - worldX) * (x p - worldX) + (z p - worldZ) * (z p - worldZ)))
      <$> last (path s) in
  let acc := fold_left (hoverStep worldX worldZ) sessions (None, threshold) in
  (forall id' s' d', In (id', s') sessions -> active s' = true ->
                     dist s' = Some d' -> snd acc <= d')
  /\ match fst acc with
     | None => snd acc = threshold
     | Some id => exists s, In (id, s) sessions /\ active s = true
                            /\ dist s = Some (snd acc) /\ snd acc < threshold
     end.
Proof.
  intros dist. induction sessions as [|[id s] sessions IH] using rev_ind.
  - cbn. split; [intros ? ? ? []|reflexivity].
  - rewrite fold_left_app. cbn [fold_left].
    set (acc := fold_left (hoverStep worldX worldZ) sessions (None, threshold)) in *.
    cbn zeta in IH. destruct IH as [Hall Hbest].
    assert (Hkeep : (forall id' s' d', In (id', s') sessions -> active s' = true ->
                                        dist s' = Some d' -> snd acc <= d') ->
                    forall best : option string * R,
                      snd best <= snd acc ->
                      (forall d', active s = true -> dist s = Some d' -> snd best <= d') ->
                      forall id' s' d', In (id', s') (sessions ++ [(id, s)]) ->
                                        active s' = true -> dist s' = Some d' ->
                                        snd best <= d').
    { intros Hall' best Hle Hnew id' s' d' Hin Hact Hd.
      apply in_app_or in Hin as [Hin|[Heq|[]]].
      - eapply Rle_trans; [exact Hle|]. eapply Hall'; eassumption.
      - injection Heq as <- <-. apply Hnew; assumption. }
    assert (Hwiden : match fst acc with
                     | None => snd acc = threshold
                     | Some id0 => exists s0, In (id0, s0) (sessions ++ [(id, s)])
                                              /\ active s0 = true
                                              /\ dist s0 = Some (snd acc)
                                              /\ snd acc < threshold
                     end).
    { destruct (fst acc); [|exact Hbest].
      destruct Hbest as (s1 & Hin & Hrest). exists s1.
      split; [apply in_or_app; left; exact Hin|exact Hrest]. }
    assert (Hcase :
              (hoverStep worldX worldZ acc (id, s) = acc
               /\ forall d', active s = true -> dist s = Some d' -> snd acc <= d')
              \/ exists distance,
                  hoverStep worldX worldZ acc (id, s) = (Some id, distance)
                  /\ active s = true /\ dist s = Some distance
                  /\ distance < snd acc).
    { unfold hoverStep, dist.
      destruct (active s) eqn:Hact; cbn [negb];
        [|left; split; [reflexivity|intros d' Habs; discriminate]].
      destruct (last (path s)) as [p|] eqn:Hlast;
        [|left; split; [reflexivity|intros d' _ Hd'; discriminate]].
      cbn [js_sub js_add js_mul js_lt Math_sqrt real_number fmap option_fmap option_map].
      unfold Rltb. destruct (Rlt_dec _ (snd acc)) as [Hlt|Hge].
      - right. eexists. split; [reflexivity|]. split; [reflexivity|].
        split; [reflexivity|exact Hlt].
      - left. split; [reflexivity|]. intros d' _ Hd'. injection Hd' as <-. lra. }
    cbv zeta. destruct Hcase as [[-> Hnew]|(distance & -> & Hact & Hd & Hlt)].
    + split; [|exact Hwiden]. apply (Hkeep Hall acc); [lra|exact Hnew].
    + cbn [fst snd]. split.
      * apply (Hkeep Hall (Some id, distance)); cbn [snd]; [lra|].
        intros d' _ Hd'. rewrite Hd in Hd'. injection Hd' as <-. lra.
      * exists s. split; [apply in_or_app; right; left; reflexivity|].
        split; [exact Hact|]. split; [exact Hd|].
        destruct (fst acc).
        -- destruct Hbest as (? & ? & ? & ? & ?). lra.
        -- lra.
Qed.

(** X9.  Over the real numbers, the session the hover search returns is
    active, its last point is nearer to the cursor than [20 / scale], and
    no active session has a last point that is nearer still; the search
    returns none exactly when no active session has its last point nearer
    than [20 / scale]. *)
Theorem nearestSession_is_nearest (transform : Transform R)
    (sessions : list (string * PlayerSession R)) (worldX worldZ : R) :
  let dist (s : PlayerSession R) :=
    (fun p => sqrt ((x p - worldX) * (x p - worldX) + (z p - worldZ) * (z p - worldZ)))
      <$> last (path s) in
  match nearestSession transform sessions worldX worldZ with
  | Some id =>
      exists s d, In (id, s) sessions /\ active s = true /\ dist s = Some d
                  /\ d < 20 / scale transform
                  /\ forall id' s' d', In (id', s') sessions -> active s' = true ->
                                       dist s' = Some d' -> d <= d'
  | None =>
      forall id' s' d', In (id', s') sessions -> active s' = true ->
                        dist s' = Some d' -> 20 / scale transform <= d'
  end.
Proof.
  intros dist. unfold nearestSession. cbn [js_div js_lit real_number].
  destruct (hover_invariant worldX worldZ (20 / scale transform) sessions)
    as [Hall Hbest].
  destruct (fst (fold_left _ sessions _)) as [id|].
  - destruct Hbest as (s & Hin & Hact & Hd & Hlt).
    exists s, (snd (fold_left (hoverStep worldX worldZ) sessions
                      (None, 20 / scale transform))).
    repeat split; assumption.
  - rewrite <- Hbest. exact Hall.
Qed.
End CanvasPlayers.

Section PlayerColours.
Import MapCanvas.

Lemma getPlayerColor_keeps (m : gmap string string) (u u' c : string) :
  m !! u = Some c -> snd (getPlayerColor m u') !! u = Some c.
Proof.
  intros Hu. unfold getPlayerColor.
  destruct (m !! u') eqn:Hu'; cbn [snd]; [exact Hu|].
  rewrite lookup_insert_ne; [exact Hu|]. intros ->. congruence.
Qed.

Lemma colorsAfter_keeps (later : list string) (m : gmap string string) (u c : string) :
  m !! u = Some c -> colorsAfter m later !! u = Some c.
Proof.
  revert m. induction later as [|u' later IH]; intros m Hu; [exact Hu|].
  cbn. apply IH, getPlayerColor_keeps, Hu.
Qed.

Lemma getPlayerColor_records (m : gmap string string) (u : string) :
  snd (getPlayerColor m u) !! u = Some (fst (getPlayerColor m u)).
Proof.
  unfold getPlayerColor. destruct (m !! u) eqn:Hu; cbn [fst snd]; [exact Hu|].
  apply lookup_insert_eq.
Qed.

Lemma colorsAfter_snoc (m : gmap string string) (l : list string) (u : string) :
  colorsAfter m (l ++ [u]) = snd (getPlayerColor (colorsAfter m l) u).
Proof. unfold colorsAfter. rewrite fold_left_app. reflexivity. Qed.

(** From the empty map, distinct players fill the map one by one, each
    with the colour of its rank. *)
Lemma colorsAfter_distinct (playerUuids : list string) :
  NoDup playerUuids ->
  size (colorsAfter ∅ playerUuids) = length playerUuids
  /\ (forall u, u ∉ playerUuids -> colorsAfter ∅ playerUuids !! u = None)
  /\ (forall i u, playerUuids !! i = Some u ->
                  colorsAfter ∅ playerUuids !! u
                  = Some (default "" (PLAYER_COLORS !! (i mod 10)%nat))).
Proof.
  induction playerUuids as [|u l IH] using rev_ind; intros Hnd.
  - split; [reflexivity|]. split; [intros; apply lookup_empty|].
    intros i u Hi. discriminate.
  - apply NoDup_app in Hnd as (Hl & Hnot & _).
    destruct (IH Hl) as (Hsize & Hout & Hrank). clear IH.
    assert (Hu : u ∉ l) by (intros Hin; apply (Hnot u Hin); left).
    rewrite colorsAfter_snoc. unfold getPlayerColor.
    rewrite (Hout u Hu). cbn [snd]. split; [|split].
    + rewrite map_size_insert_None by (apply Hout, Hu).
      rewrite Hsize, length_app. cbn. lia.
    + intros v Hv. rewrite lookup_insert_ne.
      * apply Hout. intros Hin. apply Hv, elem_of_app. left. exact Hin.
      * intros ->. apply Hv, elem_of_app. right. left.
    + intros i v Hi. destruct (decide (i < length l)%nat) as [Hlt|Hge].
      * rewrite lookup_app_l in Hi by exact Hlt.
        rewrite lookup_insert_ne; [apply Hrank, Hi|].
        intros ->. apply Hu. eapply list_elem_of_lookup_2. exact Hi.
      * rewrite lookup_app_r in Hi by lia.
        destruct (i - length l)%nat as [|k] eqn:Hk; [|destruct k; discriminate].
        injection Hi as <-. rewrite lookup_insert_eq.
        replace i with (length l) by lia. rewrite Hsize. reflexivity.
Qed.

(** X10.  A player keeps the colour of the first call of [getPlayerColor]
    through all later calls, whatever players these are for: the colour
    map only ever gains entries. *)
Theorem player_colour_stable (m : gmap string string) (u : string)
    (later : list string) :
  fst (getPlayerColor (colorsAfter (snd (getPlayerColor m u)) later) u)
  = fst (getPlayerColor m u)
  /\ m ⊆ colorsAfter m later.
Proof.
  split.
  - pose proof (colorsAfter_keeps later _ u _ (getPlayerColor_records m u)) as Hk.
    unfold getPlayerColor at 1. rewrite Hk. reflexivity.
  - apply map_subseteq_spec. intros v c Hv. apply colorsAfter_keeps, Hv.
Qed.

(** X11.  When distinct players are drawn from an empty colour map, the
    player of rank [i] (from 0) has the colour [PLAYER_COLORS[i mod 10]];
    so up to ten players get colours that differ from one another. *)
Theorem player_colours_by_rank (playerUuids : list string) :
  NoDup playerUuids ->
  let colour u := fst (getPlayerColor (colorsAfter ∅ playerUuids) u) in
  (forall i u, playerUuids !! i = Some u ->
               colour u = default "" (PLAYER_COLORS !! (i mod 10)%nat))
  /\ ((length playerUuids <= 10)%nat -> NoDup (colour <$> playerUuids)).
Proof.
  intros Hnd colour.
  assert (Hrank : forall i u, playerUuids !! i = Some u ->
                    colour u = default "" (PLAYER_COLORS !! (i mod 10)%nat)).
  { intros i u Hi. destruct (colorsAfter_distinct playerUuids Hnd) as (_ & _ & Hrank).
    unfold colour, getPlayerColor. rewrite (Hrank i u Hi). reflexivity. }
  split; [exact Hrank|]. intros Hlen.
  assert (Heq : colour <$> playerUuids = take (length playerUuids) PLAYER_COLORS).
  { apply list_eq. intros i. rewrite list_lookup_fmap.
    destruct (playerUuids !! i) as [u|] eqn:Hi; cbn.
    - pose proof (lookup_lt_Some _ _ _ Hi) as Hlt.
      rewrite lookup_take_lt by exact Hlt. rewrite (Hrank i u Hi).
      rewrite Nat.mod_small by lia.
      destruct (lookup_lt_is_Some_2 PLAYER_COLORS i) as [c Hc]; [cbn; lia|].
      rewrite Hc. reflexivity.
    - apply lookup_ge_None in Hi. symmetry. apply lookup_ge_None.
      rewrite length_take. lia. }
  rewrite Heq. apply (sublist_NoDup _ PLAYER_COLORS); [|apply sublist_take].
  apply (bool_decide_unpack _). vm_compute. exact I.
Qed.

Lemma player_colours_by_rank_witness :
  fst (getPlayerColor (colorsAfter ∅ ["u1"; "u2"; "u3"]) "u3") = "#22c55e".
Proof.
  assert (Hnd : NoDup ["u1"; "u2"; "u3"]).
  { apply (bool_decide_unpack _). vm_compute. exact I. }
  exact (proj1 (player_colours_by_rank ["u1"; "u2"; "u3"] Hnd) 2%nat "u3" eq_refl).
Defined.
End PlayerColours.

(** ** The view is initialised once, and the bounds follow the tiles *)

Section ViewBounds.
Import MapCanvas.
Local Open Scope R_scope.

(** X12.  Over the real numbers, a tile image of more than one pixel in
    both directions leaves bounds that are initialized and include both
    the 16 x 16 rectangle of the chunk and the bounds before; an image of
    at most one pixel in a direction leaves the bounds as they are. *)
Theorem tile_onload_covers_tile (b : WorldBounds R) (chunkX chunkZ : R)
    (naturalWidth naturalHeight : Z) :
  let b' := tile_onload b chunkX chunkZ naturalWidth naturalHeight in
  ((1 < naturalWidth)%Z /\ (1 < naturalHeight)%Z ->
   initialized b' = true
   /\ includes b' (tileRect chunkX chunkZ) = true
   /\ includes b' b = true)
  /\ ((naturalWidth <= 1)%Z \/ (naturalHeight <= 1)%Z -> b' = b).
Proof.
  intros b'. split.
  - intros [Hw Hh].
    assert (Hreal : (naturalWidth <=? 1)%Z || (naturalHeight <=? 1)%Z = false).
    { apply orb_false_iff. split; apply Z.leb_gt; assumption. }
    assert (Hinit : initialized b' = true).
    { unfold b', tile_onload. rewrite Hreal. destruct (initialized b); reflexivity. }
    split; [exact Hinit|]. split; [|apply tile_onload_includes].
    apply includes_true. intros _. split; [exact Hinit|].
    unfold b', tile_onload. rewrite Hreal.
    destruct (initialized b);
      cbn [negb tileRect minX maxX minZ maxZ Math_min Math_max js_add js_mul real_number].
    + repeat split; first [apply Rmin_r | apply Rmax_r].
    + repeat split; apply Rle_refl.
  - intros Hplaceholder. unfold b', tile_onload.
    replace ((naturalWidth <=? 1)%Z || (naturalHeight <=? 1)%Z) with true; [reflexivity|].
    symmetry. apply orb_true_iff.
    destruct Hplaceholder; [left|right]; apply Z.leb_le; assumption.
Qed.

Lemma observe_initialised {engine : JsEngine} (st : ViewState R) (o : Observation R) :
  hasInitializedView st = true ->
  hasInitializedView (observe st o) = true
  /\ transform (observe st o) = transform st
  /\ thrown (observe st o) = thrown st
  /\ (sameDimension (prevDimensionRef st) o = true ->
      prevDimensionRef (observe st o) = prevDimensionRef st
      /\ includes (worldBounds (observe st o)) (worldBounds st) = true).
Proof.
  intros Hinit. destruct o as [chunkX chunkZ w h|sessions currentDimension].
  - cbn [observe hasInitializedView transform thrown prevDimensionRef worldBounds].
    split; [exact Hinit|]. split; [reflexivity|]. split; [reflexivity|].
    intros _. split; [reflexivity|apply tile_onload_includes].
  - cbn [observe sameDimension]. destruct (thrown st) eqn:Hthrown.
    { split; [exact Hinit|]. split; [reflexivity|]. split; [exact Hthrown|].
      intros _. split; [reflexivity|apply includes_refl]. }
    assert (Hauto : forall st1 : ViewState R,
               hasInitializedView st1 = true ->
               autoCenter sessions currentDimension st1 = st1)
      by (intros st1 H1; unfold autoCenter; rewrite H1; reflexivity).
    rewrite Hauto by (unfold dimensionEffect; destruct (negb _); exact Hinit).
    unfold dimensionEffect.
    destruct (String.eqb (prevDimensionRef st) currentDimension) eqn:Hdim; cbn [negb].
    + split; [exact Hinit|]. split; [reflexivity|]. split; [exact Hthrown|].
      intros _. split; [reflexivity|apply includes_refl].
    + cbn [hasInitializedView transform thrown].
      split; [exact Hinit|]. split; [reflexivity|]. split; [exact Hthrown|].
      discriminate.
Qed.

(** X13.  Once the view is initialised, nothing that the canvas observes
    afterwards (tiles loading, the sessions or the dimension changing)
    centres it again or throws: [hasInitializedView] stays set and the
    auto-centring effect never changes the transform.  Over the real
    numbers the bounds only grow as long as the dimension stays the one
    of [prevDimensionRef]; a change of the dimension resets them to the
    uninitialized bounds. *)
Theorem view_initialised_once {engine : JsEngine} (st : ViewState R)
    (os : list (Observation R)) :
  hasInitializedView st = true ->
  let st' := observeAll st os in
  hasInitializedView st' = true
  /\ transform st' = transform st
  /\ thrown st' = thrown st
  /\ (forallb (sameDimension (prevDimensionRef st)) os = true ->
      prevDimensionRef st' = prevDimensionRef st
      /\ includes (worldBounds st') (worldBounds st) = true)
  /\ (forall sessions currentDimension,
         thrown st' = false ->
         currentDimension <> prevDimensionRef st' ->
         worldBounds (observe st' (SessionsChanged sessions currentDimension))
         = noBounds).
Proof.
  intros Hinit st'.
  assert (Hrun : forall (os : list (Observation R)) (st : ViewState R),
             hasInitializedView st = true ->
             hasInitializedView (observeAll st os) = true
             /\ transform (observeAll st os) = transform st
             /\ thrown (observeAll st os) = thrown st
             /\ (forallb (sameDimension (prevDimensionRef st)) os = true ->
                 prevDimensionRef (observeAll st os) = prevDimensionRef st
                 /\ includes (worldBounds (observeAll st os)) (worldBounds st) = true)).
  { clear. unfold observeAll.
    induction os as [|o os IH]; intros st Hinit.
    - cbn. split; [exact Hinit|]. split; [reflexivity|]. split; [reflexivity|].
      intros _. split; [reflexivity|apply includes_refl].
    - cbn [fold_left forallb].
      destruct (observe_initialised st o Hinit) as (Hinit1 & Htr1 & Hth1 & Hsame1).
      destruct (IH (observe st o) Hinit1) as (Hinit' & Htr' & Hth' & Hsame').
      split; [exact Hinit'|]. split; [congruence|]. split; [congruence|].
      intros Hall. apply andb_true_iff in Hall as [Ho Hall].
      destruct (Hsame1 Ho) as [Hd1 Hinc1]. rewrite Hd1 in Hsame'.
      destruct (Hsame' Hall) as [Hd' Hinc'].
      split; [exact Hd'|]. eapply includes_trans; eassumption. }
  destruct (Hrun os st Hinit) as (Hinit' & Htr' & Hth' & Hsame').
  fold st' in Hinit', Htr', Hth', Hsame'. clearbody st'.
  split; [exact Hinit'|]. split; [exact Htr'|]. split; [exact Hth'|].
  split; [exact Hsame'|].
  intros sessions currentDimension Hthrown Hdim. cbn [observe]. rewrite Hthrown.
  assert (Hreset : dimensionEffect currentDimension st'
                   = {| transform := transform st';
                        hasInitializedView := hasInitializedView st';
                        worldBounds := noBounds;
                        prevDimensionRef := currentDimension;
                        thrown := thrown st' |}).
  { unfold dimensionEffect.
    destruct (String.eqb_spec (prevDimensionRef st') currentDimension) as [Heq|Hne];
      [congruence|reflexivity]. }
  rewrite Hreset. unfold autoCenter. cbn [hasInitializedView].
  rewrite Hinit'. reflexivity.
Qed.

Lemma tile_onload_covers_tile_witness :
  initialized (tile_onload noBounds 3 4 512 512) = true.
Proof.
  apply (proj1 (tile_onload_covers_tile noBounds 3 4 512 512)). split; lia.
Defined.
End ViewBounds.

(** ** The first centring and the bounds seeded from the history *)

Section AutoCentre.
Import MapCanvas.
Context {engine : JsEngine}.
Local Open Scope R_scope.

Lemma Math_min_of_least (xs : list R) (x0 : R) :
  Math_min_of x0 xs <= x0
  /\ (forall v, In v xs -> Math_min_of x0 xs <= v)
  /\ In (Math_min_of x0 xs) (x0 :: xs).
Proof.
  unfold Math_min_of. revert x0.
  induction xs as [|v xs IH]; intros x0; cbn [fold_left].
  - split; [apply Rle_refl|]. split; [intros v []|left; reflexivity].
  - destruct (IH (Math_min x0 v)) as (Hle & Hall & Hin).
    cbn [Math_min real_number] in *.
    pose proof (Rmin_l x0 v). pose proof (Rmin_r x0 v).
    split; [lra|]. split.
    + intros w [<-|Hw]; [lra|apply Hall, Hw].
    + destruct Hin as [Heq|Hin]; [|right; right; exact Hin].
      rewrite <- Heq. unfold Rmin. destruct (Rle_dec x0 v); [left|right; left]; reflexivity.
Qed.

Lemma Math_max_of_greatest (xs : list R) (x0 : R) :
  x0 <= Math_max_of x0 xs
  /\ (forall v, In v xs -> v <= Math_max_of x0 xs)
  /\ In (Math_max_of x0 xs) (x0 :: xs).
Proof.
  unfold Math_max_of. revert x0.
  induction xs as [|v xs IH]; intros x0; cbn [fold_left].
  - split; [apply Rle_refl|]. split; [intros v []|left; reflexivity].
  - destruct (IH (Math_max x0 v)) as (Hle & Hall & Hin).
    cbn [Math_max real_number] in *.
    pose proof (Rmax_l x0 v). pose proof (Rmax_r x0 v).
    split; [lra|]. split.
    + intros w [<-|Hw]; [lra|apply Hall, Hw].
    + destruct Hin as [Heq|Hin]; [|right; right; exact Hin].
      rewrite <- Heq. unfold Rmax. destruct (Rle_dec x0 v); [right; left|left]; reflexivity.
Qed.

(** The four calls of lines 203-206 have as many arguments as there are
    points in the dimension: they all return, or the first throws. *)
Lemma seededBounds_outcome {num : Type} `{JsNumber num}
    (sessions : list (PlayerSession num)) (d : string) (previous : WorldBounds num) :
  seededBounds sessions d previous
  = match flat_map (fun s => List.filter (inDim d) (path s)) sessions with
    | [] => Some previous
    | p0 :: ps =>
        if withinArguments (length (p0 :: ps)) then
          Some {| minX := (Math_min_of (x p0) (map x ps) - js_lit 100)%js;
                  maxX := (Math_max_of (x p0) (map x ps) + js_lit 100)%js;
                  minZ := (Math_min_of (z p0) (map z ps) - js_lit 100)%js;
                  maxZ := (Math_max_of (z p0) (map z ps) + js_lit 100)%js;
                  initialized := true |}
        else None
    end.
Proof.
  unfold seededBounds.
  destruct (flat_map _ sessions) as [|p0 ps]; [reflexivity|].
  unfold Math_min_spread, Math_max_spread. rewrite !length_map. cbn [length].
  destruct (withinArguments (S (length ps))); reflexivity.
Qed.

(** X14.  Over the real numbers: when the points of the sessions in the
    dimension are no more than the engine accepts as arguments of a call,
    the world bounds that the auto-centring effect seeds from them are
    their bounding box widened by 100 blocks on each side (every such
    point lies at least 100 inside, and every side is at exactly 100 from
    some such point); when they are more, the effect throws and assigns no
    bounds. *)
Theorem seededBounds_bounding_box (sessions : list (PlayerSession R)) (d : string)
    (previous : WorldBounds R) (s : PlayerSession R) (p : RoutePoint R) :
  In s sessions -> In p (path s) -> inDim d p = true ->
  let pointsInDim := flat_map (fun s => List.filter (inDim d) (path s)) sessions in
  In p pointsInDim
  /\ (withinArguments (length pointsInDim) = true ->
      exists b,
        seededBounds sessions d previous = Some b
        /\ initialized b = true
        /\ (forall q, In q pointsInDim ->
                      minX b + 100 <= x q <= maxX b - 100
                      /\ minZ b + 100 <= z q <= maxZ b - 100)
        /\ (exists q, In q pointsInDim /\ minX b = x q - 100)
        /\ (exists q, In q pointsInDim /\ maxX b = x q + 100)
        /\ (exists q, In q pointsInDim /\ minZ b = z q - 100)
        /\ (exists q, In q pointsInDim /\ maxZ b = z q + 100))
  /\ (withinArguments (length pointsInDim) = false ->
      seededBounds sessions d previous = None).
Proof.
  intros Hs Hp Hd pointsInDim.
  assert (Hin : In p pointsInDim).
  { apply in_flat_map. exists s. split; [exact Hs|].
    apply filter_In. split; assumption. }
  split; [exact Hin|].
  rewrite seededBounds_outcome. fold pointsInDim.
  destruct pointsInDim as [|p0 ps]; [destruct Hin|].
  split; [|intros ->; reflexivity].
  intros ->. eexists. split; [reflexivity|].
  cbn [initialized minX maxX minZ maxZ js_sub js_add js_lit real_number].
  destruct (Math_min_of_least (map x ps) (x p0)) as (Hx0 & Hxs & Hxin).
  destruct (Math_max_of_greatest (map x ps) (x p0)) as (HX0 & HXs & HXin).
  destruct (Math_min_of_least (map z ps) (z p0)) as (Hz0 & Hzs & Hzin).
  destruct (Math_max_of_greatest (map z ps) (z p0)) as (HZ0 & HZs & HZin).
  assert (Hattained : forall (f : RoutePoint R -> R) (v : R),
             In v (f p0 :: map f ps) -> exists q, In q (p0 :: ps) /\ v = f q).
  { intros f v [<-|Hv]; [exists p0; split; [left|]; reflexivity|].
    apply in_map_iff in Hv as (q & <- & Hq). exists q. split; [right; exact Hq|reflexivity]. }
  split; [reflexivity|]. split.
  - intros q [<-|Hq]; [lra|].
    pose proof (Hxs (x q) (in_map x ps q Hq)).
    pose proof (HXs (x q) (in_map x ps q Hq)).
    pose proof (Hzs (z q) (in_map z ps q Hq)).
    pose proof (HZs (z q) (in_map z ps q Hq)). lra.
  - split; [|split; [|split]].
    + destruct (Hattained x _ Hxin) as (q & Hq & ->). exists q. split; [exact Hq|reflexivity].
    + destruct (Hattained x _ HXin) as (q & Hq & ->). exists q. split; [exact Hq|reflexivity].
    + destruct (Hattained z _ Hzin) as (q & Hq & ->). exists q. split; [exact Hq|reflexivity].
    + destruct (Hattained z _ HZin) as (q & Hq & ->). exists q. split; [exact Hq|reflexivity].
Qed.

Lemma last_Some_In {A : Type} (l : list A) (a : A) : last l = Some a -> In a l.
Proof.
  intros Hlast. apply last_Some in Hlast as [l' ->].
  apply in_or_app. right. left. reflexivity.
Qed.

(** X15.  Over the real numbers, on a view that is not yet initialised
    the auto-centring effect sets [hasInitializedView] exactly when some
    session has a point in the current dimension.  It throws exactly when
    no active session has its last point in the dimension and the points
    in the dimension are more than the engine accepts as arguments of a
    call; the flag is then set, but neither the view is centred nor the
    bounds are assigned.  When it does not throw, the view is centred, at
    scale 2, on a point in the dimension: on the last point of an active
    session and with the bounds left alone if some active session has its
    last point in the dimension, and with the bounds seeded otherwise.
    When it leaves the flag unset it changes nothing. *)
Theorem autoCenter_initialises (sessions : list (PlayerSession R))
    (currentDimension : string) (st : ViewState R) (dimensions : Dimensions R) :
  hasInitializedView st = false ->
  thrown st = false ->
  let st' := autoCenter sessions currentDimension st in
  let d := fullDimId currentDimension in
  let pointsInDim := flat_map (fun s => List.filter (inDim d) (path s)) sessions in
  let activeHere := exists s' p', In s' sessions /\ active s' = true
                                  /\ last (path s') = Some p'
                                  /\ inDim d p' = true in
  (hasInitializedView st' = true <->
   exists s p, In s sessions /\ In p (path s) /\ inDim d p = true)
  /\ (thrown st' = true <->
      ~ activeHere /\ withinArguments (length pointsInDim) = false)
  /\ (thrown st' = true ->
      hasInitializedView st' = true
      /\ transform st' = transform st /\ worldBounds st' = worldBounds st)
  /\ (hasInitializedView st' = true -> thrown st' = false ->
      exists s p, In s sessions /\ In p (path s) /\ inDim d p = true
                  /\ scale (transform st') = 2
                  /\ worldToScreen (transform st') dimensions (x p) (z p)
                     = (width dimensions / 2, height dimensions / 2)
                  /\ (activeHere ->
                      active s = true /\ last (path s) = Some p
                      /\ worldBounds st' = worldBounds st)
                  /\ (~ activeHere ->
                      seededBounds sessions d (worldBounds st)
                      = Some (worldBounds st')))
  /\ (hasInitializedView st' = false -> st' = st).
Proof.
  intros Hinit Hthrown st' d pointsInDim activeHere.
  assert (Hcentred : forall p : RoutePoint R,
             scale (centredAt p) = 2
             /\ worldToScreen (centredAt p) dimensions (x p) (z p)
                = (width dimensions / 2, height dimensions / 2)).
  { intros p. split; [reflexivity|]. unfold worldToScreen, centredAt; cbn. f_equal; ring. }
  assert (Hwithin0 : withinArguments 0 = true) by reflexivity.
  unfold st', autoCenter. rewrite Hinit. fold d.
  set (isActiveHere := fun s : PlayerSession R =>
         active s && match last (path s) with
                     | Some lastPoint => inDim d lastPoint
                     | None => false
                     end).
  set (hasPoint := fun s : PlayerSession R =>
         bool_decide (is_Some (find (inDim d) (path s)))).
  destruct (Nat.eqb (length sessions) 0) eqn:Hlen.
  { apply Nat.eqb_eq in Hlen. destruct sessions; [|discriminate].
    rewrite Hinit, Hthrown.
    split; [split; [discriminate|intros (s & p & [] & _)]|].
    split; [split; [discriminate|intros [_ Habs]; cbn in Habs; discriminate]|].
    split; [discriminate|]. split; [discriminate|reflexivity]. }
  destruct (find isActiveHere sessions) as [s|] eqn:Hhere.
  - apply find_some in Hhere as [Hin Hs]. unfold isActiveHere in Hs.
    apply andb_true_iff in Hs as [Hact Hdim].
    destruct (last (path s)) as [p|] eqn:Hlast; [|discriminate].
    cbn [hasInitializedView transform worldBounds thrown]. rewrite Hthrown.
    assert (Hex : exists s p, In s sessions /\ In p (path s) /\ inDim d p = true).
    { exists s, p. split; [exact Hin|]. split; [apply last_Some_In, Hlast|exact Hdim]. }
    assert (Hactive : activeHere).
    { exists s, p. split; [exact Hin|]. split; [exact Hact|]. split; [exact Hlast|exact Hdim]. }
    split; [split; [intros _; exact Hex|reflexivity]|].
    split; [split; [discriminate|intros [Hno _]; contradiction]|].
    split; [discriminate|]. split; [|discriminate].
    intros _ _. exists s, p. split; [exact Hin|]. split; [apply last_Some_In, Hlast|].
    split; [exact Hdim|]. split; [apply Hcentred|]. split; [apply Hcentred|].
    split; [|intros Hno; contradiction].
    intros _. split; [exact Hact|]. split; [exact Hlast|reflexivity].
  - assert (Hnone : ~ activeHere).
    { intros (s' & p' & Hin' & Hact' & Hlast' & Hdim').
      pose proof (find_none _ _ Hhere s' Hin') as Hno.
      unfold isActiveHere in Hno. rewrite Hact', Hlast', Hdim' in Hno. discriminate. }
    destruct (find hasPoint sessions) as [s|] eqn:Hany.
    + apply find_some in Hany as [Hin Hs]. unfold hasPoint in Hs.
      destruct (find (inDim d) (path s)) as [p|] eqn:Hfind;
        [|apply bool_decide_eq_true in Hs; destruct Hs; discriminate].
      apply find_some in Hfind as [Hp Hdim].
      assert (Hex : exists s p, In s sessions /\ In p (path s) /\ inDim d p = true).
      { exists s, p. split; [exact Hin|]. split; assumption. }
      assert (Hpoints : In p pointsInDim).
      { apply in_flat_map. exists s. split; [exact Hin|].
        apply filter_In. split; assumption. }
      rewrite seededBounds_outcome. fold pointsInDim.
      destruct pointsInDim as [|p0 ps] eqn:Hpts; [destruct Hpoints|].
      destruct (withinArguments (length (p0 :: ps))) eqn:Hwithin;
        cbn [hasInitializedView transform worldBounds thrown]; rewrite ?Hthrown.
      * split; [split; [intros _; exact Hex|reflexivity]|].
        split; [split; [discriminate|intros [_ Habs]; discriminate]|].
        split; [discriminate|]. split; [|discriminate].
        intros _ _. exists s, p. split; [exact Hin|]. split; [exact Hp|].
        split; [exact Hdim|]. split; [apply Hcentred|]. split; [apply Hcentred|].
        split; [intros Hyes; contradiction|]. intros _. reflexivity.
      * split; [split; [intros _; exact Hex|reflexivity]|].
        split; [split; [intros _; split; [exact Hnone|reflexivity]|reflexivity]|].
        split; [intros _; split; [reflexivity|split; reflexivity]|].
        split; [intros _ Habs; discriminate|discriminate].
    + assert (Hempty : pointsInDim = []).
      { destruct pointsInDim as [|q qs] eqn:Hpts; [reflexivity|]. exfalso.
        assert (Hq : In q pointsInDim) by (rewrite Hpts; left; reflexivity).
        unfold pointsInDim in Hq at 1.
        apply in_flat_map in Hq as (s & Hin & Hq). apply filter_In in Hq as [Hq Hdim].
        pose proof (find_none _ _ Hany s Hin) as Hno. unfold hasPoint in Hno.
        destruct (find (inDim d) (path s)) as [q'|] eqn:Hfind.
        - rewrite bool_decide_eq_true_2 in Hno by (eexists; reflexivity). discriminate.
        - pose proof (find_none _ _ Hfind q Hq). congruence. }
      rewrite Hinit, Hthrown. rewrite Hempty.
      split.
      { split; [discriminate|]. intros (s & p & Hin & Hp & Hdim).
        assert (Hq : In p pointsInDim)
          by (apply in_flat_map; exists s; split; [exact Hin|];
              apply filter_In; split; assumption).
        rewrite Hempty in Hq. destruct Hq. }
      split; [split; [discriminate|intros [_ Habs]; cbn in Habs; discriminate]|].
      split; [discriminate|]. split; [discriminate|reflexivity].
Qed.

End AutoCentre.

Section AutoCentreWitnesses.
Import MapCanvas.
Local Existing Instance engine65535.
Local Open Scope R_scope.

Lemma view_initialised_once_witness :
  let st := {| transform := {| offsetX := 0; offsetY := 0; scale := 2 |};
               hasInitializedView := true;
               worldBounds := noBounds;
               prevDimensionRef := "overworld";
               thrown := false |} in
  let os := [TileLoaded 3 4 512%Z 512%Z; SessionsChanged [] "overworld"] in
  hasInitializedView (observeAll st os) = true
  /\ transform (observeAll st os) = transform st.
Proof.
  intros st os.
  destruct (view_initialised_once (engine := engine65535) st os eq_refl)
    as (Hinit & Htr & _).
  split; [exact Hinit|exact Htr].
Defined.

Lemma seededBounds_bounding_box_witness :
  exists b,
    seededBounds [historicalSession] "minecraft:overworld" noBounds
    = Some b /\ initialized b = true.
Proof.
  destruct (proj1 (proj2 (seededBounds_bounding_box (engine := engine65535)
                            [historicalSession] "minecraft:overworld"
                            noBounds historicalSession historicalPoint
                            (or_introl eq_refl) (or_introl eq_refl) eq_refl))
              eq_refl) as (b & Hb & Hinit & _).
  exists b. split; assumption.
Defined.

Lemma autoCenter_initialises_witness :
  hasInitializedView
    (autoCenter [historicalSession] "overworld" initialView) = true
  <-> exists s p, In s [historicalSession] /\ In p (path s)
                  /\ inDim (fullDimId "overworld") p = true.
Proof.
  apply (proj1 (autoCenter_initialises (engine := engine65535)
                  [historicalSession] "overworld" initialView
                  {| width := 800; height := 600 |} eq_refl eq_refl)).
Defined.
End AutoCentreWitnesses.

(** * Further properties of the hook *)

Section HookInvariants.
Import UseWebSocket.
Context {num : Type} `{JsNumber num}.

Lemma clearTimeout_frame (id : nat) (st : HookState num) :
  wsRef (clearTimeout id st) = wsRef st
  /\ connected (clearTimeout id st) = connected st
  /\ sockets (clearTimeout id st) = sockets st
  /\ historicalLoadedRef (clearTimeout id st) = historicalLoadedRef st
  /\ fetches (clearTimeout id st) = fetches st
  /\ reconnectTimeoutRef (clearTimeout id st) = reconnectTimeoutRef st.
Proof. unfold clearTimeout. destruct (timers st !! id); repeat split; reflexivity. Qed.

Lemma ws_close_frame (ws : nat) (st : HookState num) :
  wsRef (ws_close ws st) = wsRef st
  /\ connected (ws_close ws st) = connected st
  /\ historicalLoadedRef (ws_close ws st) = historicalLoadedRef st
  /\ fetches (ws_close ws st) = fetches st
  /\ reconnectTimeoutRef (ws_close ws st) = reconnectTimeoutRef st.
Proof. unfold ws_close. destruct (sockets st !! ws) as [[]|]; repeat split; reflexivity. Qed.

Lemma connect_frame (st : HookState num) :
  connected (connect st) = connected st
  /\ historicalLoadedRef (connect st) = historicalLoadedRef st
  /\ fetches (connect st) = fetches st.
Proof. unfold connect. destruct (bool_decide _); repeat split; reflexivity. Qed.

Lemma disconnect_frame (st : HookState num) :
  connected (disconnect st) = connected st
  /\ historicalLoadedRef (disconnect st) = historicalLoadedRef st
  /\ fetches (disconnect st) = fetches st.
Proof.
  unfold disconnect.
  set (st1 := match reconnectTimeoutRef st with
              | Some id => clearTimeout id st
              | None => st
              end).
  assert (H1 : connected st1 = connected st
               /\ historicalLoadedRef st1 = historicalLoadedRef st
               /\ fetches st1 = fetches st).
  { unfold st1. destruct (reconnectTimeoutRef st) as [id|]; [|repeat split; reflexivity].
    destruct (clearTimeout_frame id st) as (_ & ? & _ & ? & ? & _). repeat split; assumption. }
  destruct H1 as (Hc & Hl & Hf).
  destruct (wsRef st1) as [ws|]; [|repeat split; assumption].
  destruct (ws_close_frame ws st1) as (_ & -> & -> & -> & _). repeat split; assumption.
Qed.

Lemma handleMessage_frame (message : WebSocketMessage num) (st : HookState num) :
  wsRef (handleMessage message st) = wsRef st
  /\ connected (handleMessage message st) = connected st
  /\ sockets (handleMessage message st) = sockets st
  /\ historicalLoadedRef (handleMessage message st) = historicalLoadedRef st
  /\ (historicalLoadedRef st = true -> fetches (handleMessage message st) = fetches st).
Proof.
  destruct st as [? ? ? ? ? ? loaded ? ? ?].
  destruct message as [a w|s|i e s|i p w|w|b m]; cbn;
    unfold fetchHistoricalSessions, setWorldTime_if_number;
    try destruct w; cbn; try destruct loaded; cbn;
    repeat split; try reflexivity; intros Hloaded; (reflexivity || discriminate).
Qed.

Lemma sendMessage_connect (st : HookState num) :
  sendMessage (connect st) = sendMessage st.
Proof.
  unfold connect. fold (sendMessage st).
  destruct (sendMessage st) eqn:E; [exact E|].
  cbn. unfold sendMessage, readyState. cbn.
  rewrite list_lookup_middle by reflexivity.
  apply bool_decide_eq_false_2. discriminate.
Qed.

Lemma sendMessage_clearTimeout (id : nat) (st : HookState num) :
  sendMessage (clearTimeout id st) = sendMessage st.
Proof. unfold clearTimeout. destruct (timers st !! id); reflexivity. Qed.

Lemma sendMessage_disconnect (st : HookState num) :
  sendMessage (disconnect st) = false.
Proof.
  unfold disconnect.
  set (st1 := match reconnectTimeoutRef st with
              | Some id => clearTimeout id st
              | None => st
              end).
  destruct (wsRef st1) as [ws|] eqn:Hws.
  - unfold ws_close.
    destruct (sockets st1 !! ws) as [state|] eqn:Hs.
    + assert (Hlt : (ws < length (sockets st1))%nat) by (eapply lookup_lt_Some; exact Hs).
      destruct state; unfold sendMessage, readyState; cbn; rewrite Hws; cbn;
        rewrite ?list_lookup_insert_eq by exact Hlt; rewrite ?Hs;
        apply bool_decide_eq_false_2; discriminate.
    + unfold sendMessage, readyState. rewrite Hws. cbn. rewrite Hs.
      apply bool_decide_eq_false_2. discriminate.
  - unfold sendMessage. rewrite Hws. apply bool_decide_eq_false_2. discriminate.
Qed.

(** One event keeps the link between [sendMessage] and [connected]. *)
Lemma step_sendMessage (st st' : HookState num) (ev : Event num) :
  step st ev = Some st' ->
  (sendMessage st = true -> connected st = true) ->
  sendMessage st' = true -> connected st' = true.
Proof.
  intros Hstep Hinv.
  destruct ev as [| | | |ws|ws|ws data|id|r]; cbn [step] in Hstep.
  - injection Hstep as <-. rewrite sendMessage_connect.
    destruct (connect_frame st) as (-> & _). exact Hinv.
  - injection Hstep as <-. rewrite sendMessage_disconnect. discriminate.
  - injection Hstep as <-. unfold reconnect. rewrite sendMessage_connect.
    destruct (connect_frame st) as (-> & _). exact Hinv.
  - injection Hstep as <-. rewrite sendMessage_disconnect. discriminate.
  - destruct (readyState st ws) as [[]|]; try discriminate.
    injection Hstep as <-. intros _. reflexivity.
  - destruct (readyState st ws) as [[]|]; try discriminate;
      injection Hstep as <-; unfold sendMessage; cbn; intros Habs;
      apply bool_decide_eq_true in Habs; discriminate.
  - destruct (readyState st ws) as [[]|]; try discriminate.
    injection Hstep as <-. destruct data as [message|]; [|exact Hinv].
    cbn [ws_onmessage]. destruct (handleMessage_frame message st) as (Hw & Hc & Hs & _).
    unfold sendMessage, readyState in *. rewrite Hw, Hc, Hs. exact Hinv.
  - destruct (timers st !! id) as [tm|] eqn:E; [|discriminate].
    destruct (pending tm); [|discriminate]. injection Hstep as <-.
    rewrite sendMessage_connect, sendMessage_clearTimeout.
    destruct (connect_frame (clearTimeout id st)) as (-> & _).
    destruct (clearTimeout_frame id st) as (_ & -> & _). exact Hinv.
  - destruct (fetches st) as [|n]; [discriminate|]. injection Hstep as <-.
    destruct r as [|[|] [data|]]; exact Hinv.
Qed.

(** X16.  Whatever happens to the hook from its initial state, a message
    is handed to the socket only while the hook reports [connected]:
    [sendMessage] returns [true] only in states where [connected] is
    [true]. *)
Theorem sendMessage_only_when_connected (evs : list (Event num))
    (st : HookState num) :
  run initialState evs = Some st ->
  sendMessage st = true -> connected st = true.
Proof.
  assert (Hgen : forall (evs : list (Event num)) (st0 st : HookState num),
             (sendMessage st0 = true -> connected st0 = true) ->
             run st0 evs = Some st ->
             sendMessage st = true -> connected st = true).
  { clear evs st. induction evs as [|ev evs IH]; intros st0 st Hinv Hrun.
    - injection Hrun as <-. exact Hinv.
    - cbn in Hrun. destruct (step st0 ev) as [st1|] eqn:Hstep; [|discriminate].
      apply (IH st1 st); [|exact Hrun]. eapply step_sendMessage; eassumption. }
  apply Hgen. intros Habs. apply bool_decide_eq_true in Habs. discriminate.
Qed.

Lemma clearTimeout_idempotent (id : nat) (st : HookState num) :
  clearTimeout id (clearTimeout id st) = clearTimeout id st.
Proof.
  destruct (timers st !! id) as [tm|] eqn:Htm.
  - assert (Heq : clearTimeout id st
                  = set_timers (<[id := {| delay := delay tm; pending := false |}]>
                                  (timers st)) st)
      by (unfold clearTimeout; rewrite Htm; reflexivity).
    rewrite Heq. unfold clearTimeout. cbn [timers set_timers].
    rewrite list_lookup_insert_eq by (eapply lookup_lt_Some; exact Htm).
    cbn [delay]. rewrite list_insert_insert_eq. destruct st; reflexivity.
  - assert (Heq : clearTimeout id st = st)
      by (unfold clearTimeout; rewrite Htm; reflexivity).
    rewrite !Heq. reflexivity.
Qed.

Lemma ws_close_idempotent (ws : nat) (st : HookState num) :
  ws_close ws (ws_close ws st) = ws_close ws st.
Proof.
  destruct (sockets st !! ws) as [state|] eqn:Hs.
  - assert (Hlt : (ws < length (sockets st))%nat) by (eapply lookup_lt_Some; exact Hs).
    assert (Hclosing : ws_close ws (set_sockets (<[ws := CLOSING]> (sockets st)) st)
                       = set_sockets (<[ws := CLOSING]> (sockets st)) st).
    { unfold ws_close. cbn [sockets set_sockets].
      rewrite list_lookup_insert_eq by exact Hlt. reflexivity. }
    destruct state.
    + replace (ws_close ws st) with (set_sockets (<[ws := CLOSING]> (sockets st)) st)
        by (unfold ws_close; rewrite Hs; reflexivity).
      exact Hclosing.
    + replace (ws_close ws st) with (set_sockets (<[ws := CLOSING]> (sockets st)) st)
        by (unfold ws_close; rewrite Hs; reflexivity).
      exact Hclosing.
    + replace (ws_close ws st) with st by (unfold ws_close; rewrite Hs; reflexivity).
      unfold ws_close; rewrite Hs; reflexivity.
    + replace (ws_close ws st) with st by (unfold ws_close; rewrite Hs; reflexivity).
      unfold ws_close; rewrite Hs; reflexivity.
  - replace (ws_close ws st) with st by (unfold ws_close; rewrite Hs; reflexivity).
    unfold ws_close; rewrite Hs; reflexivity.
Qed.

Lemma clearTimeout_ws_close (id ws : nat) (st : HookState num) :
  clearTimeout id (ws_close ws st) = ws_close ws (clearTimeout id st).
Proof.
  destruct st as [? ? ? ? ? ? ? socks tms ?]. unfold clearTimeout, ws_close. cbn.
  destruct (socks !! ws) as [[]|] eqn:Hs; destruct (tms !! id) as [tm|] eqn:Ht;
    unfold set_timers, set_sockets; cbn; rewrite ?Hs, ?Ht; reflexivity.
Qed.

(** [disconnect], by what its two references hold. *)
Lemma disconnect_eq (st : HookState num) :
  disconnect st
  = (match wsRef st with Some ws => ws_close ws | None => fun st => st end)
      ((match reconnectTimeoutRef st with
        | Some id => clearTimeout id
        | None => fun st => st
        end) st).
Proof.
  unfold disconnect. destruct (reconnectTimeoutRef st) as [id|].
  - destruct (clearTimeout_frame id st) as (-> & _). destruct (wsRef st); reflexivity.
  - destruct (wsRef st); reflexivity.
Qed.

(** X17.  [disconnect] is idempotent, and after it no message is handed
    to a socket; it does not touch [connected], which stays as it was
    until the [close] event arrives. *)
Theorem disconnect_idempotent (st : HookState num) :
  disconnect (disconnect st) = disconnect st
  /\ sendMessage (disconnect st) = false
  /\ connected (disconnect st) = connected st.
Proof.
  split; [|split; [apply sendMessage_disconnect|apply disconnect_frame]].
  rewrite (disconnect_eq (disconnect st)).
  assert (Hrefs : wsRef (disconnect st) = wsRef st
                  /\ reconnectTimeoutRef (disconnect st) = reconnectTimeoutRef st).
  { rewrite (disconnect_eq st).
    destruct (wsRef st) as [ws|] eqn:Hws, (reconnectTimeoutRef st) as [id|] eqn:Href.
    - destruct (ws_close_frame ws (clearTimeout id st)) as (-> & _ & _ & _ & ->).
      destruct (clearTimeout_frame id st) as (-> & _ & _ & _ & _ & ->). auto.
    - destruct (ws_close_frame ws st) as (-> & _ & _ & _ & ->). auto.
    - destruct (clearTimeout_frame id st) as (-> & _ & _ & _ & _ & ->). auto.
    - auto. }
  destruct Hrefs as [-> ->]. rewrite (disconnect_eq st).
  destruct (wsRef st) as [ws|], (reconnectTimeoutRef st) as [id|].
  - rewrite clearTimeout_ws_close, clearTimeout_idempotent. apply ws_close_idempotent.
  - apply ws_close_idempotent.
  - apply clearTimeout_idempotent.
  - reflexivity.
Qed.
End HookInvariants.

Section HookWitnesses.
Import UseWebSocket.

Lemma sendMessage_only_when_connected_witness : connected connectedState = true.
Proof.
  apply (sendMessage_only_when_connected (num := float)
           [Mount; Opened 0%nat] connectedState); reflexivity.
Defined.
End HookWitnesses.

(** ** The session map under the messages *)

Section SessionMessages.
Import UseWebSocket.
Context {num : Type} `{JsNumber num}.
Local Open Scope js_scope.

(** The map [init] builds: at an id, the last of the sessions with that
    id. *)
Lemma init_sessions_lookup (activeSessions : list (PlayerSession num))
    (m0 : gmap string (PlayerSession num)) (id : string) :
  fold_left (fun m session => <[_id session := session]> m) activeSessions m0 !! id
  = match last (List.filter (fun s => bool_decide (_id s = id)) activeSessions) with
    | Some s => Some s
    | None => m0 !! id
    end.
Proof.
  induction activeSessions as [|s l IH] using rev_ind; [reflexivity|].
  rewrite fold_left_app, List.filter_app. cbn [fold_left List.filter].
  destruct (decide (_id s = id)) as [Heq|Hne].
  - rewrite (bool_decide_eq_true_2 (_id s = id)) by exact Heq.
    rewrite last_snoc, Heq. apply lookup_insert_eq.
  - rewrite (bool_decide_eq_false_2 (_id s = id)) by exact Hne.
    rewrite app_nil_r, lookup_insert_ne by exact Hne. exact IH.
Qed.

(** X18.  An [init] message replaces the session map: afterwards an id
    holds the last of the [activeSessions] with that id, and nothing when
    there is none, whatever the map held before. *)
Theorem init_replaces_sessions (activeSessions : list (PlayerSession num))
    (w : option num) (st : HookState num) (id : string) :
  sessions (handleMessage (init activeSessions w) st) !! id
  = last (List.filter (fun s => bool_decide (_id s = id)) activeSessions).
Proof.
  assert (Hframe : forall st' : HookState num,
             sessions (fetchHistoricalSessions (setWorldTime_if_number w st'))
             = sessions st').
  { intros st'. unfold fetchHistoricalSessions, setWorldTime_if_number.
    destruct w; cbn; destruct (historicalLoadedRef st'); reflexivity. }
  cbn [handleMessage]. rewrite Hframe. cbn [sessions setSessions].
  rewrite init_sessions_lookup, lookup_empty.
  destruct (last _); reflexivity.
Qed.

(** X19.  Which ids the session map holds after a message: [init] leaves
    the ids of its [activeSessions], [session_start] adds the id of its
    session, and no other message adds or removes an id; a [route_point]
    or [session_end] for an id that is not in the map creates no entry. *)
Theorem session_ids_after_message (message : WebSocketMessage num)
    (st : HookState num) (id : string) :
  is_Some (sessions (handleMessage message st) !! id)
  <-> match message with
      | init activeSessions _ => exists s, In s activeSessions /\ _id s = id
      | session_start session => id = _id session \/ is_Some (sessions st !! id)
      | _ => is_Some (sessions st !! id)
      end.
Proof.
  destruct message as [a w|s|i e s|i p w|w|b m].
  - assert (Hframe : forall st' : HookState num,
               sessions (fetchHistoricalSessions (setWorldTime_if_number w st'))
               = sessions st').
    { intros st'. unfold fetchHistoricalSessions, setWorldTime_if_number.
      destruct w; cbn; destruct (historicalLoadedRef st'); reflexivity. }
    cbn [handleMessage]. rewrite Hframe. cbn [sessions setSessions].
    rewrite init_sessions_lookup, lookup_empty.
    destruct (last (List.filter _ a)) as [s|] eqn:Hlast.
    + split; [intros _|eauto]. apply last_Some in Hlast as [l' Hl'].
      assert (Hin : In s (List.filter (fun s => bool_decide (_id s = id)) a))
        by (rewrite Hl'; apply in_or_app; right; left; reflexivity).
      apply filter_In in Hin as [Hin Hid]. apply bool_decide_eq_true in Hid.
      exists s. split; assumption.
    + split; [intros [? ?]; discriminate|]. intros (s & Hin & Hid).
      apply last_None in Hlast.
      assert (Hin' : In s (List.filter (fun s => bool_decide (_id s = id)) a))
        by (apply filter_In; split; [exact Hin|apply bool_decide_eq_true_2, Hid]).
      rewrite Hlast in Hin'. destruct Hin'.
  - cbn [handleMessage sessions setSessions]. unfold startSession.
    destruct (decide (id = _id s)) as [->|Hne].
    + rewrite lookup_insert_eq. split; [left; reflexivity|eauto].
    + rewrite lookup_insert_ne by congruence. split; [right; assumption|].
      intros [Habs|Hsome]; [contradiction|exact Hsome].
  - cbn [handleMessage sessions setSessions]. unfold endSession.
    destruct (sessions st !! i) as [session|] eqn:Hi; [|reflexivity].
    destruct (decide (id = i)) as [->|Hne].
    + rewrite lookup_insert_eq, Hi. split; eauto.
    + rewrite lookup_insert_ne by congruence. reflexivity.
  - cbn [handleMessage]. unfold setWorldTime_if_number.
    assert (Hsessions : sessions match w with
                                 | Some _ => setWorldTime w (setSessions (addRoutePoint i p (sessions st)) st)
                                 | None => setSessions (addRoutePoint i p (sessions st)) st
                                 end = addRoutePoint i p (sessions st))
      by (destruct w; reflexivity).
    rewrite Hsessions. unfold addRoutePoint.
    destruct (sessions st !! i) as [session|] eqn:Hi; [|reflexivity].
    destruct (decide (id = i)) as [->|Hne].
    + rewrite lookup_insert_eq, Hi. split; eauto.
    + rewrite lookup_insert_ne by congruence. reflexivity.
  - cbn [handleMessage]. unfold setWorldTime_if_number. destruct w; reflexivity.
  - reflexivity.
Qed.

(** The session an id holds after the points of a list arrived for it. *)
Lemma handleAll_route_points (sessionId : string) (w : RoutePoint num -> option num)
    (points : list (RoutePoint num)) (st : HookState num) (session : PlayerSession num) :
  sessions st !! sessionId = Some session ->
  let st' := handleAll ((fun p => route_point sessionId p (w p)) <$> points) st in
  sessions st' !! sessionId = Some (fold_left appendPoint points session)
  /\ forall id, id <> sessionId -> sessions st' !! id = sessions st !! id.
Proof.
  revert st session. induction points as [|p points IH]; intros st session Hs.
  - cbn. split; [exact Hs|reflexivity].
  - cbn [fmap list_fmap handleAll fold_left].
    set (st1 := handleMessage (route_point sessionId p (w p)) st).
    assert (Hst1 : sessions st1 = <[sessionId := appendPoint session p]> (sessions st)).
    { unfold st1. cbn [handleMessage]. unfold setWorldTime_if_number, addRoutePoint.
      destruct (w p); cbn [sessions setWorldTime setSessions]; rewrite Hs; reflexivity. }
    assert (Hs1 : sessions st1 !! sessionId = Some (appendPoint session p))
      by (rewrite Hst1; apply lookup_insert_eq).
    destruct (IH st1 (appendPoint session p) Hs1) as [Hsession Hothers].
    split; [exact Hsession|]. intros id Hne.
    unfold handleAll in Hothers. rewrite (Hothers id Hne), Hst1.
    apply lookup_insert_ne. congruence.
Qed.

Lemma fold_appendPoint (points : list (RoutePoint num)) (session : PlayerSession num) :
  let session' := fold_left appendPoint points session in
  path session' = path session ++ points
  /\ lastSeenAt session' = default (lastSeenAt session) (t <$> last points)
  /\ samples (stats session')
     = fold_left (fun n _ => n + js_lit 1) points (samples (stats session))
  /\ distanceXZ (stats session')
     = match last (path session), points with
       | Some prev, _ => distanceFrom prev points (distanceXZ (stats session))
       | None, p0 :: rest => distanceFrom p0 rest (distanceXZ (stats session))
       | None, [] => distanceXZ (stats session)
       end
  /\ _id session' = _id session /\ active session' = active session
  /\ endedAt session' = endedAt session.
Proof.
  revert session. induction points as [|p points IH]; intros session.
  - cbn. rewrite app_nil_r. destruct (last (path session)); repeat split; reflexivity.
  - cbn [fold_left]. destruct (IH (appendPoint session p)) as (Hp & Ht & Hn & Hd & Hi & Ha & He).
    cbn zeta. rewrite Hp, Ht, Hn, Hd, Hi, Ha, He. clear IH Hp Ht Hn Hd Hi Ha He.
    rewrite appendPoint_distance.
    cbn [appendPoint path lastSeenAt stats samples _id active endedAt].
    rewrite last_snoc, <- app_assoc. cbn [app].
    split; [reflexivity|]. split.
    { destruct points as [|q points]; [reflexivity|]. rewrite last_cons_cons.
      destruct (last (q :: points)) eqn:E; [reflexivity|].
      apply last_None in E. discriminate. }
    split; [reflexivity|]. split; [|repeat split; reflexivity].
    destruct (last (path session)); reflexivity.
Qed.

(** X20.  At every number instance: when the points of a list arrive, one
    [route_point] message each, for a session of the map, the path of the
    session is extended by the list, [lastSeenAt] is the time of the last
    point, [samples] has grown by one per point, [distanceXZ] has grown by
    the lengths of the consecutive segments, added in the order of
    arrival and starting at the last point the path had (at the first
    point of the list if it had none), and no other session has changed. *)
Theorem route_points_accumulate (sessionId : string) (w : RoutePoint num -> option num)
    (points : list (RoutePoint num)) (st : HookState num) (session : PlayerSession num) :
  sessions st !! sessionId = Some session ->
  let st' := handleAll ((fun p => route_point sessionId p (w p)) <$> points) st in
  (exists session',
      sessions st' !! sessionId = Some session'
      /\ path session' = path session ++ points
      /\ lastSeenAt session' = default (lastSeenAt session) (t <$> last points)
      /\ samples (stats session')
         = fold_left (fun n _ => n + js_lit 1) points (samples (stats session))
      /\ distanceXZ (stats session')
         = match last (path session), points with
           | Some prev, _ => distanceFrom prev points (distanceXZ (stats session))
           | None, p0 :: rest => distanceFrom p0 rest (distanceXZ (stats session))
           | None, [] => distanceXZ (stats session)
           end
      /\ active session' = active session)
  /\ forall id, id <> sessionId -> sessions st' !! id = sessions st !! id.
Proof.
  intros Hs st'.
  destruct (handleAll_route_points sessionId w points st session Hs) as [Hsession Hothers].
  split; [|exact Hothers].
  exists (fold_left appendPoint points session).
  destruct (fold_appendPoint points session) as (Hp & Ht & Hn & Hd & _ & Ha & _).
  split; [exact Hsession|]. repeat split; assumption.
Qed.
End SessionMessages.

Section TravelledDistance.
Import UseWebSocket.
Local Open Scope R_scope.

(** The planar distance between two points. *)
Lemma planar_triangle (u1 v1 u2 v2 : R) :
  sqrt ((u1 + u2) * (u1 + u2) + (v1 + v2) * (v1 + v2))
  <= sqrt (u1 * u1 + v1 * v1) + sqrt (u2 * u2 + v2 * v2).
Proof.
  set (A := sqrt (u1 * u1 + v1 * v1)). set (B := sqrt (u2 * u2 + v2 * v2)).
  assert (HA : 0 <= A) by apply sqrt_pos.
  assert (HB : 0 <= B) by apply sqrt_pos.
  assert (HAA : A * A = u1 * u1 + v1 * v1) by (apply sqrt_sqrt; nra).
  assert (HBB : B * B = u2 * u2 + v2 * v2) by (apply sqrt_sqrt; nra).
  assert (Hcs : u1 * u2 + v1 * v2 <= A * B).
  { destruct (Rle_dec (u1 * u2 + v1 * v2) (A * B)) as [|Hgt]; [assumption|].
    exfalso. apply Rnot_le_lt in Hgt.
    assert (Hsq : (u1 * u2 + v1 * v2) * (u1 * u2 + v1 * v2) <= (A * A) * (B * B)).
    { rewrite HAA, HBB.
      assert (Hdiff : (u1 * u1 + v1 * v1) * (u2 * u2 + v2 * v2)
                      - (u1 * u2 + v1 * v2) * (u1 * u2 + v1 * v2)
                      = (u1 * v2 - u2 * v1) * (u1 * v2 - u2 * v1)) by ring.
      pose proof (Rle_0_sqr (u1 * v2 - u2 * v1)) as Hsqr. unfold Rsqr in Hsqr. lra. }
    assert (HAB : 0 <= A * B) by (apply Rmult_le_pos; assumption).
    set (c := u1 * u2 + v1 * v2) in *.
    assert (Hpos : 0 < (c - A * B) * (c + A * B))
      by (apply Rmult_lt_0_compat; lra).
    nra. }
  rewrite <- (sqrt_square (A + B)) by lra.
  apply sqrt_le_1_alt. nra.
Qed.

Lemma last_cons_default {A : Type} (a p : A) (l : list A) :
  default a (last (p :: l)) = default p (last l).
Proof.
  destruct l as [|q l]; [reflexivity|]. rewrite last_cons_cons.
  destruct (last (q :: l)) eqn:E; [reflexivity|]. apply last_None in E. discriminate.
Qed.

Lemma distanceFrom_lower (rest : list (RoutePoint R)) (prev : RoutePoint R) (acc : R) :
  let final := default prev (last rest) in
  acc + sqrt ((x final - x prev) * (x final - x prev)
              + (z final - z prev) * (z final - z prev))
  <= distanceFrom prev rest acc.
Proof.
  revert prev acc. induction rest as [|p rest IH]; intros prev acc final.
  - unfold final. cbn.
    replace ((x prev - x prev) * (x prev - x prev)
             + (z prev - z prev) * (z prev - z prev)) with 0 by ring.
    rewrite sqrt_0. lra.
  - cbn [distanceFrom js_sub js_mul js_add Math_sqrt real_number].
    specialize (IH p (acc + sqrt ((x p - x prev) * (x p - x prev)
                                   + (z p - z prev) * (z p - z prev)))).
    cbn zeta in IH. unfold final. rewrite last_cons_default.
    set (q := default p (last rest)) in *.
    pose proof (planar_triangle (x p - x prev) (z p - z prev)
                  (x q - x p) (z q - z p)) as Htri.
    replace (x p - x prev + (x q - x p)) with (x q - x prev) in Htri by ring.
    replace (z p - z prev + (z q - z p)) with (z q - z prev) in Htri by ring.
    lra.
Qed.

Lemma distanceFrom_grows (rest : list (RoutePoint R)) (prev : RoutePoint R) (acc : R) :
  acc <= distanceFrom prev rest acc.
Proof.
  pose proof (distanceFrom_lower rest prev acc) as Hlow. cbn zeta in Hlow.
  pose proof (sqrt_pos ((x (default prev (last rest)) - x prev)
                        * (x (default prev (last rest)) - x prev)
                        + (z (default prev (last rest)) - z prev)
                          * (z (default prev (last rest)) - z prev))).
  lra.
Qed.

(** X21.  Over the real numbers, the distance of a session never
    decreases when points arrive for it, and it grows by no less than the
    straight planar distance from the last point the path had to the last
    point that arrived. *)
Theorem distance_at_least_displacement (sessionId : string)
    (w : RoutePoint R -> option R) (points : list (RoutePoint R))
    (st : HookState R) (session : PlayerSession R) :
  sessions st !! sessionId = Some session ->
  exists session',
    sessions (handleAll ((fun p => route_point sessionId p (w p)) <$> points) st)
      !! sessionId = Some session'
    /\ distanceXZ (stats session) <= distanceXZ (stats session')
    /\ forall prev final,
        last (path session) = Some prev -> last points = Some final ->
        distanceXZ (stats session)
        + sqrt ((x final - x prev) * (x final - x prev)
                + (z final - z prev) * (z final - z prev))
        <= distanceXZ (stats session').
Proof.
  intros Hs.
  destruct (handleAll_route_points sessionId w points st session Hs) as [Hsession _].
  exists (fold_left appendPoint points session). split; [exact Hsession|].
  destruct (fold_appendPoint points session) as (_ & _ & _ & Hd & _).
  cbn zeta in Hd. rewrite Hd. split.
  - destruct (last (path session)) as [prev|]; [apply distanceFrom_grows|].
    destruct points as [|p0 rest]; [apply Rle_refl|apply distanceFrom_grows].
  - intros prev final Hprev Hfinal. rewrite Hprev.
    pose proof (distanceFrom_lower points prev (distanceXZ (stats session))) as Hlow.
    cbn zeta in Hlow. rewrite Hfinal in Hlow. exact Hlow.
Qed.
End TravelledDistance.

Section HistoricalFetch.
Import UseWebSocket.
Context {num : Type} `{JsNumber num}.

Lemma step_loaded (st st' : HookState num) (ev : Event num) :
  step st ev = Some st' ->
  historicalLoadedRef st = true ->
  historicalLoadedRef st' = true
  /\ (fetches st' + (if isResponded ev then 1 else 0))%nat = fetches st.
Proof.
  intros Hstep Hloaded.
  destruct ev as [| | | |ws|ws|ws data|id|r]; cbn [step] in Hstep;
    cbn [isResponded]; rewrite ?Nat.add_0_r.
  - injection Hstep as <-. destruct (connect_frame st) as (_ & -> & ->). auto.
  - injection Hstep as <-. destruct (disconnect_frame st) as (_ & -> & ->). auto.
  - injection Hstep as <-. unfold reconnect.
    destruct (connect_frame st) as (_ & -> & ->). auto.
  - injection Hstep as <-. destruct (disconnect_frame st) as (_ & -> & ->). auto.
  - destruct (readyState st ws) as [[]|]; try discriminate.
    injection Hstep as <-. auto.
  - destruct (readyState st ws) as [[]|]; try discriminate;
      injection Hstep as <-; auto.
  - destruct (readyState st ws) as [[]|]; try discriminate.
    injection Hstep as <-. destruct data as [message|]; [|auto].
    cbn [ws_onmessage].
    destruct (handleMessage_frame message st) as (_ & _ & _ & -> & Hf).
    rewrite (Hf Hloaded). auto.
  - destruct (timers st !! id) as [tm|] eqn:E; [|discriminate].
    destruct (pending tm); [|discriminate]. injection Hstep as <-.
    destruct (connect_frame (clearTimeout id st)) as (_ & -> & ->).
    destruct (clearTimeout_frame id st) as (_ & _ & _ & -> & -> & _). auto.
  - destruct (fetches st) as [|n]; [discriminate|]. injection Hstep as <-.
    destruct r as [|[|] [data|]]; cbn; split; (assumption || reflexivity || lia).
Qed.

Lemma step_unloaded (st st' : HookState num) (ev : Event num) :
  step st ev = Some st' ->
  historicalLoadedRef st = false ->
  (fetches st' + (if isResponded ev then 1 else 0))%nat
  = (fetches st + (if isInitReceived ev then 1 else 0))%nat.
Proof.
  intros Hstep Hunloaded.
  destruct ev as [| | | |ws|ws|ws data|id|r]; cbn [step] in Hstep;
    cbn [isResponded isInitReceived]; rewrite ?Nat.add_0_r.
  - injection Hstep as <-. destruct (connect_frame st) as (_ & _ & ->). reflexivity.
  - injection Hstep as <-. destruct (disconnect_frame st) as (_ & _ & ->). reflexivity.
  - injection Hstep as <-. unfold reconnect.
    destruct (connect_frame st) as (_ & _ & ->). reflexivity.
  - injection Hstep as <-. destruct (disconnect_frame st) as (_ & _ & ->). reflexivity.
  - destruct (readyState st ws) as [[]|]; try discriminate.
    injection Hstep as <-. reflexivity.
  - destruct (readyState st ws) as [[]|]; try discriminate;
      injection Hstep as <-; reflexivity.
  - destruct (readyState st ws) as [[]|]; try discriminate.
    injection Hstep as <-. destruct data as [message|]; [|cbn; lia].
    cbn [ws_onmessage]. destruct st as [? ? ? ? ? ? loaded ? ? ?].
    cbn in Hunloaded. subst loaded.
    destruct message as [a w|s|i e s|i p w|w|b m]; cbn;
      unfold fetchHistoricalSessions, setWorldTime_if_number;
      try destruct w; cbn; lia.
  - destruct (timers st !! id) as [tm|] eqn:E; [|discriminate].
    destruct (pending tm); [|discriminate]. injection Hstep as <-.
    destruct (connect_frame (clearTimeout id st)) as (_ & _ & ->).
    destruct (clearTimeout_frame id st) as (_ & _ & _ & _ & -> & _). reflexivity.
  - destruct (fetches st) as [|n]; [discriminate|]. injection Hstep as <-.
    destruct r as [|[|] [data|]]; cbn; lia.
Qed.

(** X22.  The requests for the historical sessions, over every sequence
    of events: the guard of [fetchHistoricalSessions] is the flag that a
    merged response sets, not a request in flight.  As long as
    [historicalLoadedRef] is unset, every [init] message starts a request,
    so that two [init] messages before the first response start two;
    once the flag is set it stays set and no further request is started.
    In every case no more requests are started than [init] messages
    arrive. *)
Theorem historical_fetch_requests (evs : list (Event num)) (st st' : HookState num) :
  run st evs = Some st' ->
  let responses := length (List.filter isResponded evs) in
  let inits := length (List.filter isInitReceived evs) in
  (fetches st' + responses <= fetches st + inits)%nat
  /\ (historicalLoadedRef st' = false ->
      historicalLoadedRef st = false
      /\ (fetches st' + responses = fetches st + inits)%nat)
  /\ (historicalLoadedRef st = true ->
      historicalLoadedRef st' = true
      /\ (fetches st' + responses = fetches st)%nat).
Proof.
  revert st. induction evs as [|ev evs IH]; intros st Hrun.
  - injection Hrun as <-. cbn. split; [lia|]. split; intros Hl; (split; [exact Hl|lia]).
  - cbn in Hrun. destruct (step st ev) as [st1|] eqn:Hstep; [|discriminate].
    destruct (IH st1 Hrun) as (Hle & Hunloaded & Hloaded). clear IH.
    cbn zeta in *. cbn [List.filter].
    assert (Hcount : forall (f : Event num -> bool),
               length (if f ev then ev :: List.filter f evs else List.filter f evs)
               = ((if f ev then 1 else 0) + length (List.filter f evs))%nat)
      by (intros f; destruct (f ev); reflexivity).
    rewrite !Hcount.
    destruct (historicalLoadedRef st) eqn:Hst.
    + destruct (step_loaded st st1 ev Hstep Hst) as [Hst1 Hf1].
      destruct (Hloaded Hst1) as [Hst' Hf'].
      split; [destruct (isInitReceived ev); lia|].
      split; [intros Habs; congruence|]. intros _. split; [exact Hst'|lia].
    + pose proof (step_unloaded st st1 ev Hstep Hst) as Hf1.
      split; [lia|]. split; [|discriminate].
      intros Hst'. split; [reflexivity|].
      destruct (historicalLoadedRef st1) eqn:Hst1.
      * destruct (Hloaded eq_refl) as [Habs _]. congruence.
      * destruct (Hunloaded Hst') as [_ Hf']. lia.
Qed.
End HistoricalFetch.

Section SessionWitnesses.
Import UseWebSocket.

Lemma historical_fetch_requests_witness :
  fetches (handleAll [init [emptySession] None; init [emptySession] None]
             connectedState) = 2%nat.
Proof.
  destruct (historical_fetch_requests (num := float)
              [Received 0%nat (Some (init [emptySession] None));
               Received 0%nat (Some (init [emptySession] None))]
              connectedState
              (handleAll [init [emptySession] None; init [emptySession] None]
                 connectedState) eq_refl) as (_ & Hunloaded & _).
  destruct (Hunloaded eq_refl) as [_ Hrequests].
  cbn [List.filter isResponded isInitReceived length] in Hrequests.
  rewrite Nat.add_0_r in Hrequests. exact Hrequests.
Defined.

Lemma route_points_accumulate_witness :
  let st := handleMessage (session_start emptySession) initialState in
  let st' := handleAll ((fun p => route_point "s1" p None)
                          <$> [pointAt 0 0 1; pointAt 3 4 2]) st in
  exists session',
    sessions st' !! "s1" = Some session'
    /\ path session' = [pointAt 0 0 1; pointAt 3 4 2]
    /\ lastSeenAt session' = 2%float.
Proof.
  intros st st'.
  destruct (proj1 (route_points_accumulate (num := float) "s1" (fun _ => None)
                     [pointAt 0 0 1; pointAt 3 4 2] st emptySession eq_refl))
    as (session' & Hs & Hpath & Hseen & _).
  exists session'. split; [exact Hs|]. split; [exact Hpath|exact Hseen].
Defined.

Lemma distance_at_least_displacement_witness :
  let st := handleMessage (session_start historicalSession) initialState in
  exists session',
    sessions (handleAll ((fun p => route_point "h1" p None) <$> [historicalPoint]) st)
      !! "h1" = Some session'
    /\ (distanceXZ (stats historicalSession) <= distanceXZ (stats session'))%R.
Proof.
  intros st.
  destruct (distance_at_least_displacement "h1" (fun _ => None) [historicalPoint]
              st historicalSession eq_refl) as (session' & Hs & Hle & _).
  exists session'. split; assumption.
Defined.
End SessionWitnesses.

(** * The page, the token check and the players of the storage *)

Section PageSelection.
Import MapCanvas Page.

Lemma eqb_string_cases (a b : string) :
  (String.eqb a b = true /\ a = b) \/ (String.eqb a b = false /\ a <> b).
Proof. destruct (String.eqb_spec a b); [left|right]; split; auto. Qed.

(** X23.  The two helpers of the dimension selector are inverse to each
    other on the known dimensions and only there: a full id goes through
    [dimensionToShort] and back unchanged exactly when it is one of the
    three known ids, a short name through [dimensionToFull] and back
    exactly when it is one of the three dimensions, and every other id or
    name ends as the overworld; on the three dimensions [dimensionToFull]
    is the table [DIMENSION_FULL_IDS] of the canvas. *)
Theorem dimension_helpers_inverse (short fullId : string) :
  (dimensionToFull (dimensionToShort fullId) = fullId
   <-> fullId = "minecraft:overworld" \/ fullId = "minecraft:the_nether"
       \/ fullId = "minecraft:the_end")
  /\ (dimensionToShort (dimensionToFull short) = short
      <-> short = "overworld" \/ short = "the_nether" \/ short = "the_end")
  /\ (fullId <> "minecraft:the_nether" -> fullId <> "minecraft:the_end" ->
      dimensionToShort fullId = "overworld")
  /\ (short <> "the_nether" -> short <> "the_end" ->
      dimensionToFull short = "minecraft:overworld")
  /\ (short = "overworld" \/ short = "the_nether" \/ short = "the_end" ->
      dimensionToFull short = fullDimId short).
Proof.
  split; [|split; [|split; [|split]]].
  - unfold dimensionToShort.
    destruct (eqb_string_cases fullId "minecraft:the_nether") as [[-> ->]|[-> Hn]].
    { split; [intros _; right; left; reflexivity|reflexivity]. }
    destruct (eqb_string_cases fullId "minecraft:the_end") as [[-> ->]|[-> He]].
    { split; [intros _; right; right; reflexivity|reflexivity]. }
    cbn. split; [intros <-; left; reflexivity|].
    intros [->|[->| ->]]; [reflexivity|contradiction|contradiction].
  - unfold dimensionToFull.
    destruct (eqb_string_cases short "the_nether") as [[-> ->]|[-> Hn]].
    { split; [intros _; right; left; reflexivity|reflexivity]. }
    destruct (eqb_string_cases short "the_end") as [[-> ->]|[-> He]].
    { split; [intros _; right; right; reflexivity|reflexivity]. }
    cbn. split; [intros <-; left; reflexivity|].
    intros [->|[->| ->]]; [reflexivity|contradiction|contradiction].
  - intros Hn He. unfold dimensionToShort.
    destruct (eqb_string_cases fullId "minecraft:the_nether") as [[_ ->]|[-> _]];
      [contradiction|].
    destruct (eqb_string_cases fullId "minecraft:the_end") as [[_ ->]|[-> _]];
      [contradiction|reflexivity].
  - intros Hn He. unfold dimensionToFull.
    destruct (eqb_string_cases short "the_nether") as [[_ ->]|[-> _]];
      [contradiction|].
    destruct (eqb_string_cases short "the_end") as [[_ ->]|[-> _]];
      [contradiction|reflexivity].
  - intros [->|[->| ->]]; reflexivity.
Qed.

Lemma known_dimension_round_trip (fullId : string) :
  fullId = "minecraft:overworld" \/ fullId = "minecraft:the_nether"
  \/ fullId = "minecraft:the_end" ->
  fullDimId (dimensionToShort fullId) = fullId.
Proof. intros [->|[->| ->]]; reflexivity. Qed.

(** X24.  Selecting a session always records the selection.  The canvas
    is asked to centre exactly when the session is in the map and has a
    point, and then on its last point, while the current dimension
    becomes the short form of the dimension of that point, so that the
    canvas, which filters by the full id of the current dimension, shows
    the point whenever its dimension is one of the three known ones;
    otherwise the current dimension stays as it is. *)
Theorem handleSessionSelect_follows_player {num : Type}
    (sessions : gmap string (PlayerSession num)) (sessionId : option string)
    (st : PageState) :
  let '(st', centre) := handleSessionSelect sessions sessionId st in
  selectedSessionId st' = sessionId
  /\ match centre with
     | Some (px, pz) =>
         exists id session lastPoint,
           sessionId = Some id /\ sessions !! id = Some session
           /\ last (path session) = Some lastPoint
           /\ px = x lastPoint /\ pz = z lastPoint
           /\ currentDimension st' = dimensionToShort (dim lastPoint)
           /\ (dim lastPoint = "minecraft:overworld"
               \/ dim lastPoint = "minecraft:the_nether"
               \/ dim lastPoint = "minecraft:the_end" ->
               inDim (fullDimId (currentDimension st')) lastPoint = true)
     | None =>
         currentDimension st' = currentDimension st
         /\ forall id session, sessionId = Some id -> id <> EmptyString ->
                               sessions !! id = Some session -> path session = []
     end.
Proof.
  unfold handleSessionSelect.
  destruct sessionId as [id|]; [|split; [reflexivity|split; [reflexivity|discriminate]]].
  destruct (eqb_string_cases id EmptyString) as [[-> ->]|[-> Hid]].
  { split; [reflexivity|]. split; [reflexivity|]. intros id' session [= <-] Hne.
    contradiction. }
  destruct (sessions !! id) as [session|] eqn:Hs.
  - destruct (last (path session)) as [lastPoint|] eqn:Hlast.
    + split; [reflexivity|]. exists id, session, lastPoint.
      split; [reflexivity|]. split; [exact Hs|]. split; [exact Hlast|].
      split; [reflexivity|]. split; [reflexivity|].
      assert (Hdim : (if negb (String.eqb (dimensionToShort (dim lastPoint))
                                 (currentDimension st))
                      then dimensionToShort (dim lastPoint)
                      else currentDimension st)
                     = dimensionToShort (dim lastPoint)).
      { destruct (eqb_string_cases (dimensionToShort (dim lastPoint))
                    (currentDimension st)) as [[-> ->]|[-> _]]; reflexivity. }
      cbn [currentDimension]. rewrite Hdim. split; [reflexivity|].
      intros Hknown. unfold inDim.
      rewrite (known_dimension_round_trip (dim lastPoint) Hknown).
      apply String.eqb_refl.
    + split; [reflexivity|]. split; [reflexivity|].
      intros id' session' [= <-] _ Hs'. rewrite Hs in Hs'. injection Hs' as <-.
      apply last_None, Hlast.
  - split; [reflexivity|]. split; [reflexivity|].
    intros id' session' [= <-] _ Hs'. rewrite Hs in Hs'. discriminate.
Qed.
End PageSelection.

Section TokenCheck.
Import Auth.

Lemma length_pos_nonempty (s : string) :
  (0 <? String.length s)%nat = true <-> s <> EmptyString.
Proof.
  destruct s; cbn; split; try congruence; try discriminate; reflexivity.
Qed.

(** X25.  The two functions of [lib/auth.ts] agree: [verifyAuth] accepts
    a request exactly when [getTokenFromRequest] extracts a token from it
    that is not the empty string; a non-empty [token] parameter of the
    query is that token, before any header. *)
Theorem verifyAuth_iff_token (request : Request) :
  (verifyAuth request = true
   <-> exists token, getTokenFromRequest request = Some token /\ token <> EmptyString)
  /\ (forall q, queryToken request = Some q -> q <> EmptyString ->
                verifyAuth request = true /\ getTokenFromRequest request = Some q).
Proof.
  assert (Hheader :
            match authHeader request with
            | None => false
            | Some header =>
                if String.eqb header "" then false
                else if String.prefix "Bearer " header
                     then (0 <? String.length (substring_from 7 header))%nat
                     else (0 <? String.length header)%nat
            end = true
            <-> exists token,
                match authHeader request with
                | Some header =>
                    if String.prefix "Bearer " header
                    then Some (substring_from 7 header) else Some header
                | None => None
                end = Some token /\ token <> EmptyString).
  { destruct (authHeader request) as [header|];
      [|split; [discriminate|intros (? & ? & _); discriminate]].
    destruct (String.eqb_spec header "") as [->|Hne].
    - cbn. split; [discriminate|]. intros (token & [= <-] & Habs). contradiction.
    - destruct (String.prefix "Bearer " header).
      + rewrite length_pos_nonempty. split; [eauto|].
        intros (token & [= <-] & Hne'). exact Hne'.
      + rewrite length_pos_nonempty. split; [eauto|]. intros _. exact Hne. }
  unfold verifyAuth, getTokenFromRequest. split.
  - destruct (queryToken request) as [q|]; [|exact Hheader].
    destruct (String.eqb_spec q "") as [->|Hne]; [exact Hheader|].
    rewrite (proj2 (length_pos_nonempty q) Hne). split; [eauto|reflexivity].
  - intros q -> Hne. rewrite (proj2 (length_pos_nonempty q) Hne).
    destruct (String.eqb_spec q ""); [contradiction|]. split; reflexivity.
Qed.
End TokenCheck.

Section StoragePlayers.
Import Storage.
Context {num : Type} `{JsNumber num}.

(** X26.  The player map [getPlayers] builds holds a player exactly for
    the uuids that have a session; the player's [sessionCount] is the
    number of the sessions with that uuid, the player is [online] exactly
    when one of them is active, and [currentSessionId] is the id of the
    last active one in the order of the cache (none when none is
    active). *)
Theorem playerMapOf_counts (sessions : list (PlayerSession num)) (u : string) :
  let mine := List.filter (fun s => bool_decide (playerUuid s = u)) sessions in
  match playerMapOf sessions !! u with
  | None => mine = []
  | Some player =>
      uuid player = u
      /\ sessionCount player = length mine
      /\ (1 <= length mine)%nat
      /\ online player = existsb active mine
      /\ currentSessionId player = _id <$> last (List.filter active mine)
  end.
Proof.
  unfold playerMapOf.
  induction sessions as [|s l IH] using rev_ind; [reflexivity|].
  rewrite fold_left_app, List.filter_app. cbn [fold_left List.filter].
  set (mine := List.filter (fun s => bool_decide (playerUuid s = u)) l) in *.
  cbn zeta in IH. cbn zeta. unfold addSession at 1.
  destruct (decide (playerUuid s = u)) as [Heq|Hne].
  - rewrite (bool_decide_eq_true_2 (playerUuid s = u)) by exact Heq.
    rewrite Heq.
    destruct (fold_left addSession l ∅ !! u) as [existing|].
    + destruct IH as (Hu & Hcount & Hpos & Honline & Hcurrent).
      rewrite lookup_insert_eq. cbn [uuid sessionCount online currentSessionId].
      rewrite length_app, existsb_app, List.filter_app. cbn [length existsb List.filter].
      split; [exact Hu|]. split; [lia|]. split; [lia|].
      rewrite Honline, Hcurrent.
      destruct (active s); cbn [orb].
      * rewrite orb_true_r, last_snoc. split; reflexivity.
      * rewrite orb_false_r, app_nil_r. split; reflexivity.
    + rewrite lookup_insert_eq, IH. cbn [uuid sessionCount online currentSessionId].
      cbn [app length existsb List.filter].
      split; [reflexivity|]. split; [reflexivity|]. split; [lia|].
      destruct (active s); split; reflexivity.
  - rewrite (bool_decide_eq_false_2 (playerUuid s = u)) by exact Hne.
    rewrite app_nil_r.
    destruct (fold_left addSession l ∅ !! playerUuid s);
      rewrite lookup_insert_ne by exact Hne; exact IH.
Qed.
End StoragePlayers.
